(** * V3ParseImp: the token pipeline between the lexer and the grammar

    A shallow embedding of [src/V3ParseImp.cpp] (Verilator): the lookahead
    queue, the balanced-delimiter scanners, the token reclassification of
    [tokenPipeline], the symbol-table pass of [tokenPipelineSym], the
    [`line] directive handling of [lexPpline], the lint save/restore stack
    and the preprocessor-to-lexer buffer hand-over [ppInputToLex]. *)

From Stdlib Require Import ZArith Lia Ascii.
From stdpp Require Import base decidable option list strings gmap.

Open Scope Z_scope.

(** ** Tokens *)

(** Modelled from the spec: the terminal numbering of [V3ParseBison.h] is
    generated by bison and is not part of the sources at hand.  The [int]
    token codes are represented by an enumeration that names the end-of-input
    code [0], the single-character tokens and the bison terminals that
    [V3ParseImp.cpp] mentions; [tok_other] stands for every other terminal.
    Distinct constructors are distinct codes, as bison guarantees. *)
Inductive Token : Type :=
  | tok_EOF                                   (* 0 *)
  | tok_LPAREN | tok_RPAREN                   (* '(' ')' *)
  | tok_LBRACK | tok_RBRACK                   (* '[' ']' *)
  | tok_LBRACE                                (* '{' *)
  | tok_HASH | tok_AT | tok_DOT | tok_COLON   (* '#' '@' '.' ':' *)
  | yCONST__LEX | yCONST__REF | yCONST__ETC | yREF
  | yGLOBAL__LEX | yGLOBAL__CLOCKING | yGLOBAL__ETC | yCLOCKING
  | yLOCAL__LEX | yLOCAL__COLONCOLON | yLOCAL__ETC
  | yNEW__LEX | yNEW__PAREN | yNEW__ETC
  | ySTATIC__LEX | ySTATIC__CONSTRAINT | ySTATIC__ETC | yCONSTRAINT
  | yTYPE__LEX | yTYPE__EQ | yTYPE__ETC
  | yVIRTUAL__LEX | yVIRTUAL__CLASS | yVIRTUAL__INTERFACE
  | yVIRTUAL__anyID | yVIRTUAL__ETC
  | yCLASS | yINTERFACE
  | yWITH__LEX | yWITH__PAREN | yWITH__BRA | yWITH__CUR | yWITH__ETC
  | yaID__LEX | yaID__CC | yaID__ETC | yaID__aCELL | yaID__aTYPE
  | yaINTNUM | yaFLOATNUM | yaTIMENUM
  | yBEGIN | yFORK | yP_COLON__BEGIN | yP_COLON__FORK | yP_PAR__STRENGTH
  | yP_COLONCOLON | yP_EQUAL | yP_NOTEQUAL | yP_CASEEQUAL | yP_CASENOTEQUAL
  | ygenSTRENGTH | ySUPPLY0 | ySUPPLY1 | ySTRONG0 | ySTRONG1
  | yPULL0 | yPULL1 | yWEAK0 | yWEAK1 | yHIGHZ0 | yHIGHZ1
  | tok_other (code : nat).

#[global] Instance Token_eq_dec : EqDecision Token.
Proof. solve_decision. Defined.

(** ** Lookahead queue *)

(** [tokenPeekp]: the token [depth] places ahead.  The argument [toks] is the
    whole lookahead stream: the tokens already buffered in [m_tokensAhead]
    followed by those the lexer has still to deliver ([tokenPull] appends
    them on demand, in order).  Past the end of the input the lexer keeps
    answering the end-of-input code. *)
Definition tokenPeekp (toks : list Token) (depth : nat) : Token :=
  default tok_EOF (toks !! depth).

(** ** Structural scanners *)

(** The scanner loops walk the stream from position [depth] on; they are
    written by recursion on that suffix, [rest = drop depth toks], whose head
    is [tokenPeekp toks depth] and whose exhaustion is the end-of-input
    token.  Positions are [nat]: the [int]/[size_t] conversions of the source
    play no part below 2^31 tokens of lookahead.  The nesting counters are
    the source's [int]s. *)

(** [tokenPipeScanBracket]: the outer [while (peek == '[')] with its inner
    [do ... while (bra)].  In the inner loop the branch where no arm of the
    [if] chain applies ([bra == 0] on a token other than '[') leaves [depth]
    and [bra] alone, the [do] loop ends and the outer test fails on the same
    token: [depth] is returned. *)
Fixpoint bracket_while (rest : list Token) (inDepth depth : nat)
    {struct rest} : nat :=
  match rest with
  | [] => depth
  | tok0 :: _ =>
    if decide (tok0 = tok_LBRACK) then
      (fix bracket_do (r : list Token) (depth : nat) (bra : Z)
           {struct r} : nat :=
         match r with
         | [] => inDepth
         | tok :: r' =>
           if decide (tok = tok_EOF) then inDepth
           else if decide (tok = tok_LBRACK) then
             if decide (bra + 1 = 0) then bracket_while r' inDepth (S depth)
             else bracket_do r' (S depth) (bra + 1)
           else if decide (bra <> 0 /\ tok = tok_RBRACK) then
             if decide (bra - 1 = 0) then bracket_while r' inDepth (S depth)
             else bracket_do r' (S depth) (bra - 1)
           else if decide (bra <> 0) then bracket_do r' (S depth) bra
           else depth
         end) rest depth 0
    else depth
  end.

Definition tokenPipeScanBracket (toks : list Token) (inDepth : nat) : nat :=
  bracket_while (drop inDepth toks) inDepth inDepth.

(** The [while (true)] loop of [tokenPipeScanParam]. *)
Fixpoint param_loop (rest : list Token) (inDepth depth : nat) (parens : Z)
    : nat :=
  match rest with
  | [] => inDepth
  | tok :: rest' =>
    if decide (tok = tok_EOF) then inDepth
    else if decide (tok = tok_LPAREN) then
      param_loop rest' inDepth (S depth) (parens + 1)
    else if decide (tok = tok_RPAREN) then
      if decide (parens - 1 = 0) then S depth
      else param_loop rest' inDepth (S depth) (parens - 1)
    else param_loop rest' inDepth (S depth) parens
  end.

Definition tokenPipeScanParam (toks : list Token) (inDepth : nat)
    (forCell : bool) : nat :=
  let depth := inDepth in
  if decide (tokenPeekp toks depth <> tok_HASH) then inDepth else
  let depth := S depth in
  if decide (tokenPeekp toks depth <> tok_LPAREN) then
    if negb forCell then inDepth else
    let ntoken := tokenPeekp toks depth in
    if decide (ntoken = yaINTNUM \/ ntoken = yaFLOATNUM
               \/ ntoken = yaTIMENUM \/ ntoken = yaID__LEX)
    then S depth
    else inDepth
  else
  let depth := S depth in
  param_loop (drop depth toks) inDepth depth 1.

(** The [while (true)] loop of [tokenPipeScanTypeEq]; at the end of input the
    source leaves the loop by [break] and returns the position reached. *)
Fixpoint typeEq_loop (rest : list Token) (depth : nat) (parens : Z) : nat :=
  match rest with
  | [] => depth
  | tok :: rest' =>
    if decide (tok = tok_EOF) then depth
    else if decide (tok = tok_LPAREN) then
      typeEq_loop rest' (S depth) (parens + 1)
    else if decide (tok = tok_RPAREN) then
      if decide (parens - 1 = 0) then S depth
      else typeEq_loop rest' (S depth) (parens - 1)
    else typeEq_loop rest' (S depth) parens
  end.

Definition tokenPipeScanTypeEq (toks : list Token) (depth : nat) : nat :=
  if decide (tokenPeekp toks depth <> tok_LPAREN) then depth else
  let depth := (depth + 1)%nat in
  typeEq_loop (drop depth toks) depth 1.

Definition tokenPipeScanIdCell (toks : list Token) (depthIn : nat) : nat :=
  let depth := depthIn in
  let depth := tokenPipeScanParam toks depth true in
  if decide (tokenPeekp toks depth <> yaID__LEX) then depthIn else
  let depth := S depth in
  let depth := tokenPipeScanBracket toks depth in
  if decide (tokenPeekp toks depth <> tok_LPAREN) then depthIn else
  depth.

(** ** Token reclassification *)

(** Modelled from the spec: [AstNode] and the [VN_IS] type tests belong to
    [V3Ast.h], which is not part of the sources at hand; a node is
    represented by the node type that [tokenPipelineSym] tests. *)
Inductive VNType : Type :=
  | atTypedef | atTypedefFwd | atClass | atPackage | atOther (n : nat).

(** [V3ParseBisonYYSType], the value handed to bison: the token code, the
    string payload [strp] and the symbol-table node [scp] ([None] is
    [nullptr]).  The source location [fl] is not used by the pipeline. *)
Record V3ParseBisonYYSType : Type := mkYYS {
  token : Token;
  strp : string;
  scp : option VNType
}.

Definition set_token (t : Token) (v : V3ParseBisonYYSType) :=
  {| token := t; strp := strp v; scp := scp v |}.
Definition set_strp (s : string) (v : V3ParseBisonYYSType) :=
  {| token := token v; strp := s; scp := scp v |}.
Definition set_scp (n : option VNType) (v : V3ParseBisonYYSType) :=
  {| token := token v; strp := strp v; scp := n |}.

(** What the lexer delivers at the end of the input. *)
Definition yylval_EOF : V3ParseBisonYYSType :=
  {| token := tok_EOF; strp := EmptyString; scp := None |}.

Definition isStrengthToken (tok : Token) : bool :=
  bool_decide (tok = ygenSTRENGTH \/ tok = ySUPPLY0 \/ tok = ySUPPLY1
               \/ tok = ySTRONG0 \/ tok = ySTRONG1 \/ tok = yPULL0
               \/ tok = yPULL1 \/ tok = yWEAK0 \/ tok = yWEAK1
               \/ tok = yHIGHZ0 \/ tok = yHIGHZ1).

(** [tokenPipelineId]: [lastBison] is [m_tokenLastBison.token], [ahead] the
    codes of the lookahead stream after the identifier, [tok] the code of
    the identifier itself.  Peeking leaves [yylval] alone in the model, which
    is what the [VL_RESTORER]s of the source arrange. *)
Definition tokenPipelineId (lastBison : Token) (ahead : list Token)
    (tok : Token) : Token :=
  let nexttok := tokenPeekp ahead 0 in
  if decide (nexttok = yP_COLONCOLON) then yaID__CC else
  if bool_decide (lastBison <> tok_AT /\ lastBison <> tok_HASH
                  /\ lastBison <> tok_DOT)
     && negb (bool_decide (tokenPipeScanIdCell ahead 0 = 0%nat))
  then yaID__aCELL else
  if bool_decide (nexttok = tok_HASH)
     && bool_decide (tokenPeekp ahead (tokenPipeScanParam ahead 0 false)
                     = yP_COLONCOLON)
  then yaID__CC else
  tok.

(** [tokenPipeline]: takes the front of the lookahead stream (pulling the
    end-of-input value when the stream is exhausted) and refines its code;
    returns [yylval] and the remaining stream.  [pedantic] is
    [v3Global.opt.pedantic()]. *)
Definition tokenPipeline (pedantic : bool) (lastBison : Token)
    (tokensAhead : list V3ParseBisonYYSType)
    : V3ParseBisonYYSType * list V3ParseBisonYYSType :=
  let yylval := default yylval_EOF (head tokensAhead) in
  let tokensAhead := tail tokensAhead in
  let tok := token yylval in
  let ahead := token <$> tokensAhead in
  let nexttok := tokenPeekp ahead 0 in
  let yylval :=
    if decide (tok = tok_LPAREN) then
      if isStrengthToken nexttok then set_token yP_PAR__STRENGTH yylval
      else set_token tok yylval
    else if decide (tok = tok_COLON) then
      if decide (nexttok = yBEGIN) then set_token yP_COLON__BEGIN yylval
      else if decide (nexttok = yFORK) then set_token yP_COLON__FORK yylval
      else set_token tok yylval
    else if decide (tok = yCONST__LEX) then
      if decide (nexttok = yREF) then set_token yCONST__REF yylval
      else set_token yCONST__ETC yylval
    else if decide (tok = yGLOBAL__LEX) then
      if decide (nexttok = yCLOCKING) then set_token yGLOBAL__CLOCKING yylval
      else if pedantic then set_token yGLOBAL__ETC yylval
      else set_token yaID__LEX (set_strp "global" yylval)
    else if decide (tok = yLOCAL__LEX) then
      if decide (nexttok = yP_COLONCOLON)
      then set_token yLOCAL__COLONCOLON yylval
      else set_token yLOCAL__ETC yylval
    else if decide (tok = yNEW__LEX) then
      if decide (nexttok = tok_LPAREN) then set_token yNEW__PAREN yylval
      else set_token yNEW__ETC yylval
    else if decide (tok = ySTATIC__LEX) then
      if decide (nexttok = yCONSTRAINT)
      then set_token ySTATIC__CONSTRAINT yylval
      else set_token ySTATIC__ETC yylval
    else if decide (tok = yTYPE__LEX) then
      let depth := tokenPipeScanTypeEq ahead 0 in
      let postToken := tokenPeekp ahead depth in
      if decide (postToken = yP_EQUAL \/ postToken = yP_NOTEQUAL
                 \/ postToken = yP_CASEEQUAL \/ postToken = yP_CASENOTEQUAL)
      then set_token yTYPE__EQ yylval
      else set_token yTYPE__ETC yylval
    else if decide (tok = yVIRTUAL__LEX) then
      if decide (nexttok = yCLASS) then set_token yVIRTUAL__CLASS yylval
      else if decide (nexttok = yINTERFACE)
      then set_token yVIRTUAL__INTERFACE yylval
      else if decide (nexttok = yaID__ETC \/ nexttok = yaID__LEX)
      then set_token yVIRTUAL__anyID yylval
      else set_token yVIRTUAL__ETC yylval
    else if decide (tok = yWITH__LEX) then
      if decide (nexttok = tok_LPAREN) then set_token yWITH__PAREN yylval
      else if decide (nexttok = tok_LBRACK) then set_token yWITH__BRA yylval
      else if decide (nexttok = tok_LBRACE) then set_token yWITH__CUR yylval
      else set_token yWITH__ETC yylval
    else if decide (tok = yaID__LEX) then
      set_token (tokenPipelineId lastBison ahead tok) yylval
    else set_token tok yylval
  in
  (yylval, tokensAhead).

(** ** Symbol-aware classification *)

(** Modelled from the spec: the symbol table ([V3ParseSym], [VSymEnt]) is an
    external collaborator whose code is not part of the sources at hand.  A
    scope is represented by the answers of its two lookups; an answer is the
    [nodep()] of the entry found, [None] for [nullptr]. *)
Record VSymEnt : Type := mkSymEnt {
  findIdFlat : string -> option VNType;
  findIdFallback : string -> option VNType
}.

(** What [tokenPipelineSym] reads from its surroundings at one call:
    [symp()->symCurrentp()], the symbol entry of
    [v3Global.rootp()->stdPackagep()] ([None] when there is no standard
    package) and the options [bboxUnsup] and [pedantic]. *)
Record SymEnv : Type := mkSymEnv {
  symCurrentp : VSymEnt;
  stdPackagep : option VSymEnt;
  bboxUnsup : bool;
  pedantic : bool
}.

(** The state the pipeline keeps between calls: the members
    [m_tokensAhead] (with the rest of the lexer's stream),
    [m_tokenLastBison] and [m_afterColonColon], the pending scoped-lookup
    root [symp()->nextId()], the flag [v3Global.usesStdPackage()] and the
    function-static counter [warned] of [tokenPipelineSym]. *)
Record V3ParseImp : Type := mkParseImp {
  m_tokensAhead : list V3ParseBisonYYSType;
  m_tokenLastBison : V3ParseBisonYYSType;
  m_afterColonColon : bool;
  nextId : option VSymEnt;
  usesStdPackage : bool;
  warned : Z
}.

(** The calls on collaborators that [tokenPipelineSym] makes, in order. *)
Inductive Event : Type :=
  | EvFindIdFlat (name : string)        (* look_underp->findIdFlat *)
  | EvFindIdFallback (name : string)    (* symCurrentp()->findIdFallback *)
  | EvStdFindIdFallback (name : string) (* stdsymp->findIdFallback *)
  | EvImportStd     (* unitPackage()->addStmtsp(new AstPackageImport{std, "*"}) *)
  | EvWarnPKGNODECL (name : string).    (* yylval.fl->v3warn(PKGNODECL, ...) *)

#[global] Instance Event_eq_dec : EqDecision Event.
Proof. solve_decision. Defined.

(** The first lookup of [tokenPipelineSym]: forced under the pending root,
    which is consumed, or upward from the current scope.  Returns [foundp],
    the new pending root and the call made. *)
Definition sym_lookup (env : SymEnv) (pending : option VSymEnt)
    (name : string) : option VNType * option VSymEnt * list Event :=
  match pending with
  | Some look_underp =>
      (findIdFlat look_underp name, None, [EvFindIdFlat name])
  | None =>
      (findIdFallback (symCurrentp env) name, None, [EvFindIdFallback name])
  end.

(** The block [if (!foundp && !m_afterColonColon)]: the lookup in the
    standard package and the implicit import.  Returns [foundp], the flag
    [usesStdPackage] and the calls made. *)
Definition sym_std (env : SymEnv) (afterColonColon uses : bool)
    (name : string) (foundp : option VNType)
    : option VNType * bool * list Event :=
  if bool_decide (foundp = None) && negb afterColonColon then
    let '(foundp, ev) :=
      match stdPackagep env with
      | Some stdsymp =>
          (findIdFallback stdsymp name, [EvStdFindIdFallback name])
      | None => (foundp, [])
      end in
    if bool_decide (foundp <> None) && negb uses
    then (foundp, true, ev ++ [EvImportStd])
    else (foundp, uses, ev)
  else (foundp, uses, []).

Definition tokenPipelineSym (env : SymEnv) (s : V3ParseImp)
    : V3ParseImp * V3ParseBisonYYSType * list Event :=
  let '(yylval, ahead) :=
    tokenPipeline (pedantic env) (token (m_tokenLastBison s))
                  (m_tokensAhead s) in
  let tok := token yylval in
  let '(yylval, tok, pending, uses, cnt, evs) :=
    if decide (tok = yaID__LEX \/ tok = yaID__CC) then
      let '(foundp, pending, ev1) := sym_lookup env (nextId s) (strp yylval) in
      let '(foundp, uses, ev2) :=
        sym_std env (m_afterColonColon s) (usesStdPackage s) (strp yylval)
                foundp in
      match foundp with
      | Some node =>
          let yylval := set_scp (Some node) yylval in
          if decide (tok = yaID__LEX) then
            let tok :=
              match node with
              | atTypedef => yaID__aTYPE
              | atTypedefFwd => yaID__aTYPE
              | atClass => yaID__aTYPE
              | atPackage => yaID__ETC
              | atOther _ => yaID__ETC
              end in
            (yylval, tok, pending, uses, warned s, ev1 ++ ev2)
          else if negb (m_afterColonColon s)
                  && bool_decide (strp yylval = "std") then
            (yylval, tok, pending, true, warned s, ev1 ++ ev2)
          else (yylval, tok, pending, uses, warned s, ev1 ++ ev2)
      | None =>
          let yylval := set_scp None yylval in
          if decide (tok = yaID__CC) then
            if negb (bboxUnsup env) then
              if decide (warned s = 0) then
                (yylval, tok, pending, uses, warned s + 1,
                 ev1 ++ ev2 ++ [EvWarnPKGNODECL (strp yylval)])
              else (yylval, tok, pending, uses, warned s + 1, ev1 ++ ev2)
            else (yylval, tok, pending, uses, warned s, ev1 ++ ev2)
          else if decide (tok = yaID__LEX) then
            (yylval, yaID__ETC, pending, uses, warned s, ev1 ++ ev2)
          else (yylval, tok, pending, uses, warned s, ev1 ++ ev2)
      end
    else (yylval, tok, nextId s, usesStdPackage s, warned s, [])
  in
  let yylval := set_token tok yylval in
  ({| m_tokensAhead := ahead;
      m_tokenLastBison := m_tokenLastBison s;
      m_afterColonColon := bool_decide (tok = yP_COLONCOLON);
      nextId := pending;
      usesStdPackage := uses;
      warned := cnt |},
   yylval, evs).

(** [tokenToBison]: one finalized token for the grammar. *)
Definition tokenToBison (env : SymEnv) (s : V3ParseImp)
    : V3ParseImp * V3ParseBisonYYSType * list Event :=
  let '(s, yylval, evs) := tokenPipelineSym env s in
  ({| m_tokensAhead := m_tokensAhead s;
      m_tokenLastBison := yylval;
      m_afterColonColon := m_afterColonColon s;
      nextId := nextId s;
      usesStdPackage := usesStdPackage s;
      warned := warned s |},
   yylval, evs).

(** A run of the parser: between two calls of [tokenToBison] the grammar's
    actions may change the symbol table ([call_env]) and may set the pending
    scoped-lookup root ([call_nextId]: [None] leaves it as it is). *)
Record Call : Type := mkCall {
  call_env : SymEnv;
  call_nextId : option (option VSymEnt)
}.

Definition grammar_action (c : Call) (s : V3ParseImp) : V3ParseImp :=
  match call_nextId c with
  | None => s
  | Some pending =>
      {| m_tokensAhead := m_tokensAhead s;
         m_tokenLastBison := m_tokenLastBison s;
         m_afterColonColon := m_afterColonColon s;
         nextId := pending;
         usesStdPackage := usesStdPackage s;
         warned := warned s |}
  end.

Fixpoint run (calls : list Call) (s : V3ParseImp)
    : V3ParseImp * list V3ParseBisonYYSType * list Event :=
  match calls with
  | [] => (s, [], [])
  | c :: calls' =>
      let '(s1, yylval, ev) := tokenToBison (call_env c) (grammar_action c s) in
      let '(s2, out, evs) := run calls' s1 in
      (s2, yylval :: out, ev ++ evs)
  end.

(** The parser before its first token. *)
Definition V3ParseImp_init (toks : list V3ParseBisonYYSType) : V3ParseImp :=
  {| m_tokensAhead := toks;
     m_tokenLastBison := yylval_EOF;
     m_afterColonColon := false;
     nextId := None;
     usesStdPackage := false;
     warned := 0 |}.

(** ** Source locations and the [`line] directive *)

(** Modelled from the spec: the class [FileLine] ([V3FileLine.h]) is not part
    of the sources at hand.  A location has a filename, a line number, the
    running content-line counter, the set of warning codes switched off and
    a parent link; the link is an address in the store of locations, [None]
    for [nullptr]. *)
Record FileLine : Type := mkFileLine {
  fl_filename : string;
  fl_lineno : Z;
  fl_contentLineno : Z;
  fl_warnOff : gset string;
  fl_parent : option nat
}.

(** The lexer's view of the locations: the store of all [FileLine] objects
    allocated so far (an address is an index), the current location
    [m_lexFileline], the lint-state stack [m_lexLintState] (a vector, its
    back is the end of the list) and the errors reported through [v3error],
    each with the address it was reported on. *)
Record LexState : Type := mkLexState {
  heap : list FileLine;
  m_lexFileline : nat;
  m_lexLintState : list FileLine;
  errors : list (nat * string)
}.

Definition set_heap (h : list FileLine) (s : LexState) : LexState :=
  {| heap := h; m_lexFileline := m_lexFileline s;
     m_lexLintState := m_lexLintState s; errors := errors s |}.
Definition lexFileline_set (a : nat) (s : LexState) : LexState :=
  {| heap := heap s; m_lexFileline := a;
     m_lexLintState := m_lexLintState s; errors := errors s |}.
Definition set_lexLintState (l : list FileLine) (s : LexState) : LexState :=
  {| heap := heap s; m_lexFileline := m_lexFileline s;
     m_lexLintState := l; errors := errors s |}.
Definition v3error (fl : nat) (msg : string) (s : LexState) : LexState :=
  {| heap := heap s; m_lexFileline := m_lexFileline s;
     m_lexLintState := m_lexLintState s;
     errors := errors s ++ [(fl, msg)] |}.

(** A method call on the object at address [a]; [None] when [a] is not the
    address of an object. *)
Definition on_FileLine (a : nat) (f : FileLine -> FileLine) (s : LexState)
    : option LexState :=
  fl ← heap s !! a; Some (set_heap (<[a := f fl]> (heap s)) s).

(** Modelled from the spec: the methods of [FileLine] that [lexPpline] and
    the lint functions call. *)
Definition FileLine_filename (name : string) (fl : FileLine) : FileLine :=
  {| fl_filename := name; fl_lineno := fl_lineno fl;
     fl_contentLineno := fl_contentLineno fl; fl_warnOff := fl_warnOff fl;
     fl_parent := fl_parent fl |}.
Definition FileLine_lineno (num : Z) (fl : FileLine) : FileLine :=
  {| fl_filename := fl_filename fl; fl_lineno := num;
     fl_contentLineno := fl_contentLineno fl; fl_warnOff := fl_warnOff fl;
     fl_parent := fl_parent fl |}.
Definition FileLine_parent (p : option nat) (fl : FileLine) : FileLine :=
  {| fl_filename := fl_filename fl; fl_lineno := fl_lineno fl;
     fl_contentLineno := fl_contentLineno fl; fl_warnOff := fl_warnOff fl;
     fl_parent := p |}.
Definition FileLine_contentLinenoFrom (fromp fl : FileLine) : FileLine :=
  {| fl_filename := fl_filename fl; fl_lineno := fl_lineno fl;
     fl_contentLineno := fl_contentLineno fromp; fl_warnOff := fl_warnOff fl;
     fl_parent := fl_parent fl |}.
Definition FileLine_warnStateFrom (fromp fl : FileLine) : FileLine :=
  {| fl_filename := fl_filename fl; fl_lineno := fl_lineno fl;
     fl_contentLineno := fl_contentLineno fl; fl_warnOff := fl_warnOff fromp;
     fl_parent := fl_parent fl |}.

(** Modelled from the spec: [new FileLine{fromp}] allocates a copy of the
    object at [fromp], at an address not in use. *)
Definition new_FileLine (fromp : nat) (s : LexState)
    : option (nat * LexState) :=
  fl ← heap s !! fromp;
  Some (length (heap s), set_heap (heap s ++ [fl]) s).

(** Modelled from the spec: [copyOrSameFileLine] answers the object itself
    or a copy of it; [same] tells which. *)
Definition copyOrSameFileLine (same : bool) (this : nat) (s : LexState)
    : option (nat * LexState) :=
  if same then _ ← heap s !! this; Some (this, s)
  else new_FileLine this s.

(** The outcome of [lineDirectiveParse] on the text of a directive. *)
Record LineDirective : Type := mkLineDirective {
  newFilename : string;
  newLineno : Z;
  enterExit : Z
}.

Section LexPpline.

(** Modelled from the spec: [applyIgnores] re-applies the warning-ignore
    ranges of the configuration, which depend on the filename and the
    line; it changes the suppression set only. *)
Variable ignores : string -> Z -> gset string -> gset string.

Definition FileLine_applyIgnores (fl : FileLine) : FileLine :=
  {| fl_filename := fl_filename fl; fl_lineno := fl_lineno fl;
     fl_contentLineno := fl_contentLineno fl;
     fl_warnOff := ignores (fl_filename fl) (fl_lineno fl) (fl_warnOff fl);
     fl_parent := fl_parent fl |}.

(** The branch [enterExit == 1] of [lexPpline]. *)
Definition lexPpline_enter (same : bool) (s : LexState) : option LexState :=
  '(prevFl, s) ← copyOrSameFileLine same (m_lexFileline s) s;
  '(newFl, s) ← new_FileLine prevFl s;
  let s := lexFileline_set newFl s in
  on_FileLine (m_lexFileline s) (FileLine_parent (Some prevFl)) s.

(** The branch [enterExit == 2] of [lexPpline]. *)
Definition lexPpline_exit (s : LexState) : option LexState :=
  let prevFl := m_lexFileline s in
  top ← heap s !! prevFl;
  match fl_parent top with
  | Some upFl =>
      '(newFl, s) ← new_FileLine upFl s;
      let s := lexFileline_set newFl s in
      prev ← heap s !! prevFl;
      on_FileLine (m_lexFileline s) (FileLine_contentLinenoFrom prev) s
  | None => Some s
  end.

(** The block [enterExit != -1] of [lexPpline]. *)
Definition lexPpline_linefn (name : string) (line : Z) (s : LexState)
    : option LexState :=
  s ← on_FileLine (m_lexFileline s) (FileLine_filename name) s;
  s ← on_FileLine (m_lexFileline s) (FileLine_lineno line) s;
  on_FileLine (m_lexFileline s) FileLine_applyIgnores s.

Definition lexPpline (d : LineDirective) (same : bool) (s : LexState)
    : option LexState :=
  s ← (if decide (enterExit d = 1) then lexPpline_enter same s
       else if decide (enterExit d = 2) then lexPpline_exit s
       else Some s);
  if decide (enterExit d <> -1)
  then lexPpline_linefn (newFilename d) (newLineno d) s
  else Some s.

End LexPpline.

(** ** Lint save and restore *)

Definition lexVerilatorCmtLintSave (fl : nat) (s : LexState)
    : option LexState :=
  saved ← heap s !! fl;
  Some (set_lexLintState (m_lexLintState s ++ [saved]) s).

Definition lexVerilatorCmtLintRestore (fl : nat) (s : LexState)
    : option LexState :=
  match last (m_lexLintState s) with
  | None =>
      Some (v3error fl "/*verilator lint_restore*/ without matching save" s)
  | Some back =>
      s ← on_FileLine fl (FileLine_warnStateFrom back) s;
      Some (set_lexLintState (removelast (m_lexLintState s)) s)
  end.

(** ** Preprocessor output to the lexer *)

(** [ppInputToLex]: [ppBuffers] is the deque [m_ppBuffers], front first; the
    result is the number of bytes got, the bytes copied to [buf] (in the
    order of their offsets) and the deque left.  [fuel] bounds the number of
    times the loop body runs. *)
Fixpoint ppInputToLex_loop (fuel : nat) (max_size got : nat)
    (buf : list Byte.byte) (ppBuffers : list (list Byte.byte))
    : option (nat * list Byte.byte * list (list Byte.byte)) :=
  match ppBuffers with
  | front :: rest =>
    if decide (got < max_size)%nat then
      match fuel with
      | O => None
      | S fuel =>
        let len := length front in
        if decide (max_size - got < len)%nat then
          let remainder := drop (max_size - got) front in
          let front := take (max_size - got) front in
          let ppBuffers := remainder :: rest in
          let len := (max_size - got)%nat in
          ppInputToLex_loop fuel max_size (got + len) (buf ++ front) ppBuffers
        else
          ppInputToLex_loop fuel max_size (got + len) (buf ++ front) rest
      end
    else Some (got, buf, ppBuffers)
  | [] => Some (got, buf, ppBuffers)
  end.

Definition ppInputToLex (ppBuffers : list (list Byte.byte)) (max_size : nat)
    : option (nat * list Byte.byte * list (list Byte.byte)) :=
  ppInputToLex_loop (length ppBuffers) max_size 0 [] ppBuffers.

(** ** The shapes of the specification *)

(** The structures the scanners look for, worded as the specification does,
    independently of the scanning loops.  [balanced o c l]: the tokens [l]
    contain no end-of-input code and every [o] in them is closed by a later
    [c] of [l], every [c] opened by an earlier [o]. *)
Inductive balanced (o c : Token) : list Token -> Prop :=
  | balanced_nil : balanced o c []
  | balanced_tok t l :
      t <> o -> t <> c -> t <> tok_EOF ->
      balanced o c l -> balanced o c (t :: l)
  | balanced_group b l :
      balanced o c b -> balanced o c l -> balanced o c (o :: b ++ c :: l).

(** A balanced [( ... )] group and a balanced [[ ... ]] group. *)
Definition parenGroup (g : list Token) : Prop :=
  exists b, balanced tok_LPAREN tok_RPAREN b
            /\ g = tok_LPAREN :: b ++ [tok_RPAREN].
Definition bracketGroup (g : list Token) : Prop :=
  exists b, balanced tok_LBRACK tok_RBRACK b
            /\ g = tok_LBRACK :: b ++ [tok_RBRACK].

(** Zero or more consecutive bracket groups. *)
Inductive bracketGroups : list Token -> Prop :=
  | bracketGroups_nil : bracketGroups []
  | bracketGroups_cons g gs :
      bracketGroup g -> bracketGroups gs -> bracketGroups (g ++ gs).

(** The short form of a parameter value: one number, time or identifier. *)
Definition paramLiteral (t : Token) : Prop :=
  t = yaINTNUM \/ t = yaFLOATNUM \/ t = yaTIMENUM \/ t = yaID__LEX.

(** A parameter group: [#] with a balanced parenthesis group or, for a cell,
    [#] with one literal. *)
Definition paramGroup (forCell : bool) (p : list Token) : Prop :=
  (exists g, parenGroup g /\ p = tok_HASH :: g)
  \/ (forCell = true /\ exists t, paramLiteral t /\ p = [tok_HASH; t]).

(** The cell-instantiation shape of the tokens that follow an identifier:
    an optional parameter group, the instance name, bracket groups, [(]. *)
Definition cellShape (ahead : list Token) : Prop :=
  exists p brs rest,
    (p = [] \/ paramGroup true p) /\ bracketGroups brs
    /\ ahead = p ++ yaID__LEX :: brs ++ tok_LPAREN :: rest.

(** The equality and inequality operators. *)
Definition equalityOp (t : Token) : Prop :=
  t = yP_EQUAL \/ t = yP_NOTEQUAL \/ t = yP_CASEEQUAL \/ t = yP_CASENOTEQUAL.

(** The type-reference shape of the tokens that follow [type]: a balanced
    parenthesis group, then an equality or inequality operator. *)
Definition typeEqShape (ahead : list Token) : Prop :=
  exists g op rest,
    parenGroup g /\ equalityOp op /\ ahead = g ++ op :: rest.

(** ** Auxiliary definitions for the proofs *)

(** The counting loop the three scanners share: from nesting level [n] at
    [depth], the position past the [c] that brings the level to zero, with
    the stream left there; [None] when the end of input comes first. *)
Fixpoint scan_close (o c : Token) (rest : list Token) (depth : nat) (n : Z)
    : option (nat * list Token) :=
  match rest with
  | [] => None
  | tok :: rest' =>
    if decide (tok = tok_EOF) then None
    else if decide (tok = o) then scan_close o c rest' (S depth) (n + 1)
    else if decide (tok = c) then
      if decide (n - 1 = 0) then Some (S depth, rest')
      else scan_close o c rest' (S depth) (n - 1)
    else scan_close o c rest' (S depth) n
  end.

(** The number of tokens before the end of input. *)
Fixpoint eof_offset (rest : list Token) : nat :=
  match rest with
  | [] => 0
  | tok :: rest' => if decide (tok = tok_EOF) then 0 else S (eof_offset rest')
  end.

(** The inner [do ... while (bra)] loop of [tokenPipeScanBracket], by name. *)
Definition bracket_do (inDepth : nat)
    : list Token -> nat -> Z -> nat :=
  fix bracket_do (r : list Token) (depth : nat) (bra : Z) {struct r} : nat :=
    match r with
    | [] => inDepth
    | tok :: r' =>
      if decide (tok = tok_EOF) then inDepth
      else if decide (tok = tok_LBRACK) then
        if decide (bra + 1 = 0) then bracket_while r' inDepth (S depth)
        else bracket_do r' (S depth) (bra + 1)
      else if decide (bra <> 0 /\ tok = tok_RBRACK) then
        if decide (bra - 1 = 0) then bracket_while r' inDepth (S depth)
        else bracket_do r' (S depth) (bra - 1)
      else if decide (bra <> 0) then bracket_do r' (S depth) bra
      else depth
    end.

(** Counting, in the trace of a run, the implicit imports spliced and the
    diagnostics emitted. *)
Fixpoint count_import (evs : list Event) : nat :=
  match evs with
  | [] => 0
  | EvImportStd :: evs' => S (count_import evs')
  | _ :: evs' => count_import evs'
  end.
Fixpoint count_warn (evs : list Event) : nat :=
  match evs with
  | [] => 0
  | EvWarnPKGNODECL _ :: evs' => S (count_warn evs')
  | _ :: evs' => count_warn evs'
  end.

(** The value [tokenPipeline] hands to [tokenPipelineSym] at a call. *)
Definition pipeline_yylval (env : SymEnv) (s : V3ParseImp)
    : V3ParseBisonYYSType :=
  fst (tokenPipeline (pedantic env) (token (m_tokenLastBison s))
                     (m_tokensAhead s)).

(** The answer of the ordinary lookup at a call: forced under the pending
    scoped root, or upward from the current scope. *)
Definition ordinary_lookup (env : SymEnv) (s : V3ParseImp) : option VNType :=
  fst (fst (sym_lookup env (nextId s) (strp (pipeline_yylval env s)))).

(** The answer of the standard package for the identifier of a call. *)
Definition std_lookup (env : SymEnv) (s : V3ParseImp) : option VNType :=
  stdsymp ← stdPackagep env;
  findIdFallback stdsymp (strp (pipeline_yylval env s)).

(** An identifier that resolves only through the standard-package fallback:
    the ordinary lookup finds nothing, the identifier does not come after
    [::] and the standard package knows it. *)
Definition resolves_via_std (env : SymEnv) (s : V3ParseImp) : Prop :=
  (token (pipeline_yylval env s) = yaID__LEX
   \/ token (pipeline_yylval env s) = yaID__CC)
  /\ ordinary_lookup env s = None
  /\ m_afterColonColon s = false
  /\ is_Some (std_lookup env s).

(** An identifier that no lookup finds: the ordinary lookup finds nothing
    and the standard package is not consulted (after [::]) or does not know
    it either. *)
Definition sym_not_found (env : SymEnv) (s : V3ParseImp) : Prop :=
  ordinary_lookup env s = None
  /\ (m_afterColonColon s = true \/ std_lookup env s = None).

(** Example scopes: a compilation unit that knows the package [std] and
    nothing else, and the standard package with its classes. *)
Definition unit_scope : VSymEnt :=
  {| findIdFlat := fun name =>
       if decide (name = "std") then Some atPackage else None;
     findIdFallback := fun name =>
       if decide (name = "std") then Some atPackage else None |}.
Definition empty_scope : VSymEnt :=
  {| findIdFlat := fun _ => None; findIdFallback := fun _ => None |}.
Definition std_scope : VSymEnt :=
  {| findIdFlat := fun name =>
       if decide (name = "process" \/ name = "semaphore")
       then Some atClass else None;
     findIdFallback := fun name =>
       if decide (name = "process" \/ name = "semaphore")
       then Some atClass else None |}.
Definition unit_env : SymEnv :=
  {| symCurrentp := unit_scope; stdPackagep := Some std_scope;
     bboxUnsup := false; pedantic := false |}.
Definition empty_env : SymEnv :=
  {| symCurrentp := empty_scope; stdPackagep := Some std_scope;
     bboxUnsup := false; pedantic := false |}.

(** A sequence of calls of [ppInputToLex], one per requested size: the
    bytes delivered by all the calls, in order, and the deque left. *)
Fixpoint ppInputToLex_calls (sizes : list nat)
    (ppBuffers : list (list Byte.byte))
    : option (list Byte.byte * list (list Byte.byte)) :=
  match sizes with
  | [] => Some ([], ppBuffers)
  | max_size :: sizes' =>
      '(_, buf, ppBuffers) ← ppInputToLex ppBuffers max_size;
      '(bufs, ppBuffers) ← ppInputToLex_calls sizes' ppBuffers;
      Some (buf ++ bufs, ppBuffers)
  end.

(** What happens to the current location while a file is read: a
    directive ([lexPpline]), or a change of the current location in place
    (the lexer counting lines, a lint comment). *)
Inductive LexOp : Type :=
  | LexDirective (d : LineDirective) (same : bool)
  | LexTouch (f : FileLine -> FileLine).

Definition lex_op (ignores : string -> Z -> gset string -> gset string)
    (op : LexOp) (s : LexState) : option LexState :=
  match op with
  | LexDirective d same => lexPpline ignores d same s
  | LexTouch f => on_FileLine (m_lexFileline s) f s
  end.

Fixpoint lex_ops (ignores : string -> Z -> gset string -> gset string)
    (ops : list LexOp) (s : LexState) : option LexState :=
  match ops with
  | [] => Some s
  | op :: ops' => s ← lex_op ignores op s; lex_ops ignores ops' s
  end.

(** The current location. *)
Definition lexFileline (s : LexState) : option FileLine :=
  heap s !! m_lexFileline s.

(** Modelled from the spec: the lexer counting one line on the current
    location; the line number and the content-line counter advance. *)
Definition FileLine_linenoInc (fl : FileLine) : FileLine :=
  {| fl_filename := fl_filename fl; fl_lineno := fl_lineno fl + 1;
     fl_contentLineno := fl_contentLineno fl + 1;
     fl_warnOff := fl_warnOff fl; fl_parent := fl_parent fl |}.

(** Example: one top-level location, at line 10 of [top.v]. *)
Definition top_v : FileLine :=
  {| fl_filename := "top.v"; fl_lineno := 10; fl_contentLineno := 10;
     fl_warnOff := ∅; fl_parent := None |}.
Definition lex_top_v : LexState :=
  {| heap := [top_v]; m_lexFileline := 0; m_lexLintState := [];
     errors := [] |}.

(** ** Further shapes and collaborators *)

(** The raw kinds of the lexer that the pipeline refines before the grammar
    sees them. *)
Definition raw_kind (t : Token) : Prop :=
  t = yCONST__LEX \/ t = yGLOBAL__LEX \/ t = yLOCAL__LEX \/ t = yNEW__LEX
  \/ t = ySTATIC__LEX \/ t = yTYPE__LEX \/ t = yVIRTUAL__LEX
  \/ t = yWITH__LEX \/ t = yaID__LEX.

(** The kinds for which [tokenPipeline] looks ahead. *)
Definition lookahead_kind (t : Token) : Prop :=
  t = tok_LPAREN \/ t = tok_COLON \/ raw_kind t.

(** The shape after an identifier that makes it a package-qualified name
    with parameters: [#], a balanced parenthesis group, [::]. *)
Definition paramColonColonShape (ahead : list Token) : Prop :=
  exists g rest,
    parenGroup g /\ ahead = tok_HASH :: g ++ yP_COLONCOLON :: rest.

(** The node an identifier resolves to at a call, [None] when no lookup
    finds it: the answer of the ordinary lookup or, when that finds nothing
    and the identifier does not come after [::], the one of the standard
    package. *)
Definition sym_found (env : SymEnv) (s : V3ParseImp) : option VNType :=
  match ordinary_lookup env s with
  | Some node => Some node
  | None => if m_afterColonColon s then None else std_lookup env s
  end.

(** The nodes that make an identifier a type: typedefs, forward typedefs
    and classes. *)
Definition is_type_node (node : VNType) : bool :=
  match node with
  | atTypedef | atTypedefFwd | atClass => true
  | atPackage | atOther _ => false
  end.

(** A store of locations without dangling links: the current location is
    the address of an object, and so is every parent link. *)
Definition links_below (n : nat) (h : list FileLine) : Prop :=
  Forall (fun fl => forall p, fl_parent fl = Some p -> (p < n)%nat) h.

Definition lex_wf (s : LexState) : Prop :=
  (m_lexFileline s < length (heap s))%nat
  /\ links_below (length (heap s)) (heap s).


(** ** Comments for the lexer *)

(** The text of a comment is the characters of a C string before its
    terminator.  [std::isspace] and [std::isalnum], in the C locale. *)
Definition isspace (c : ascii) : bool :=
  let n := nat_of_ascii c in
  ((n =? 32) || ((9 <=? n) && (n <=? 13)))%nat.

Definition isalnum (c : ascii) : bool :=
  let n := nat_of_ascii c in
  (((48 <=? n) && (n <=? 57)) || ((65 <=? n) && (n <=? 90))
   || ((97 <=? n) && (n <=? 122)))%nat.

(** The loops that advance [sp] while the character under it is not the
    terminator and [p] accepts it. *)
Fixpoint skip_while (p : ascii -> bool) (sp : list ascii) : list ascii :=
  match sp with
  | c :: sp' => if p c then skip_while p sp' else sp
  | [] => []
  end.

(** [for (i = 0; p(s[i]); i++) name += s[i];] where [s[size()]] is the
    terminator, which [p] refuses. *)
Fixpoint take_while (p : ascii -> bool) (s : list ascii) : list ascii :=
  match s with
  | c :: s' => if p c then c :: take_while p s' else []
  | [] => []
  end.

(** [std::string::find(c)]: the first position of [c], [None] for
    [npos]. *)
Fixpoint find_char (c : ascii) (msg : list ascii) : option nat :=
  match msg with
  | [] => None
  | x :: msg' =>
      if decide (x = c) then Some 0%nat else S <$> find_char c msg'
  end.

(** [std::string::rfind(pat)]: the last position at which [pat] occurs,
    [None] for [npos]. *)
Fixpoint rfind (pat msg : list ascii) : option nat :=
  match msg with
  | [] => if bool_decide (pat = []) then Some 0%nat else None
  | _ :: msg' =>
      match rfind pat msg' with
      | Some pos => Some (S pos)
      | None =>
          if bool_decide (pat `prefix_of` msg) then Some 0%nat else None
      end
  end.

(** The message code of a lint comment: what follows the second word, up
    to the first [*]. *)
Definition lint_msg (textp : list ascii) : list ascii :=
  let sp := textp in
  let sp := skip_while (fun c => negb (isspace c)) sp in
  let sp := skip_while isspace sp in
  let sp := skip_while (fun c => negb (isspace c)) sp in
  let sp := skip_while isspace sp in
  let msg := sp in
  match find_char "*" msg with
  | Some pos => take pos msg
  | None => msg
  end.

Section Lint.

(** Modelled from the spec: [FileLine::warnOff(msg, flag)] answers whether
    [msg] is the name of a warning code ([known]) and, when it is, switches
    the code off or on in the suppression set;
    [v3Global.opt.isFuture(msg)] tells the names reserved for future use. *)
Variable known : string -> bool.
Variable isFuture : string -> bool.

Definition FileLine_warnOff (msg : string) (flag : bool) (fl : FileLine)
    : bool * FileLine :=
  if known msg then
    (true,
     {| fl_filename := fl_filename fl; fl_lineno := fl_lineno fl;
        fl_contentLineno := fl_contentLineno fl;
        fl_warnOff := if flag then fl_warnOff fl ∪ {[msg]}
                      else fl_warnOff fl ∖ {[msg]};
        fl_parent := fl_parent fl |})
  else (false, fl).

(** [lexVerilatorCmtLint]: the code is switched on the current location of
    the lexer, an unknown code is reported on [fl]. *)
Definition lexVerilatorCmtLint (fl : nat) (textp : list ascii)
    (warnOff : bool) (s : LexState) : option LexState :=
  let msg := String.string_of_list_ascii (lint_msg textp) in
  cur ← heap s !! m_lexFileline s;
  let '(ok, cur) := FileLine_warnOff msg warnOff cur in
  let s := set_heap (<[m_lexFileline s := cur]> (heap s)) s in
  if negb ok then
    if negb (isFuture msg) then
      Some (v3error fl
              ("Unknown verilator lint message code: '" +:+ msg
               +:+ "', in '" +:+ String.string_of_list_ascii textp +:+ "'") s)
    else Some s
  else Some s.

(** [lexVerilatorCmtBad]: a [/*verilator ...*/] comment that the lexer does
    not know is an error unless its first word is reserved for future
    use. *)
Definition lexVerilatorCmtBad (fl : nat) (textp : list ascii)
    (s : LexState) : LexState :=
  let cmtparse := textp in
  let cmtparse :=
    if bool_decide (take (String.length "/*verilator") cmtparse
                    = String.list_ascii_of_string "/*verilator")
    then drop (String.length "/*verilator") cmtparse
    else cmtparse in
  let cmtparse := skip_while isspace cmtparse in
  let cmtname := take_while isalnum cmtparse in
  if negb (isFuture (String.string_of_list_ascii cmtname)) then
    v3error fl ("Unknown verilator comment: '"
                +:+ String.string_of_list_ascii textp +:+ "'") s
  else s.

End Lint.

(** [lexParseTag]: the text of a [/*verilator tag ...*/] comment.  The
    pointer [textp + strlen("/*verilator tag ")] lies within the string only
    when the text has that many characters; [None] otherwise. *)
Definition lexParseTag (textp : list ascii) : option (list ascii) :=
  if decide (length textp < String.length "/*verilator tag ")%nat then None
  else
    let tmp := drop (String.length "/*verilator tag ") textp in
    match rfind (String.list_ascii_of_string "*/") tmp with
    | Some pos => Some (take pos tmp)
    | None => Some tmp
    end.

(** What the lint comments of a file do, in the order the lexer meets
    them: a save or a restore of the current location, or a comment that
    switches a code (with the location to report on, the text, and whether
    the code is switched off). *)
Inductive LintOp : Type :=
  | LintSave
  | LintRestore
  | LintComment (fl : nat) (textp : list ascii) (warnOff : bool).

Definition lint_op (known isFuture : string -> bool) (op : LintOp)
    (s : LexState) : option LexState :=
  match op with
  | LintSave => lexVerilatorCmtLintSave (m_lexFileline s) s
  | LintRestore => lexVerilatorCmtLintRestore (m_lexFileline s) s
  | LintComment fl textp warnOff =>
      lexVerilatorCmtLint known isFuture fl textp warnOff s
  end.

Fixpoint lint_ops (known isFuture : string -> bool) (ops : list LintOp)
    (s : LexState) : option LexState :=
  match ops with
  | [] => Some s
  | op :: ops' => s ← lint_op known isFuture op s;
                  lint_ops known isFuture ops' s
  end.

(** Lint comments in which every save has its restore and every restore
    its save. *)
Inductive lint_body : list LintOp -> Prop :=
  | lint_body_nil : lint_body []
  | lint_body_comment fl textp warnOff ops :
      lint_body ops -> lint_body (LintComment fl textp warnOff :: ops)
  | lint_body_block inner ops :
      lint_body inner -> lint_body ops ->
      lint_body (LintSave :: inner ++ LintRestore :: ops).

(** What a sequence of lint comments may change: the suppression set of
    the current location, and the errors. *)
Definition lint_changes (s s' : LexState) : Prop :=
  m_lexFileline s' = m_lexFileline s
  /\ m_lexLintState s' = m_lexLintState s
  /\ (exists cur cur',
        lexFileline s = Some cur
        /\ heap s' = <[m_lexFileline s := cur']> (heap s)
        /\ forall x,
             FileLine_warnStateFrom x cur' = FileLine_warnStateFrom x cur)
  /\ exists more, errors s' = errors s ++ more.

(** A string that does not begin with a character that [p] accepts. *)
Definition stops (p : ascii -> bool) (r : list ascii) : Prop :=
  forall c, head r = Some c -> p c = false.

(** ** Filling and dumping the preprocessor buffers *)

(** Modelled from the spec: [V3ParseImp::ppPushText] is defined in
    [V3ParseImp.h], which is not part of the sources at hand; it appends
    the text to the deque [m_ppBuffers]. *)
Definition impp_ppPushText (text : list Byte.byte)
    (ppBuffers : list (list Byte.byte)) : list (list Byte.byte) :=
  ppBuffers ++ [text].

(** [V3Parse::ppPushText]. *)
Definition ppPushText (text : list Byte.byte)
    (ppBuffers : list (list Byte.byte)) : list (list Byte.byte) :=
  if bool_decide (text <> []) then impp_ppPushText text ppBuffers
  else ppBuffers.

(** The test of the inner loop of [preprocDumps]: a character that is
    neither white space nor a newline. *)
Definition nonblank (ch : Byte.byte) : bool :=
  negb (isspace (ascii_of_byte ch))
  && negb (bool_decide (ascii_of_byte ch = "010"%char)).

(** [preprocDumps]: the bytes written to [os].  [buf.rfind(str, 0) == 0]
    is the test that [buf] begins with [str]. *)
Fixpoint preprocDumps_loop (noblanks nolines : bool)
    (ppBuffers : list (list Byte.byte)) (os : list Byte.byte)
    : list Byte.byte :=
  match ppBuffers with
  | [] => os
  | buf :: ppBuffers' =>
      if noblanks then
        let blank := negb (existsb nonblank buf) in
        if blank then preprocDumps_loop noblanks nolines ppBuffers' os
        else if nolines
                && bool_decide (String.list_ascii_of_string "`line "
                                `prefix_of` (ascii_of_byte <$> buf))
        then preprocDumps_loop noblanks nolines ppBuffers' os
        else preprocDumps_loop noblanks nolines ppBuffers' (os ++ buf)
      else preprocDumps_loop noblanks nolines ppBuffers' (os ++ buf)
  end.

(** [preprocOnly] and [preprocNoLine] are the options
    [v3Global.opt.preprocOnly()] and [v3Global.opt.preprocNoLine()]. *)
Definition preprocDumps (preprocOnly preprocNoLine : bool)
    (ppBuffers : list (list Byte.byte)) (forInputs : bool)
    : list Byte.byte :=
  let noblanks := forInputs || (preprocOnly && preprocNoLine) in
  let nolines := forInputs in
  preprocDumps_loop noblanks nolines ppBuffers [].

(** * Properties *)

(** ** Lookahead *)

Lemma tokenPeekp_drop (toks : list Token) (d : nat) :
  tokenPeekp toks d = default tok_EOF (head (drop d toks)).
Proof.
  unfold tokenPeekp. revert toks.
  induction d as [|d IH]; intros [|t toks]; simpl; auto.
Qed.

Lemma drop_S_tail {A} (l : list A) (d : nat) : drop (S d) l = tail (drop d l).
Proof.
  revert l. induction d as [|d IH]; intros [|x l]; simpl; auto.
Qed.

Lemma drop_cons_eq {A} (l : list A) (d : nat) (x : A) (r : list A) :
  drop d l = x :: r -> drop (S d) l = r.
Proof. intros H. by rewrite drop_S_tail, H. Qed.

Lemma drop_app_eq {A} (l : list A) (d : nat) (p r : list A) :
  drop d l = p ++ r -> drop (d + length p) l = r.
Proof.
  intros H. rewrite <- drop_drop, H.
  by rewrite drop_app_length.
Qed.

Lemma tokenPeekp_cons (toks : list Token) (d : nat) t r :
  drop d toks = t :: r -> tokenPeekp toks d = t.
Proof. intros H. by rewrite tokenPeekp_drop, H. Qed.

(** ** The counting loop and balanced token lists *)

Section ScanClose.

Variables o c : Token.
Hypothesis o_c : o <> c.
Hypothesis o_eof : o <> tok_EOF.
Hypothesis c_eof : c <> tok_EOF.

Lemma scan_close_open rest depth n :
  scan_close o c (o :: rest) depth n = scan_close o c rest (S depth) (n + 1).
Proof. simpl. repeat case_decide; congruence. Qed.

Lemma scan_close_close rest depth n :
  scan_close o c (c :: rest) depth n
  = if decide (n - 1 = 0) then Some (S depth, rest)
    else scan_close o c rest (S depth) (n - 1).
Proof. simpl. repeat case_decide; congruence. Qed.

Lemma scan_close_other t rest depth n :
  t <> o -> t <> c -> t <> tok_EOF ->
  scan_close o c (t :: rest) depth n = scan_close o c rest (S depth) n.
Proof. intros. simpl. repeat case_decide; congruence. Qed.

(** A balanced list is walked through without a change of level. *)
Lemma scan_close_balanced b :
  balanced o c b ->
  forall r depth n, 0 < n ->
    scan_close o c (b ++ r) depth n
    = scan_close o c r (depth + length b) n.
Proof.
  induction 1 as [|t l Ho Hc He Hl IHl|b l Hb IHb Hl IHl];
    intros r depth n Hn.
  - simpl. by rewrite Nat.add_0_r.
  - rewrite <- app_comm_cons, scan_close_other by done.
    rewrite IHl by done. f_equal. simpl. lia.
  - rewrite <- app_comm_cons, scan_close_open.
    rewrite <- app_assoc, IHb by lia.
    rewrite <- app_comm_cons, scan_close_close.
    case_decide; [lia|].
    replace (n + 1 - 1) with n by lia.
    rewrite IHl by done. f_equal.
    simpl. rewrite length_app. simpl. lia.
Qed.

(** The closing token after a balanced list ends the scan at level 1. *)
Lemma scan_close_group b r depth :
  balanced o c b ->
  scan_close o c (b ++ c :: r) depth 1 = Some ((depth + length b + 1)%nat, r).
Proof.
  intros Hb. rewrite scan_close_balanced by (done || lia).
  rewrite scan_close_close. case_decide; [|lia].
  do 2 f_equal. lia.
Qed.

(** Conversely, a scan that ends has walked through a balanced list up to
    the closing token of its level. *)
Lemma scan_close_inv_len k :
  forall rest, (length rest < k)%nat ->
  forall depth n p r', 0 < n ->
    scan_close o c rest depth n = Some (p, r') ->
    exists b rest1,
      balanced o c b /\ rest = b ++ c :: rest1
      /\ if decide (n = 1)
         then rest1 = r' /\ p = (depth + length b + 1)%nat
         else scan_close o c rest1 (depth + length b + 1) (n - 1)
              = Some (p, r').
Proof.
  induction k as [|k IH]; intros rest Hlen depth n p r' Hn Hscan; [lia|].
  destruct rest as [|tok rest']; [done|].
  simpl in Hscan.
  destruct (decide (tok = tok_EOF)) as [|He]; [done|].
  destruct (decide (tok = o)) as [->|Ho].
  - (* an opening token: two scans, the nested group then the rest *)
    simpl in Hlen.
    destruct (IH rest' ltac:(lia) (S depth) (n + 1) p r' ltac:(lia) Hscan)
      as (b1 & rest1 & Hb1 & -> & H1).
    destruct (decide (n + 1 = 1)) as [|_]; [lia|].
    replace (n + 1 - 1) with n in H1 by lia.
    rewrite length_app in Hlen. simpl in Hlen.
    destruct (IH rest1 ltac:(lia) _ _ _ _ Hn H1)
      as (b2 & rest2 & Hb2 & -> & H2).
    exists (o :: b1 ++ c :: b2), rest2. split; [by constructor|].
    split; [by simpl; rewrite <- app_assoc|].
    replace (length (o :: b1 ++ c :: b2))
      with (S (length b1) + 1 + length b2)%nat
      by (simpl; rewrite length_app; simpl; lia).
    destruct (decide (n = 1)).
    + destruct H2 as [-> ->]. split; [done|lia].
    + rewrite <- H2. f_equal. lia.
  - destruct (decide (tok = c)) as [->|Hc].
    + exists [], rest'. split; [constructor|]. split; [done|].
      simpl. destruct (decide (n - 1 = 0)).
      * destruct (decide (n = 1)); [|lia].
        inversion Hscan; subst. split; [done|lia].
      * destruct (decide (n = 1)); [lia|].
        rewrite <- Hscan. f_equal. lia.
    + simpl in Hlen.
      destruct (IH rest' ltac:(lia) _ _ _ _ Hn Hscan)
        as (b1 & rest1 & Hb1 & -> & H1).
      exists (tok :: b1), rest1. split; [by constructor|].
      split; [done|].
      destruct (decide (n = 1)).
      * destruct H1 as [-> ->]. split; [done|simpl; lia].
      * rewrite <- H1. f_equal. simpl. lia.
Qed.

Lemma scan_close_inv1 rest depth p r' :
  scan_close o c rest depth 1 = Some (p, r') ->
  exists b, balanced o c b /\ rest = b ++ c :: r'
            /\ p = (depth + length b + 1)%nat.
Proof.
  intros H.
  apply (scan_close_inv_len (S (length rest)) rest ltac:(lia)) in H; [|lia].
  destruct H as (b & rest1 & Hb & -> & H).
  destruct (decide (1 = 1)); [|done].
  destruct H as [-> ->]. by exists b.
Qed.

(** A scan that does not end stops at the end of input. *)
Lemma scan_close_None rest :
  forall depth n, scan_close o c rest depth n = None ->
    default tok_EOF (head (drop (eof_offset rest) rest)) = tok_EOF.
Proof.
  induction rest as [|tok rest IH]; intros depth n H; [done|].
  simpl in *. destruct (decide (tok = tok_EOF)); [done|].
  simpl. repeat case_decide; try done; eauto.
Qed.

End ScanClose.

(** ** The scanner loops are instances of the counting loop *)

Lemma param_loop_scan rest :
  forall inDepth depth n,
    param_loop rest inDepth depth n
    = match scan_close tok_LPAREN tok_RPAREN rest depth n with
      | Some (p, _) => p
      | None => inDepth
      end.
Proof.
  induction rest as [|tok rest IH]; intros inDepth depth n; [done|].
  simpl. repeat case_decide; auto.
Qed.

Lemma typeEq_loop_scan rest :
  forall depth n,
    typeEq_loop rest depth n
    = match scan_close tok_LPAREN tok_RPAREN rest depth n with
      | Some (p, _) => p
      | None => (depth + eof_offset rest)%nat
      end.
Proof.
  induction rest as [|tok rest IH]; intros depth n; simpl; [lia|].
  repeat case_decide; auto; try lia.
  - rewrite IH. destruct (scan_close _ _ _ _ _) as [[? ?]|]; lia.
  - rewrite IH. destruct (scan_close _ _ _ _ _) as [[? ?]|]; lia.
  - rewrite IH. destruct (scan_close _ _ _ _ _) as [[? ?]|]; lia.
Qed.

Lemma bracket_while_cons tok r inDepth depth :
  bracket_while (tok :: r) inDepth depth
  = if decide (tok = tok_LBRACK) then bracket_do inDepth (tok :: r) depth 0
    else depth.
Proof. reflexivity. Qed.

Lemma bracket_do_scan inDepth r :
  forall depth n, 0 < n ->
    bracket_do inDepth r depth n
    = match scan_close tok_LBRACK tok_RBRACK r depth n with
      | Some (p, r') => bracket_while r' inDepth p
      | None => inDepth
      end.
Proof.
  induction r as [|tok r IH]; intros depth n Hn; [done|].
  simpl. repeat case_decide; try lia; try (rewrite IH by lia); auto;
    try tauto.
Qed.

(** On [[] the outer loop runs the inner loop from level 0, which counts the
    bracket and goes on at level 1. *)
Lemma bracket_while_open r inDepth depth :
  bracket_while (tok_LBRACK :: r) inDepth depth
  = match scan_close tok_LBRACK tok_RBRACK r (S depth) 1 with
    | Some (p, r') => bracket_while r' inDepth p
    | None => inDepth
    end.
Proof.
  rewrite bracket_while_cons. case_decide; [|done].
  rewrite <- bracket_do_scan by lia.
  simpl. repeat case_decide; try done.
Qed.

(** ** What the scanners return *)

(** [tokenPipeScanBracket] on a stream that starts with bracket groups
    followed by a token other than [[]: the position past the groups. *)
Lemma bracket_while_groups gs :
  bracketGroups gs ->
  forall r inDepth depth,
    default tok_EOF (head r) <> tok_LBRACK ->
    bracket_while (gs ++ r) inDepth depth = (depth + length gs)%nat.
Proof.
  induction 1 as [|g gs (b & Hb & ->) Hgs IH]; intros r inDepth depth Hr.
  - simpl. rewrite Nat.add_0_r. destruct r as [|t r]; [done|].
    rewrite bracket_while_cons. simpl in Hr. by case_decide.
  - rewrite <- app_assoc, <- app_comm_cons, bracket_while_open.
    rewrite <- (app_assoc b), <- app_comm_cons.
    rewrite scan_close_group by done. simpl.
    rewrite IH by done.
    rewrite ?length_app; simpl; rewrite ?length_app; simpl; lia.
Qed.

(** Conversely, whatever [tokenPipeScanBracket] returns is either the
    position past a run of bracket groups that is followed by a token other
    than [[], or the input position after the end of input was met inside a
    group (and then the stream at the input position starts with [[]). *)
Lemma bracket_while_inv_len k :
  forall rest, (length rest < k)%nat ->
  forall inDepth depth,
    (exists gs r, rest = gs ++ r /\ bracketGroups gs
                  /\ default tok_EOF (head r) <> tok_LBRACK
                  /\ bracket_while rest inDepth depth
                     = (depth + length gs)%nat)
    \/ (bracket_while rest inDepth depth = inDepth
        /\ head rest = Some tok_LBRACK).
Proof.
  induction k as [|k IH]; intros rest Hlen inDepth depth; [lia|].
  destruct rest as [|tok rest].
  { left. exists [], []. split; [done|]. split; [constructor|].
    split; [done|]. simpl; lia. }
  destruct (decide (tok = tok_LBRACK)) as [->|Hne].
  - rewrite bracket_while_open.
    destruct (scan_close _ _ rest (S depth) 1) as [[p r']|] eqn:Hs;
      [|by right].
    apply scan_close_inv1 in Hs; try done.
    destruct Hs as (b & Hb & -> & ->).
    simpl in Hlen. rewrite length_app in Hlen. simpl in Hlen.
    destruct (IH r' ltac:(lia) inDepth (S depth + length b + 1)%nat)
      as [(gs & r & -> & Hgs & Hr & Heq)|[Heq _]].
    + left. exists ((tok_LBRACK :: b ++ [tok_RBRACK]) ++ gs), r.
      split; [by simpl; rewrite <- !app_assoc|].
      split; [constructor; [by exists b|done]|].
      split; [done|]. rewrite Heq.
      rewrite ?length_app; simpl; rewrite ?length_app; simpl; lia.
    + by right.
  - left. exists [], (tok :: rest). split; [done|]. split; [constructor|].
    split; [done|].
    rewrite bracket_while_cons. case_decide; [done|simpl; lia].
Qed.

Lemma tokenPipeScanBracket_groups toks d gs r :
  drop d toks = gs ++ r -> bracketGroups gs ->
  default tok_EOF (head r) <> tok_LBRACK ->
  tokenPipeScanBracket toks d = (d + length gs)%nat.
Proof.
  intros Hd Hgs Hr. unfold tokenPipeScanBracket.
  rewrite Hd. by apply bracket_while_groups.
Qed.

Lemma tokenPipeScanBracket_inv toks d :
  (exists gs r, drop d toks = gs ++ r /\ bracketGroups gs
                /\ default tok_EOF (head r) <> tok_LBRACK
                /\ tokenPipeScanBracket toks d = (d + length gs)%nat)
  \/ (tokenPipeScanBracket toks d = d /\ tokenPeekp toks d = tok_LBRACK).
Proof.
  unfold tokenPipeScanBracket.
  destruct (bracket_while_inv_len (S (length (drop d toks))) (drop d toks)
              ltac:(lia) d d) as [H|[H1 H2]]; [by left|right].
  split; [done|]. rewrite tokenPeekp_drop.
  by destruct (drop d toks); simplify_eq/=.
Qed.

Lemma tokenPeekp_inv toks d t :
  tokenPeekp toks d = t -> t <> tok_EOF -> exists r, drop d toks = t :: r.
Proof.
  rewrite tokenPeekp_drop. destruct (drop d toks) as [|t' r]; simpl.
  - by intros <-.
  - intros ->. by exists r.
Qed.

(** [tokenPipeScanParam] on a stream that starts with a parameter group: the
    position past it. *)
Lemma tokenPipeScanParam_group toks d forCell p r :
  drop d toks = p ++ r -> paramGroup forCell p ->
  tokenPipeScanParam toks d forCell = (d + length p)%nat.
Proof.
  intros Hd [(g & (b & Hb & ->) & ->)|(-> & t & Ht & ->)];
    unfold tokenPipeScanParam.
  - simpl in Hd.
    rewrite (tokenPeekp_cons _ _ _ _ Hd). case_decide; [done|].
    apply drop_cons_eq in Hd.
    rewrite (tokenPeekp_cons _ _ _ _ Hd). case_decide; [done|].
    apply drop_cons_eq in Hd. rewrite Hd, param_loop_scan.
    rewrite <- app_assoc. simpl. rewrite scan_close_group by done.
    simpl. rewrite length_app. simpl. lia.
  - simpl in Hd.
    rewrite (tokenPeekp_cons _ _ _ _ Hd). case_decide; [done|].
    apply drop_cons_eq in Hd.
    rewrite (tokenPeekp_cons _ _ _ _ Hd).
    case_decide; [|by destruct Ht as [?|[?|[?|?]]]; simplify_eq].
    simpl. case_decide; [lia|done].
Qed.

(** Conversely, [tokenPipeScanParam] returns the input position or the
    position past a parameter group. *)
Lemma tokenPipeScanParam_inv toks d forCell :
  tokenPipeScanParam toks d forCell = d
  \/ exists p r, drop d toks = p ++ r /\ paramGroup forCell p
                 /\ tokenPipeScanParam toks d forCell = (d + length p)%nat.
Proof.
  unfold tokenPipeScanParam.
  destruct (decide (tokenPeekp toks d <> tok_HASH)) as [|H0]; [by left|].
  apply dec_stable in H0. apply tokenPeekp_inv in H0 as [r0 H0]; [|done].
  destruct (decide (tokenPeekp toks (S d) <> tok_LPAREN)) as [H1|H1].
  - destruct forCell; simpl; [|by left].
    case_decide as Hlit; [|by left].
    right. pose proof (drop_cons_eq _ _ _ _ H0) as H0'.
    destruct (tokenPeekp_inv toks (S d) _ eq_refl) as [r1 Hr1].
    { destruct Hlit as [Hl | [Hl | [Hl | Hl]]]; by rewrite Hl. }
    exists [tok_HASH; tokenPeekp toks (S d)], r1.
    split; [by rewrite H0, <- H0', Hr1|].
    split; [|simpl; lia]. right. split; [done|]. by eexists.
  - apply dec_stable in H1. apply tokenPeekp_inv in H1 as [r1 H1]; [|done].
    pose proof (drop_cons_eq _ _ _ _ H0) as H0'.
    rewrite (drop_cons_eq _ _ _ _ H1), param_loop_scan.
    destruct (scan_close _ _ r1 (S (S d)) 1) as [[q r']|] eqn:Hs;
      [|by left].
    apply scan_close_inv1 in Hs as (b & Hb & -> & ->); try done.
    right. exists (tok_HASH :: tok_LPAREN :: b ++ [tok_RPAREN]), r'.
    split; [by rewrite H0, <- H0', H1; simpl; rewrite <- app_assoc|].
    split; [left; eexists; split; [by exists b|done]|].
    simpl. rewrite length_app. simpl. lia.
Qed.

(** On a parenthesis group that the end of input leaves open,
    [tokenPipeScanParam] returns the input position. *)
Lemma tokenPipeScanParam_unclosed toks d forCell r :
  drop d toks = tok_HASH :: tok_LPAREN :: r ->
  scan_close tok_LPAREN tok_RPAREN r (S (S d)) 1 = None ->
  tokenPipeScanParam toks d forCell = d.
Proof.
  intros Hd Hs. unfold tokenPipeScanParam.
  rewrite (tokenPeekp_cons _ _ _ _ Hd). case_decide; [done|].
  apply drop_cons_eq in Hd.
  rewrite (tokenPeekp_cons _ _ _ _ Hd). case_decide; [done|].
  apply drop_cons_eq in Hd. by rewrite Hd, param_loop_scan, Hs.
Qed.

(** [tokenPipeScanIdCell] moves exactly on the cell-instantiation shape. *)
Lemma tokenPipeScanIdCell_shape toks d :
  tokenPipeScanIdCell toks d <> d <-> cellShape (drop d toks).
Proof.
  unfold tokenPipeScanIdCell. split.
  - intros Hne.
    destruct (decide (tokenPeekp toks (tokenPipeScanParam toks d true)
                      <> yaID__LEX)) as [|Hid]; [done|].
    apply dec_stable in Hid. apply tokenPeekp_inv in Hid as [r1 Hid]; [|done].
    destruct (decide (tokenPeekp toks _ <> tok_LPAREN)) as [|Hpar]; [done|].
    apply dec_stable in Hpar.
    destruct (tokenPipeScanBracket_inv toks
                (S (tokenPipeScanParam toks d true)))
      as [(gs & r & Hgs & Hbg & _ & Heq)|[Heq Hbr]];
      [|by rewrite Heq, Hbr in Hpar].
    rewrite Heq in Hpar. apply tokenPeekp_inv in Hpar as [rest Hpar]; [|done].
    rewrite (drop_app_eq _ _ _ _ Hgs) in Hpar. subst r.
    rewrite (drop_cons_eq _ _ _ _ Hid) in Hgs. subst r1.
    destruct (tokenPipeScanParam_inv toks d true)
      as [Hp|(p & r & Hd & Hp & Hlen)].
    + exists [], gs, rest. rewrite Hp in Hid.
      split; [by left|]. by split.
    + exists p, gs, rest. split; [by right|]. split; [done|].
      rewrite Hlen in Hid. rewrite (drop_app_eq _ _ _ _ Hd) in Hid.
      by rewrite Hd, Hid.
  - intros (p & brs & rest & Hp & Hbrs & Hd).
    assert (tokenPipeScanParam toks d true = (d + length p)%nat) as ->.
    { destruct Hp as [->|Hp]; [|by eapply tokenPipeScanParam_group].
      simpl in *. unfold tokenPipeScanParam.
      rewrite (tokenPeekp_cons _ _ _ _ Hd). case_decide; [lia|done]. }
    apply drop_app_eq in Hd.
    rewrite (tokenPeekp_cons _ _ _ _ Hd). case_decide; [done|].
    apply drop_cons_eq in Hd.
    rewrite (tokenPipeScanBracket_groups _ _ _ _ Hd Hbrs) by done.
    apply drop_app_eq in Hd.
    rewrite (tokenPeekp_cons _ _ _ _ Hd). case_decide; [done|lia].
Qed.

(** [tokenPipeScanTypeEq]: where it stops. *)
Lemma tokenPipeScanTypeEq_miss toks d :
  tokenPeekp toks d <> tok_LPAREN -> tokenPipeScanTypeEq toks d = d.
Proof. intros H. unfold tokenPipeScanTypeEq. by case_decide. Qed.

Lemma tokenPipeScanTypeEq_group toks d g r :
  drop d toks = g ++ r -> parenGroup g ->
  tokenPipeScanTypeEq toks d = (d + length g)%nat.
Proof.
  intros Hd (b & Hb & ->). unfold tokenPipeScanTypeEq. simpl in Hd.
  rewrite (tokenPeekp_cons _ _ _ _ Hd). case_decide; [done|].
  apply drop_cons_eq in Hd. cbv zeta.
  rewrite Nat.add_1_r, Hd, typeEq_loop_scan.
  rewrite <- app_assoc. simpl. rewrite scan_close_group by done.
  simpl. rewrite length_app. simpl. lia.
Qed.

(** On [(] the scan ends past a parenthesis group or, when the group is not
    closed, on the end-of-input token, beyond the input position. *)
Lemma tokenPipeScanTypeEq_inv toks d :
  tokenPeekp toks d = tok_LPAREN ->
  (exists g r, drop d toks = g ++ r /\ parenGroup g
               /\ tokenPipeScanTypeEq toks d = (d + length g)%nat)
  \/ ((d < tokenPipeScanTypeEq toks d)%nat
      /\ tokenPeekp toks (tokenPipeScanTypeEq toks d) = tok_EOF).
Proof.
  intros H0. unfold tokenPipeScanTypeEq. case_decide; [done|].
  apply tokenPeekp_inv in H0 as [r0 H0]; [|done]. cbv zeta.
  rewrite Nat.add_1_r, (drop_cons_eq _ _ _ _ H0), typeEq_loop_scan.
  destruct (scan_close _ _ r0 (S d) 1) as [[q r']|] eqn:Hs.
  - left. apply scan_close_inv1 in Hs as (b & Hb & -> & ->); try done.
    exists (tok_LPAREN :: b ++ [tok_RPAREN]), r'.
    split; [by rewrite H0; simpl; rewrite <- app_assoc|].
    split; [by exists b|]. simpl. rewrite length_app. simpl. lia.
  - right. split; [lia|].
    apply scan_close_None in Hs.
    rewrite tokenPeekp_drop, <- drop_drop.
    by rewrite (drop_cons_eq _ _ _ _ H0).
Qed.

(** ** Reclassification by [tokenPipeline] *)

Lemma tokenPipelineId_cell lastBison ahead :
  lastBison <> tok_AT -> lastBison <> tok_HASH -> lastBison <> tok_DOT ->
  tokenPipelineId lastBison ahead yaID__LEX = yaID__aCELL <-> cellShape ahead.
Proof.
  intros H1 H2 H3. unfold tokenPipelineId.
  change (cellShape ahead) with (cellShape (drop 0 ahead)).
  rewrite <- tokenPipeScanIdCell_shape.
  split.
  - case_decide; [done|].
    destruct (bool_decide (lastBison <> _ /\ _ /\ _) && _) eqn:Hc.
    + intros _. destruct (andb_prop _ _ Hc) as [_ Hc'].
      apply negb_true_iff in Hc'. by apply bool_decide_eq_false in Hc'.
    + clear Hc. destruct (_ && _); intros; discriminate.
  - intros Hne.
    assert (cellShape (drop 0 ahead)) as (p & brs & rest & Hp & _ & Ha)
      by by apply tokenPipeScanIdCell_shape.
    rewrite drop_0 in Ha.
    case_decide as Hcc.
    { rewrite Ha in Hcc.
      destruct Hp as [->|[(g & _ & ->)|(_ & t & _ & ->)]]; done. }
    rewrite bool_decide_eq_true_2 by done.
    by rewrite bool_decide_eq_false_2 by done.
Qed.

Lemma tokenPipeline_front pedantic lastBison yylval rest :
  snd (tokenPipeline pedantic lastBison (yylval :: rest)) = rest.
Proof. reflexivity. Qed.

Lemma tokenPipeline_id pedantic lastBison s n rest :
  fst (tokenPipeline pedantic lastBison (mkYYS yaID__LEX s n :: rest))
  = mkYYS (tokenPipelineId lastBison (token <$> rest) yaID__LEX) s n.
Proof. reflexivity. Qed.

Lemma tokenPipeline_type pedantic lastBison s n rest :
  fst (tokenPipeline pedantic lastBison (mkYYS yTYPE__LEX s n :: rest))
  = let ahead := token <$> rest in
    if decide (equalityOp (tokenPeekp ahead (tokenPipeScanTypeEq ahead 0)))
    then mkYYS yTYPE__EQ s n else mkYYS yTYPE__ETC s n.
Proof.
  unfold tokenPipeline, equalityOp. simpl.
  by repeat case_decide.
Qed.

Lemma equalityOp_not_EOF t : equalityOp t -> t <> tok_EOF.
Proof. by intros [-> | [-> | [-> | ->]]]. Qed.

Lemma equalityOp_not_LPAREN t : equalityOp t -> t <> tok_LPAREN.
Proof. by intros [-> | [-> | [-> | ->]]]. Qed.

(** What [tokenPipeline] makes of [type]: type-as-expression when a
    parenthesis group and an equality operator follow, and also when the
    equality operator follows at once; type-as-typespec otherwise. *)
Lemma tokenPipeline_type_spec pedantic lastBison s n rest :
  token (fst (tokenPipeline pedantic lastBison
                (mkYYS yTYPE__LEX s n :: rest))) = yTYPE__EQ
  <-> typeEqShape (token <$> rest)
      \/ equalityOp (tokenPeekp (token <$> rest) 0).
Proof.
  rewrite tokenPipeline_type. cbv zeta.
  set (ahead := token <$> rest). split.
  - case_decide as Hop; [intros _|done].
    destruct (decide (tokenPeekp ahead 0 = tok_LPAREN)) as [Hp|Hp].
    + left. destruct (tokenPipeScanTypeEq_inv ahead 0 Hp)
        as [(g & r & Hd & Hg & Heq)|[_ Heof]].
      * rewrite Nat.add_0_l in Heq. rewrite Heq in Hop. rewrite drop_0 in Hd.
        destruct (tokenPeekp_inv ahead (length g) _ eq_refl)
          as [rest' Hr]; [by apply equalityOp_not_EOF|].
        assert (drop (length g) ahead = r) as Hdr
          by (rewrite Hd; apply drop_app_length).
        rewrite Hdr in Hr.
        exists g, (tokenPeekp ahead (length g)), rest'.
        split; [done|]. split; [done|]. by rewrite <- Hr.
      * rewrite Heof in Hop. by apply equalityOp_not_EOF in Hop.
    + right. by rewrite tokenPipeScanTypeEq_miss in Hop.
  - intros [(g & op & rest' & Hg & Hop & Ha)|Hop].
    + rewrite (tokenPipeScanTypeEq_group ahead 0 g (op :: rest')) by done.
      rewrite Nat.add_0_l.
      rewrite (tokenPeekp_cons ahead (length g) op rest')
        by (by rewrite Ha, drop_app_length).
      by case_decide.
    + rewrite tokenPipeScanTypeEq_miss by by apply equalityOp_not_LPAREN.
      by case_decide.
Qed.

Lemma tokenPipeline_type_cases pedantic lastBison s n rest :
  let tok := token (fst (tokenPipeline pedantic lastBison
                           (mkYYS yTYPE__LEX s n :: rest))) in
  tok = yTYPE__EQ \/ tok = yTYPE__ETC.
Proof. rewrite tokenPipeline_type. cbv zeta. case_decide; auto. Qed.

(** The examples of the specification. *)
Example BracketScan_two_groups :
  tokenPipeScanBracket
    [tok_LBRACK; yaID__LEX; tok_RBRACK; tok_LBRACK; yaID__LEX; tok_RBRACK;
     tok_LPAREN] 0 = 6%nat.
Proof. reflexivity. Qed.

Example BracketScan_unclosed :
  tokenPipeScanBracket [tok_LBRACK; yaID__LEX; tok_LPAREN] 0 = 0%nat.
Proof. reflexivity. Qed.

Example foo_bar_paren :
  tokenPipelineId tok_EOF [yaID__LEX; tok_LPAREN] yaID__LEX = yaID__aCELL.
Proof. reflexivity. Qed.

Example foo_bar_semicolon :
  tokenPipelineId tok_EOF [yaID__LEX; tok_other 59] yaID__LEX = yaID__LEX.
Proof. reflexivity. Qed.

Example type_T_eq_type_U :
  token (fst (tokenPipeline false tok_EOF
    [mkYYS yTYPE__LEX "" None; mkYYS tok_LPAREN "" None;
     mkYYS yaID__LEX "T" None; mkYYS tok_RPAREN "" None;
     mkYYS yP_EQUAL "" None; mkYYS yTYPE__LEX "" None;
     mkYYS tok_LPAREN "" None; mkYYS yaID__LEX "U" None;
     mkYYS tok_RPAREN "" None])) = yTYPE__EQ.
Proof. reflexivity. Qed.

Example type_T_x :
  token (fst (tokenPipeline false tok_EOF
    [mkYYS yTYPE__LEX "" None; mkYYS tok_LPAREN "" None;
     mkYYS yaID__LEX "T" None; mkYYS tok_RPAREN "" None;
     mkYYS yaID__LEX "x" None])) = yTYPE__ETC.
Proof. reflexivity. Qed.

(** ** Claims on the scanners and on [tokenPipeline] *)

(** C1 (fails on the code).  The claim: every structural scanner returns the
    original input position when it meets the end of input inside an
    unclosed structure.  [tokenPipeScanBracket] and [tokenPipeScanParam] do;
    [tokenPipeScanTypeEq] leaves its loop by [break] and returns the
    position of the end-of-input token: on [( T] from position 0 it answers
    2. *)
Theorem tokenPipeScanTypeEq_unclosed :
  tokenPipeScanTypeEq [tok_LPAREN; yaID__LEX] 0 = 2%nat
  /\ tokenPipeScanParam [tok_HASH; tok_LPAREN; yaID__LEX] 0 true = 0%nat
  /\ tokenPipeScanBracket [tok_LBRACK; yaID__LEX; tok_LPAREN] 0 = 0%nat.
Proof. repeat split; reflexivity. Qed.

(** C4.  For a plain identifier whose preceding finalized token is none of
    [@], [#], [.], the token becomes identifier-as-cell exactly when the
    tokens that follow have the cell-instantiation shape: an optional
    parameter group, an identifier, zero or more balanced bracket groups
    and a [(]. *)
Theorem tokenPipeline_identifier_cell pedantic lastBison s n rest :
  lastBison <> tok_AT -> lastBison <> tok_HASH -> lastBison <> tok_DOT ->
  token (fst (tokenPipeline pedantic lastBison
                (mkYYS yaID__LEX s n :: rest))) = yaID__aCELL
  <-> cellShape (token <$> rest).
Proof.
  intros H1 H2 H3. rewrite tokenPipeline_id. simpl.
  by apply tokenPipelineId_cell.
Qed.

Lemma tokenPipeline_identifier_cell_witness :
  tok_other 59 <> tok_AT /\ tok_other 59 <> tok_HASH
  /\ tok_other 59 <> tok_DOT
  /\ (token (fst (tokenPipeline false (tok_other 59)
                    [mkYYS yaID__LEX "foo" None; mkYYS yaID__LEX "bar" None;
                     mkYYS tok_LPAREN "" None])) = yaID__aCELL
      <-> cellShape (token <$> [mkYYS yaID__LEX "bar" None;
                                mkYYS tok_LPAREN "" None])).
Proof.
  split; [discriminate|]. split; [discriminate|]. split; [discriminate|].
  apply (tokenPipeline_identifier_cell false (tok_other 59) "foo" None
           [mkYYS yaID__LEX "bar" None; mkYYS tok_LPAREN "" None]);
    discriminate.
Defined.

(** C7.  A raw [global]: global-clocking when [clocking] follows; otherwise
    global-other in pedantic mode; otherwise a plain identifier whose string
    is "global". *)
Theorem tokenPipeline_global pedantic lastBison s n rest :
  fst (tokenPipeline pedantic lastBison (mkYYS yGLOBAL__LEX s n :: rest))
  = if decide (tokenPeekp (token <$> rest) 0 = yCLOCKING)
    then mkYYS yGLOBAL__CLOCKING s n
    else if pedantic then mkYYS yGLOBAL__ETC s n
    else mkYYS yaID__LEX "global" n.
Proof.
  unfold tokenPipeline. simpl. by repeat case_decide.
Qed.

(** C8 (fails on the code).  The claim: [type] becomes type-as-expression
    exactly when a balanced parenthesis group and then an equality operator
    follow.  When the equality operator follows [type] at once the scan
    misses, returns the input position, and the operator found there makes
    the token type-as-expression without any group: [type == 1]. *)
Theorem tokenPipeline_type_before_operator :
  token (fst (tokenPipeline false tok_EOF
    [mkYYS yTYPE__LEX "" None; mkYYS yP_EQUAL "" None;
     mkYYS yaINTNUM "1" None])) = yTYPE__EQ
  /\ ~ typeEqShape [yP_EQUAL; yaINTNUM].
Proof.
  split; [reflexivity|].
  intros (g & op & rest & (b & _ & ->) & _ & H). discriminate.
Qed.

(** ** The symbol-table pass *)

Lemma count_import_app evs1 evs2 :
  count_import (evs1 ++ evs2) = (count_import evs1 + count_import evs2)%nat.
Proof.
  induction evs1 as [|e evs1 IH]; [done|]. destruct e; simpl; lia.
Qed.

Lemma count_warn_app evs1 evs2 :
  count_warn (evs1 ++ evs2) = (count_warn evs1 + count_warn evs2)%nat.
Proof.
  induction evs1 as [|e evs1 IH]; [done|]. destruct e; simpl; lia.
Qed.


(** Case analysis of one call of [tokenPipelineSym]: on the token class, on
    the pending root, on the answers of the lookups, on the flags and on
    the tests of the final classification. *)
Ltac sym_absurd :=
  try match goal with
  | H : ?x <> ?x |- _ => by destruct H
  | H : Some _ = None |- _ => discriminate H
  | H : None = Some _ |- _ => discriminate H
  | H : true = false |- _ => discriminate H
  | H : false = true |- _ => discriminate H
  end.

Ltac sym_split :=
  unfold tokenPipelineSym, sym_not_found, resolves_via_std, std_lookup,
    ordinary_lookup, pipeline_yylval, sym_lookup, sym_std in *;
  let y := fresh "y" in let ahead := fresh "ahead" in
  destruct (tokenPipeline _ _ _) as [y ahead]; cbn [fst snd] in *;
  repeat (match goal with
  | |- context [bool_decide (?o = None)] =>
      lazymatch o with
      | None => fail | Some _ => fail
      | _ => let Ho := fresh "Ho" in destruct o eqn:Ho
      end
  | |- context [bool_decide (?o <> None)] =>
      lazymatch o with
      | None => fail | Some _ => fail
      | _ => let Ho := fresh "Ho" in destruct o eqn:Ho
      end
  | |- context [match ?o with Some _ => _ | None => _ end] =>
      let Ho := fresh "Ho" in destruct o eqn:Ho
  | |- context [if decide _ then _ else _] => case_decide
  | |- context [bool_decide _] => case_bool_decide
  | |- context [negb ?b] =>
      let Hb := fresh "Hb" in destruct b eqn:Hb
  end; cbn [fst snd negb andb mbind option_bind] in *; sym_absurd).

Ltac sym_leaf :=
  repeat match goal with
  | H : is_Some _ |- _ => destruct H as [? H]
  end;
  try discriminate; try congruence; try lia; try (by eexists); eauto.

Ltac sym_done :=
  cbn [count_import count_warn app token scp strp set_token set_scp
       usesStdPackage warned m_afterColonColon nextId In] in *;
  try done; try lia; try congruence;
  try (intuition sym_leaf).

Lemma tokenToBison_events env s :
  (tokenToBison env s).2 = (tokenPipelineSym env s).2.
Proof.
  unfold tokenToBison. by destruct (tokenPipelineSym env s) as [[? ?] ?].
Qed.

Lemma tokenToBison_yylval env s :
  (tokenToBison env s).1.2 = (tokenPipelineSym env s).1.2.
Proof.
  unfold tokenToBison. by destruct (tokenPipelineSym env s) as [[? ?] ?].
Qed.

Lemma tokenToBison_uses env s :
  usesStdPackage (tokenToBison env s).1.1
  = usesStdPackage (tokenPipelineSym env s).1.1.
Proof.
  unfold tokenToBison. by destruct (tokenPipelineSym env s) as [[? ?] ?].
Qed.

Lemma tokenToBison_warned env s :
  warned (tokenToBison env s).1.1 = warned (tokenPipelineSym env s).1.1.
Proof.
  unfold tokenToBison. by destruct (tokenPipelineSym env s) as [[? ?] ?].
Qed.

(** The implicit import of one call. *)
Lemma tokenPipelineSym_import env s :
  (count_import (tokenPipelineSym env s).2 <= 1)%nat
  /\ (count_import (tokenPipelineSym env s).2 = 1%nat
      <-> resolves_via_std env s /\ usesStdPackage s = false)
  /\ (usesStdPackage s = true ->
      usesStdPackage (tokenPipelineSym env s).1.1 = true)
  /\ (resolves_via_std env s ->
      usesStdPackage (tokenPipelineSym env s).1.1 = true)
  /\ (token (pipeline_yylval env s) = yaID__CC ->
      is_Some (ordinary_lookup env s) ->
      m_afterColonColon s = false ->
      strp (pipeline_yylval env s) = "std" ->
      usesStdPackage (tokenPipelineSym env s).1.1 = true
      /\ count_import (tokenPipelineSym env s).2 = 0%nat).
Proof. sym_split; repeat split; intros; sym_done. Qed.

(** The diagnostic of one call and the outcome for an identifier that no
    lookup finds. *)
Lemma tokenPipelineSym_warn env s :
  (count_warn (tokenPipelineSym env s).2 <= 1)%nat
  /\ (count_warn (tokenPipelineSym env s).2 = 1%nat
      <-> token (pipeline_yylval env s) = yaID__CC /\ sym_not_found env s
          /\ bboxUnsup env = false /\ warned s = 0)
  /\ (warned (tokenPipelineSym env s).1.1 = warned s
      \/ warned (tokenPipelineSym env s).1.1 = warned s + 1)
  /\ (count_warn (tokenPipelineSym env s).2 = 1%nat ->
      warned (tokenPipelineSym env s).1.1 = warned s + 1).
Proof. sym_split; repeat split; intros; sym_done. Qed.

Lemma tokenPipelineSym_not_found env s :
  sym_not_found env s ->
  (token (pipeline_yylval env s) = yaID__CC ->
   token (tokenPipelineSym env s).1.2 = yaID__CC
   /\ scp (tokenPipelineSym env s).1.2 = None)
  /\ (token (pipeline_yylval env s) = yaID__LEX ->
      token (tokenPipelineSym env s).1.2 = yaID__ETC
      /\ scp (tokenPipelineSym env s).1.2 = None
      /\ count_warn (tokenPipelineSym env s).2 = 0%nat).
Proof. sym_split; repeat split; intros; sym_done. Qed.

Lemma grammar_action_uses c s :
  usesStdPackage (grammar_action c s) = usesStdPackage s.
Proof. unfold grammar_action. by destruct (call_nextId c). Qed.

Lemma grammar_action_warned c s :
  warned (grammar_action c s) = warned s.
Proof. unfold grammar_action. by destruct (call_nextId c). Qed.

Lemma run_cons c calls s :
  run (c :: calls) s
  = let r1 := tokenToBison (call_env c) (grammar_action c s) in
    let r2 := run calls r1.1.1 in
    (r2.1.1, r1.1.2 :: r2.1.2, r1.2 ++ r2.2).
Proof.
  simpl. destruct (tokenToBison _ _) as [[s1 y] ev]. simpl.
  by destruct (run calls s1) as [[s2 out] evs].
Qed.

(** Over a run the import is spliced at most once, and never once the
    standard package counts as used. *)
Lemma run_import calls :
  forall s,
    (count_import (run calls s).2 <= 1)%nat
    /\ (usesStdPackage s = true -> count_import (run calls s).2 = 0%nat).
Proof.
  induction calls as [|c calls IH]; intros s; [simpl; split; [lia|done]|].
  rewrite run_cons. cbn [fst snd]. rewrite count_import_app.
  set (s0 := grammar_action c s).
  destruct (tokenPipelineSym_import (call_env c) s0)
    as (Hle & Hiff & Hk & _ & _).
  destruct (IH (tokenToBison (call_env c) s0).1.1) as [IH1 IH2].
  rewrite tokenToBison_uses in IH2. rewrite tokenToBison_events.
  assert (usesStdPackage s0 = usesStdPackage s) as Hs0
    by apply grammar_action_uses.
  destruct (usesStdPackage s0) eqn:Hu.
  - specialize (Hk eq_refl). specialize (IH2 Hk).
    assert (count_import (tokenPipelineSym (call_env c) s0).2 <> 1%nat)
      by (intros H1; apply Hiff in H1 as [_ ?]; done).
    split; [lia|intros _; lia].
  - split; [|by rewrite <- Hs0].
    destruct (decide (count_import (tokenPipelineSym (call_env c) s0).2
                      = 1%nat)) as [H1|H1]; [|lia].
    apply Hiff in H1 as H2. destruct H2 as [Hres _].
    destruct (tokenPipelineSym_import (call_env c) s0)
      as (_ & _ & _ & Hset & _).
    rewrite (IH2 (Hset Hres)). lia.
Qed.

(** Over a run the diagnostic is emitted at most once, and never once the
    counter has left zero. *)
Lemma run_warn calls :
  forall s, 0 <= warned s ->
    (count_warn (run calls s).2 <= 1)%nat
    /\ (0 < warned s -> count_warn (run calls s).2 = 0%nat).
Proof.
  induction calls as [|c calls IH]; intros s Hs; [simpl; split; [lia|done]|].
  rewrite run_cons. cbn [fst snd]. rewrite count_warn_app.
  set (s0 := grammar_action c s).
  assert (warned s0 = warned s) as Hs0 by apply grammar_action_warned.
  destruct (tokenPipelineSym_warn (call_env c) s0) as (Hle & Hiff & Hw & H1).
  rewrite tokenToBison_events.
  destruct (IH (tokenToBison (call_env c) s0).1.1) as [IH1 IH2].
  { rewrite tokenToBison_warned. lia. }
  rewrite tokenToBison_warned in IH2.
  destruct (decide (count_warn (tokenPipelineSym (call_env c) s0).2
                    = 1%nat)) as [Hc|Hc].
  - apply Hiff in Hc as Hc'. destruct Hc' as (_ & _ & _ & Hz).
    specialize (H1 Hc). rewrite IH2 by lia. split; lia.
  - split; [lia|]. intros Hpos. rewrite IH2 by lia. lia.
Qed.

(** ** Claims on the symbol-table pass *)

(** C2 (as amended).  The lookup in the standard package is made exactly when
    the token is an identifier (plain or colon-colon-qualified), the ordinary
    lookup found nothing, the previous finalized token was not [::] and a
    standard package exists.  The kind of the identifier plays no part. *)
Theorem std_fallback_gate env s :
  (exists name, In (EvStdFindIdFallback name) (tokenPipelineSym env s).2)
  <-> (token (pipeline_yylval env s) = yaID__LEX
       \/ token (pipeline_yylval env s) = yaID__CC)
      /\ ordinary_lookup env s = None
      /\ m_afterColonColon s = false
      /\ is_Some (stdPackagep env).
Proof.
  sym_split;
    (split; [intros [name Hin]
            |intros (H1' & H2' & H3' & [sc' H4']); exists (strp y)]);
    sym_done.
Qed.

(** C2 as stated fails: in [process :: self] the identifier [process] is
    colon-colon-qualified, the current scope does not know it, and the
    standard package is asked. *)
Lemma std_fallback_colon_colon_identifier :
  let s := V3ParseImp_init [mkYYS yaID__LEX "process" None;
                            mkYYS yP_COLONCOLON "" None;
                            mkYYS yaID__LEX "self" None] in
  token (pipeline_yylval empty_env s) = yaID__CC
  /\ ordinary_lookup empty_env s = None
  /\ (tokenPipelineSym empty_env s).2
     = [EvFindIdFallback "process"; EvStdFindIdFallback "process";
        EvImportStd].
Proof. vm_compute. done. Qed.

(** C3 (as amended).  Over any run the implicit import is spliced at most
    once, and not at all once the standard package counts as used.  A call
    splices exactly when its identifier resolves only through the
    standard-package fallback while the package does not yet count as used;
    after such an identifier the package counts as used.  It also counts as
    used, without a splice, after a colon-colon-qualified [std] that the
    ordinary lookup finds outside a qualification. *)
Theorem std_import_once calls env s :
  (count_import (run calls s).2 <= 1)%nat
  /\ (usesStdPackage s = true -> count_import (run calls s).2 = 0%nat)
  /\ (count_import (tokenToBison env s).2 = 1%nat
      <-> resolves_via_std env s /\ usesStdPackage s = false)
  /\ (resolves_via_std env s ->
      usesStdPackage (tokenToBison env s).1.1 = true)
  /\ (token (pipeline_yylval env s) = yaID__CC ->
      is_Some (ordinary_lookup env s) ->
      m_afterColonColon s = false ->
      strp (pipeline_yylval env s) = "std" ->
      usesStdPackage (tokenToBison env s).1.1 = true
      /\ count_import (tokenToBison env s).2 = 0%nat).
Proof.
  destruct (run_import calls s) as [H1 H2].
  destruct (tokenPipelineSym_import env s) as (_ & H3 & _ & H4 & H5).
  rewrite tokenToBison_events, tokenToBison_uses. done.
Qed.

Lemma std_import_once_witness :
  let s := V3ParseImp_init [mkYYS yaID__LEX "semaphore" None;
                            mkYYS yaID__LEX "s" None] in
  resolves_via_std empty_env s
  /\ usesStdPackage (tokenToBison empty_env s).1.1 = true.
Proof.
  assert (resolves_via_std empty_env
            (V3ParseImp_init [mkYYS yaID__LEX "semaphore" None;
                              mkYYS yaID__LEX "s" None])) as H.
  { vm_compute. repeat split; eauto. }
  split; [exact H|].
  exact (proj1 (proj2 (proj2 (proj2
           (std_import_once [] empty_env
              (V3ParseImp_init [mkYYS yaID__LEX "semaphore" None;
                                mkYYS yaID__LEX "s" None]))))) H).
Defined.

(** C3 as stated fails: in [std :: process p ; semaphore s ;] the package
    counts as used from the qualified [std] on, so [semaphore], the first
    identifier that resolves only through the fallback, splices nothing:
    the run has no import at all. *)
Lemma std_fallback_without_import :
  let toks := [mkYYS yaID__LEX "std" None; mkYYS yP_COLONCOLON "" None;
               mkYYS yaID__LEX "process" None; mkYYS yaID__LEX "p" None;
               mkYYS (tok_other 59) "" None;
               mkYYS yaID__LEX "semaphore" None; mkYYS yaID__LEX "s" None;
               mkYYS (tok_other 59) "" None] in
  let c := mkCall unit_env None in
  let c_std := mkCall unit_env (Some (Some std_scope)) in
  let s5 := (run [c; c; c_std; c; c] (V3ParseImp_init toks)).1.1 in
  usesStdPackage (V3ParseImp_init toks) = false
  /\ resolves_via_std unit_env s5
  /\ count_import (run [c; c; c_std; c; c; c] (V3ParseImp_init toks)).2
     = 0%nat.
Proof. vm_compute. repeat split; eauto. Qed.

(** C5.  A colon-colon-qualified identifier that no lookup finds keeps its
    kind; the diagnostic is emitted for it when the black-box mode is off
    and the counter is still zero, hence never in black-box mode and at most
    once over a whole run.  A plain identifier that no lookup finds becomes
    identifier-plain, without diagnostic. *)
Theorem unresolved_identifier env s toks calls :
  (token (pipeline_yylval env s) = yaID__CC -> sym_not_found env s ->
   token (tokenToBison env s).1.2 = yaID__CC
   /\ (count_warn (tokenToBison env s).2 <= 1)%nat
   /\ (bboxUnsup env = true -> count_warn (tokenToBison env s).2 = 0%nat))
  /\ (token (pipeline_yylval env s) = yaID__LEX -> sym_not_found env s ->
      token (tokenToBison env s).1.2 = yaID__ETC
      /\ count_warn (tokenToBison env s).2 = 0%nat)
  /\ (count_warn (run calls (V3ParseImp_init toks)).2 <= 1)%nat.
Proof.
  rewrite tokenToBison_events, tokenToBison_yylval.
  destruct (tokenPipelineSym_warn env s) as (Hle & Hiff & _ & _).
  split; [|split].
  - intros Hcc Hnf.
    destruct (tokenPipelineSym_not_found env s Hnf) as [H1 _].
    split; [by apply H1|]. split; [done|].
    intros Hbbox.
    destruct (decide (count_warn (tokenPipelineSym env s).2 = 1%nat))
      as [Hc|Hc]; [|lia].
    apply Hiff in Hc as (_ & _ & Hb & _). congruence.
  - intros Hlex Hnf.
    destruct (tokenPipelineSym_not_found env s Hnf) as [_ H2].
    by destruct (H2 Hlex) as (? & _ & ?).
  - by apply run_warn.
Qed.

Lemma unresolved_identifier_witness :
  let s := V3ParseImp_init [mkYYS yaID__LEX "pkg" None;
                            mkYYS yP_COLONCOLON "" None;
                            mkYYS yaID__LEX "x" None] in
  token (pipeline_yylval empty_env s) = yaID__CC
  /\ sym_not_found empty_env s
  /\ token (tokenToBison empty_env s).1.2 = yaID__CC
  /\ (count_warn (tokenToBison empty_env s).2 <= 1)%nat.
Proof.
  assert (token (pipeline_yylval empty_env
            (V3ParseImp_init [mkYYS yaID__LEX "pkg" None;
                              mkYYS yP_COLONCOLON "" None;
                              mkYYS yaID__LEX "x" None])) = yaID__CC) as H1
    by reflexivity.
  assert (sym_not_found empty_env
            (V3ParseImp_init [mkYYS yaID__LEX "pkg" None;
                              mkYYS yP_COLONCOLON "" None;
                              mkYYS yaID__LEX "x" None])) as H2
    by (split; [reflexivity|right; reflexivity]).
  split; [exact H1|]. split; [exact H2|].
  destruct (proj1 (unresolved_identifier empty_env
              (V3ParseImp_init [mkYYS yaID__LEX "pkg" None;
                                mkYYS yP_COLONCOLON "" None;
                                mkYYS yaID__LEX "x" None]) [] []) H1 H2)
    as (H3 & H4 & _).
  split; [exact H3|exact H4].
Defined.

(** ** Preprocessor output to the lexer *)

Lemma ppInputToLex_loop_full fuel max_size got buf ppBuffers :
  (max_size <= got)%nat ->
  ppInputToLex_loop fuel max_size got buf ppBuffers
  = Some (got, buf, ppBuffers).
Proof.
  intros H. destruct fuel, ppBuffers; simpl; try done;
    case_decide; done || lia.
Qed.

(** The loop ends within as many rounds as there are strings queued. *)
Lemma ppInputToLex_loop_total fuel :
  forall max_size got buf ppBuffers,
    (length ppBuffers <= fuel)%nat ->
    is_Some (ppInputToLex_loop fuel max_size got buf ppBuffers).
Proof.
  induction fuel as [|fuel IH]; intros max_size got buf ppBuffers Hlen.
  - destruct ppBuffers; [by eexists|simpl in Hlen; lia].
  - destruct ppBuffers as [|front rest]; [by eexists|].
    simpl in *. case_decide; [|by eexists].
    case_decide.
    + rewrite ppInputToLex_loop_full by lia. by eexists.
    + apply IH. lia.
Qed.

(** What one call delivers: never more than asked, as many bytes as it
    reports, and the bytes delivered followed by the strings left are the
    strings queued. *)
Lemma ppInputToLex_loop_spec fuel :
  forall max_size got buf ppBuffers got' buf' ppBuffers',
    ppInputToLex_loop fuel max_size got buf ppBuffers
    = Some (got', buf', ppBuffers') ->
    (got <= max_size)%nat -> length buf = got ->
    (got <= got' <= max_size)%nat /\ length buf' = got'
    /\ buf' ++ concat ppBuffers' = buf ++ concat ppBuffers
    /\ (Forall (fun b => b <> []) ppBuffers ->
        Forall (fun b => b <> []) ppBuffers'
        /\ ((got < max_size)%nat -> ppBuffers <> [] -> (got < got')%nat)).
Proof.
  induction fuel as [|fuel IH];
    intros max_size got buf ppBuffers got' buf' ppBuffers' Hloop Hgot Hbuf.
  - destruct ppBuffers as [|front rest]; simpl in Hloop.
    + simplify_eq. repeat split; try done; lia.
    + case_decide; [done|]. simplify_eq. repeat split; try done; lia.
  - destruct ppBuffers as [|front rest]; simpl in Hloop.
    { simplify_eq. repeat split; try done; lia. }
    case_decide as Hlt; [|simplify_eq; repeat split; try done; lia].
    case_decide as Hbig.
    + rewrite ppInputToLex_loop_full in Hloop by lia. simplify_eq.
      split; [lia|]. split.
      { rewrite length_app, length_take. lia. }
      split.
      { simpl. rewrite <- !app_assoc. f_equal.
        by rewrite (app_assoc (take _ _)), take_drop. }
      intros Hne. split; [|intros; lia].
      apply Forall_cons in Hne as [_ Hne]. apply Forall_cons. split; [|done].
      intros Hd. apply (f_equal length) in Hd.
      rewrite length_drop in Hd. simpl in Hd. lia.
    + apply IH in Hloop as (H1 & H2 & H3 & H4);
        [|lia|rewrite length_app; lia].
      split; [lia|]. split; [done|]. split.
      { rewrite H3. simpl. by rewrite <- app_assoc. }
      intros Hne. apply Forall_cons in Hne as [Hfront Hne].
      destruct (H4 Hne) as [H5 _]. split; [done|].
      intros _ _. destruct front; [done|]. simpl in *. lia.
Qed.

Lemma ppInputToLex_spec ppBuffers max_size :
  exists got buf ppBuffers',
    ppInputToLex ppBuffers max_size = Some (got, buf, ppBuffers')
    /\ (got <= max_size)%nat /\ length buf = got
    /\ buf ++ concat ppBuffers' = concat ppBuffers
    /\ (ppBuffers = [] -> got = 0%nat)
    /\ (Forall (fun b => b <> []) ppBuffers ->
        Forall (fun b => b <> []) ppBuffers'
        /\ ((0 < max_size)%nat -> got = 0%nat -> ppBuffers = [])).
Proof.
  unfold ppInputToLex.
  destruct (ppInputToLex_loop_total (length ppBuffers) max_size 0 []
              ppBuffers ltac:(lia)) as [[[got buf] ppBuffers'] Hloop].
  exists got, buf, ppBuffers'. split; [done|].
  pose proof Hloop as Hloop'.
  apply ppInputToLex_loop_spec in Hloop as (H1 & H2 & H3 & H4);
    [|lia|done].
  split; [lia|]. split; [done|]. split; [done|]. split.
  - intros ->. simpl in Hloop'. by simplify_eq.
  - intros Hne. destruct (H4 Hne) as [H5 H6]. split; [done|].
    intros Hmax Hz. destruct ppBuffers as [|front rest]; [done|].
    specialize (H6 Hmax ltac:(done)). lia.
Qed.

(** Any sequence of calls delivers the queued bytes in their order. *)
Lemma ppInputToLex_calls_spec sizes :
  forall ppBuffers,
    exists bufs ppBuffers',
      ppInputToLex_calls sizes ppBuffers = Some (bufs, ppBuffers')
      /\ bufs ++ concat ppBuffers' = concat ppBuffers.
Proof.
  induction sizes as [|max_size sizes IH]; intros ppBuffers.
  - exists [], ppBuffers. by split.
  - destruct (ppInputToLex_spec ppBuffers max_size)
      as (got & buf & ppBuffers1 & Hcall & _ & _ & Hcat & _).
    destruct (IH ppBuffers1) as (bufs & ppBuffers' & Hcalls & Hcat').
    exists (buf ++ bufs), ppBuffers'. split.
    + simpl. rewrite Hcall. simpl. rewrite Hcalls. done.
    + by rewrite <- app_assoc, Hcat', Hcat.
Qed.

(** C10 (as amended).  A call returns a result; the number of bytes returned
    is at most [max_size] and is the number of bytes delivered; it is 0 when
    the buffer list is empty and, for a positive [max_size] and a list
    without empty strings, only then; the strings left are again not empty;
    the bytes delivered by any sequence of calls, followed by the strings
    left, are the strings queued, in their order. *)
Theorem ppInputToLex_delivers ppBuffers max_size sizes :
  (exists got buf ppBuffers',
     ppInputToLex ppBuffers max_size = Some (got, buf, ppBuffers')
     /\ (got <= max_size)%nat /\ length buf = got
     /\ buf ++ concat ppBuffers' = concat ppBuffers
     /\ (ppBuffers = [] -> got = 0%nat)
     /\ (Forall (fun b => b <> []) ppBuffers ->
         Forall (fun b => b <> []) ppBuffers'
         /\ ((0 < max_size)%nat -> got = 0%nat -> ppBuffers = [])))
  /\ (exists bufs ppBuffers',
        ppInputToLex_calls sizes ppBuffers = Some (bufs, ppBuffers')
        /\ bufs ++ concat ppBuffers' = concat ppBuffers).
Proof.
  split; [apply ppInputToLex_spec|apply ppInputToLex_calls_spec].
Qed.

(** C10 as stated fails: with [max_size = 0] a call returns 0 although a
    string is queued, and so does a call on a queue that holds only an empty
    string. *)
Lemma ppInputToLex_zero_not_empty :
  ppInputToLex [[Byte.x61]] 0 = Some (0%nat, [], [[Byte.x61]])
  /\ ppInputToLex [[]] 4 = Some (0%nat, [], []).
Proof. split; reflexivity. Qed.

(** A string longer than the room left is split and its rest queued again
    at the front. *)
Example ppInputToLex_split :
  ppInputToLex [[Byte.x61; Byte.x62; Byte.x63]; [Byte.x64]] 2
  = Some (2%nat, [Byte.x61; Byte.x62], [[Byte.x63]; [Byte.x64]]).
Proof. reflexivity. Qed.

(** ** The store of locations *)

Lemma on_FileLine_spec a f s fl :
  heap s !! a = Some fl ->
  on_FileLine a f s = Some (set_heap (<[a := f fl]> (heap s)) s).
Proof. intros H. unfold on_FileLine. by rewrite H. Qed.

Lemma new_FileLine_spec fromp s fl :
  heap s !! fromp = Some fl ->
  new_FileLine fromp s
  = Some (length (heap s), set_heap (heap s ++ [fl]) s).
Proof. intros H. unfold new_FileLine. by rewrite H. Qed.

Lemma lookup_snoc_last {A} (l : list A) (x : A) :
  (l ++ [x]) !! length l = Some x.
Proof. by rewrite lookup_app_r, Nat.sub_diag by lia. Qed.

Lemma insert_snoc_last {A} (l : list A) (x y : A) :
  <[length l := y]> (l ++ [x]) = l ++ [y].
Proof.
  replace (length l) with (length l + 0)%nat at 1 by lia.
  by rewrite insert_app_r.
Qed.

(** A change of the current location in place: the other locations stay. *)
Lemma lex_touch_spec f s fl :
  lexFileline s = Some fl ->
  exists s',
    on_FileLine (m_lexFileline s) f s = Some s'
    /\ m_lexFileline s' = m_lexFileline s
    /\ length (heap s') = length (heap s)
    /\ lexFileline s' = Some (f fl)
    /\ (forall a, a <> m_lexFileline s -> heap s' !! a = heap s !! a)
    /\ m_lexLintState s' = m_lexLintState s /\ errors s' = errors s.
Proof.
  intros H. unfold lexFileline in *. eexists.
  split; [by apply on_FileLine_spec|]. simpl.
  split; [done|]. split; [by rewrite length_insert|].
  split; [apply list_lookup_insert_eq; by eapply lookup_lt_Some|].
  split; [|done]. intros a Ha. by apply list_lookup_insert_ne.
Qed.

(** The enter branch: the new current location is a fresh object, a copy of
    the old one whose parent is a snapshot of the old one; no location that
    existed is changed. *)
Lemma lexPpline_enter_spec same s fl :
  lexFileline s = Some fl ->
  exists s' p,
    lexPpline_enter same s = Some s'
    /\ (length (heap s) <= m_lexFileline s' < length (heap s'))%nat
    /\ (p < m_lexFileline s')%nat
    /\ heap s' !! p = Some fl
    /\ lexFileline s' = Some (FileLine_parent (Some p) fl)
    /\ (forall a, (a < length (heap s))%nat -> heap s' !! a = heap s !! a)
    /\ m_lexLintState s' = m_lexLintState s /\ errors s' = errors s.
Proof.
  intros H. unfold lexFileline in H. pose proof (lookup_lt_Some _ _ _ H).
  unfold lexPpline_enter, copyOrSameFileLine, lexFileline.
  destruct same; simpl.
  - rewrite H. simpl.
    rewrite (new_FileLine_spec _ _ fl) by done. simpl.
    unfold on_FileLine. simpl. rewrite lookup_snoc_last. simpl.
    eexists _, (m_lexFileline s). split; [done|]. simpl.
    rewrite insert_snoc_last, length_app. simpl.
    split; [lia|]. split; [lia|].
    split; [by rewrite lookup_app_l|].
    split; [by rewrite lookup_snoc_last|].
    split; [|done]. intros a Ha. by rewrite lookup_app_l.
  - rewrite (new_FileLine_spec _ _ fl) by done. simpl.
    rewrite (new_FileLine_spec _ _ fl) by (simpl; apply lookup_snoc_last).
    simpl. unfold on_FileLine. simpl.
    rewrite length_app. simpl.
    replace (length (heap s) + 1)%nat with (length (heap s ++ [fl]))
      by (rewrite length_app; simpl; lia).
    rewrite lookup_snoc_last. simpl.
    eexists _, (length (heap s)). split; [done|]. simpl.
    rewrite insert_snoc_last, !length_app. simpl.
    split; [lia|]. split; [lia|].
    split; [by rewrite lookup_app_l, lookup_snoc_last
              by (rewrite length_app; simpl; lia)|].
    split.
    { replace (length (heap s) + 1)%nat with (length (heap s ++ [fl]))
        by (rewrite length_app; simpl; lia).
      apply lookup_snoc_last. }
    split; [|done]. intros a Ha.
    by rewrite !lookup_app_l by (rewrite ?length_app; simpl; lia).
Qed.

(** The exit branch with a parent: the new current location is a fresh
    object, the copy of the parent with the content-line counter of the
    location left; every location that existed stays as it is. *)
Lemma lexPpline_exit_spec s fl up pf :
  lexFileline s = Some fl -> fl_parent fl = Some up ->
  heap s !! up = Some pf ->
  lexPpline_exit s
  = Some (lexFileline_set (length (heap s))
            (set_heap (heap s ++ [FileLine_contentLinenoFrom fl pf]) s)).
Proof.
  intros H Hup Hpf. unfold lexFileline in H.
  pose proof (lookup_lt_Some _ _ _ H).
  unfold lexPpline_exit. rewrite H. simpl. rewrite Hup.
  rewrite (new_FileLine_spec _ _ pf) by done. simpl.
  rewrite lookup_app_l, H by done. simpl.
  unfold on_FileLine. simpl. rewrite lookup_snoc_last. simpl.
  by rewrite insert_snoc_last.
Qed.

(** The exit branch without a parent does nothing. *)
Lemma lexPpline_exit_no_parent s fl :
  lexFileline s = Some fl -> fl_parent fl = None ->
  lexPpline_exit s = Some s.
Proof.
  intros H Hup. unfold lexFileline in H.
  unfold lexPpline_exit. rewrite H. simpl. by rewrite Hup.
Qed.

(** The common tail of a directive is a change of the current location in
    place; it leaves the parent link and the content-line counter alone. *)
Lemma lexPpline_linefn_spec ignores name line s fl :
  lexFileline s = Some fl ->
  lexPpline_linefn ignores name line s
  = on_FileLine (m_lexFileline s)
      (fun fl => FileLine_applyIgnores ignores
                   (FileLine_lineno line (FileLine_filename name fl))) s.
Proof.
  intros H. unfold lexFileline in H. pose proof (lookup_lt_Some _ _ _ H).
  unfold lexPpline_linefn, on_FileLine. rewrite H. simpl.
  rewrite list_lookup_insert_eq by done. simpl.
  rewrite list_lookup_insert_eq by (by rewrite length_insert). simpl.
  by rewrite !list_insert_insert_eq.
Qed.

(** A directive that enters a file: the enter branch, then the new
    filename and line on the new current location. *)
Lemma lexPpline_enter_directive ignores name line same s fl :
  lexFileline s = Some fl ->
  exists s' p,
    lexPpline ignores (mkLineDirective name line 1) same s = Some s'
    /\ (length (heap s) <= m_lexFileline s' < length (heap s'))%nat
    /\ (p < m_lexFileline s')%nat
    /\ heap s' !! p = Some fl
    /\ lexFileline s'
       = Some (FileLine_applyIgnores ignores
                 (FileLine_lineno line
                    (FileLine_filename name (FileLine_parent (Some p) fl))))
    /\ (forall a, (a < length (heap s))%nat -> heap s' !! a = heap s !! a).
Proof.
  intros H.
  destruct (lexPpline_enter_spec same s fl H)
    as (s1 & p & Hs1 & Hr & Hp & Hpv & Htop & Hold & _).
  unfold lexPpline. simpl. rewrite Hs1. simpl.
  rewrite (lexPpline_linefn_spec _ _ _ _ _ Htop).
  destruct (lex_touch_spec
              (fun fl => FileLine_applyIgnores ignores
                 (FileLine_lineno line (FileLine_filename name fl)))
              s1 _ Htop) as (s' & Hs' & Ht & Hlen & Htop' & Hfr & _).
  exists s', p. split; [done|]. rewrite Ht, Hlen.
  split; [done|]. split; [done|].
  split; [by rewrite Hfr by lia|]. split; [done|].
  intros a Ha. rewrite Hfr by lia. by apply Hold.
Qed.

(** A directive that leaves a file: the exit branch, then the filename and
    line of the directive on the current location. *)
Lemma lexPpline_exit_directive ignores name line same s :
  lexPpline ignores (mkLineDirective name line 2) same s
  = s' ← lexPpline_exit s; lexPpline_linefn ignores name line s'.
Proof. reflexivity. Qed.

(** A directive that only changes the filename and the line. *)
Lemma lexPpline_line_directive ignores name line same s :
  lexPpline ignores (mkLineDirective name line 0) same s
  = lexPpline_linefn ignores name line s.
Proof. reflexivity. Qed.

(** A directive with flag 2 on a location that has a parent. *)
Lemma lexPpline_exit_directive_spec ignores d same s fl up pf :
  enterExit d = 2 ->
  lexFileline s = Some fl -> fl_parent fl = Some up ->
  heap s !! up = Some pf ->
  lexPpline ignores d same s
  = Some (lexFileline_set (length (heap s))
            (set_heap
               (heap s
                ++ [FileLine_applyIgnores ignores
                      (FileLine_lineno (newLineno d)
                         (FileLine_filename (newFilename d)
                            (FileLine_contentLinenoFrom fl pf)))]) s)).
Proof.
  intros He Hfl Hup Hpf. unfold lexPpline. rewrite He.
  destruct (decide (2 = 1)) as [?|_]; [done|].
  destruct (decide (2 = 2)) as [_|?]; [|done].
  destruct (decide (2 <> -1)) as [_|?]; [|lia].
  rewrite (lexPpline_exit_spec s fl up pf Hfl Hup Hpf).
  cbn [mbind option_bind].
  rewrite (lexPpline_linefn_spec _ _ _ _
             (FileLine_contentLinenoFrom fl pf))
    by apply lookup_snoc_last.
  unfold on_FileLine. cbn. rewrite lookup_snoc_last. cbn.
  by rewrite insert_snoc_last.
Qed.

(** A directive that does not enter a file, on a location without
    parent: the filename and the line are changed in place. *)
Lemma lexPpline_rename_spec ignores d same s fl :
  enterExit d <> 1 -> enterExit d <> -1 ->
  lexFileline s = Some fl ->
  (enterExit d = 2 -> fl_parent fl = None) ->
  lexPpline ignores d same s
  = Some (set_heap
            (<[m_lexFileline s :=
                 FileLine_applyIgnores ignores
                   (FileLine_lineno (newLineno d)
                      (FileLine_filename (newFilename d) fl))]> (heap s))
            s).
Proof.
  intros H1 Hm Hfl Hno. unfold lexPpline.
  destruct (decide (enterExit d = 1)) as [?|_]; [done|].
  destruct (decide (enterExit d <> -1)) as [_|?]; [|lia].
  destruct (decide (enterExit d = 2)) as [H2|_].
  - rewrite (lexPpline_exit_no_parent s fl Hfl (Hno H2)).
    cbn [mbind option_bind].
    rewrite (lexPpline_linefn_spec _ _ _ _ fl Hfl).
    by rewrite (on_FileLine_spec _ _ _ fl Hfl).
  - cbn [mbind option_bind].
    rewrite (lexPpline_linefn_spec _ _ _ _ fl Hfl).
    by rewrite (on_FileLine_spec _ _ _ fl Hfl).
Qed.

(** Two files entered and left again, every step a whole directive. *)
Lemma lexPpline_stack ignores :
  forall (A B C D : string) (la lb lc ld : Z)
         (sameA sameB sameC sameD : bool)
         (f1 f2 f3 : FileLine -> FileLine) (s0 : LexState) (fl0 : FileLine),
    lexFileline s0 = Some fl0 ->
    (forall x, fl_parent (f1 x) = fl_parent x) ->
    (forall x, fl_parent (f2 x) = fl_parent x) ->
    (forall x, fl_parent (f3 x) = fl_parent x) ->
    exists s2 s3 s4 b top3 top4,
      lex_ops ignores [LexDirective (mkLineDirective A la 1) sameA;
                       LexTouch f1;
                       LexDirective (mkLineDirective B lb 1) sameB;
                       LexTouch f2] s0 = Some s2
      /\ lexFileline s2 = Some b
      /\ lex_ops ignores [LexDirective (mkLineDirective C lc 2) sameC] s2
         = Some s3
      /\ lexFileline s3 = Some top3
      /\ lex_ops ignores [LexTouch f3;
                          LexDirective (mkLineDirective D ld 2) sameD] s3
         = Some s4
      /\ lexFileline s4 = Some top4
      /\ fl_contentLineno top3 = fl_contentLineno b
      /\ fl_contentLineno top4 = fl_contentLineno (f3 top3)
      /\ fl_filename top3 = C
      /\ fl_lineno top3 = lc
      /\ fl_filename top4 = D
      /\ fl_lineno top4 = ld
      /\ fl_warnOff top4 = ignores D ld (fl_warnOff fl0)
      /\ fl_parent top4 = fl_parent fl0.
Proof.
  intros A B C D la lb lc ld sameA sameB sameC sameD f1 f2 f3 s0 fl0
    H0 Hf1 Hf2 Hf3.
  (* enter A *)
  destruct (lexPpline_enter_directive ignores A la sameA s0 fl0 H0)
    as (s1 & p1 & Hs1 & Hr1 & Hp1 & Hp1v & Htop1 & _).
  destruct (lex_touch_spec f1 s1 _ Htop1)
    as (s1' & Hs1' & Ht1 & Hlen1 & Htop1' & Hfr1 & _).
  assert (heap s1' !! p1 = Some fl0) as Hp1v' by (rewrite Hfr1; [done|lia]).
  (* enter B *)
  destruct (lexPpline_enter_directive ignores B lb sameB s1' _ Htop1')
    as (s2 & p2 & Hs2 & Hr2 & Hp2 & Hp2v & Htop2 & Hold2).
  assert (heap s2 !! p1 = Some fl0) as Hp1s2 by (rewrite Hold2; [done|lia]).
  destruct (lex_touch_spec f2 s2 _ Htop2)
    as (s2' & Hs2' & Ht2 & Hlen2 & Htop2' & Hfr2 & _).
  set (a1 := f1 (FileLine_applyIgnores ignores
                   (FileLine_lineno la (FileLine_filename A
                      (FileLine_parent (Some p1) fl0))))) in *.
  assert (heap s2' !! p2 = Some a1) as Hp2v' by (rewrite Hfr2; [done|lia]).
  assert (heap s2' !! p1 = Some fl0) as Hp1s2'
    by (rewrite Hfr2; [done|lia]).
  (* the directive that leaves B *)
  pose proof (lexPpline_exit_directive_spec ignores
                (mkLineDirective C lc 2) sameC s2' _ p2 a1 eq_refl Htop2'
                ltac:(by rewrite Hf2) Hp2v') as Hs3.
  set (s3 := lexFileline_set _ _) in Hs3.
  set (b := f2 _) in *.
  assert (lexFileline s3
          = Some (FileLine_applyIgnores ignores
                    (FileLine_lineno lc (FileLine_filename C
                       (FileLine_contentLinenoFrom b a1))))) as Htop3
    by apply lookup_snoc_last.
  assert (heap s3 !! p1 = Some fl0) as Hp1s3.
  { unfold s3. cbn. rewrite lookup_app_l; [done|]. lia. }
  destruct (lex_touch_spec f3 s3 _ Htop3)
    as (s3' & Hs3' & Ht3 & Hlen3 & Htop3' & Hfr3 & _).
  assert (heap s3' !! p1 = Some fl0) as Hp1s3'.
  { rewrite Hfr3; [done|]. unfold s3. cbn. lia. }
  (* the directive that leaves A *)
  pose proof (lexPpline_exit_directive_spec ignores
                (mkLineDirective D ld 2) sameD s3' _ p1 fl0 eq_refl Htop3'
                ltac:(by rewrite Hf3; cbn; unfold a1; rewrite Hf1)
                Hp1s3') as Hs4.
  set (s4 := lexFileline_set _ _) in Hs4.
  eexists s2', s3, s4, _, _, _.
  split.
  { cbn [lex_ops lex_op]. rewrite Hs1. cbn [mbind option_bind].
    rewrite Hs1'. cbn [mbind option_bind]. rewrite Hs2.
    cbn [mbind option_bind]. by rewrite Hs2'. }
  split; [exact Htop2'|].
  split. { cbn [lex_ops lex_op]. by rewrite Hs3. }
  split; [exact Htop3|].
  split.
  { cbn [lex_ops lex_op]. rewrite Hs3'. cbn [mbind option_bind].
    by rewrite Hs4. }
  split; [apply lookup_snoc_last|].
  done.
Qed.

(** ** Claims on the source locations *)

(** C6 (as amended).  Enter [A], enter [B], leave, leave, every step a
    whole [`line] directive and whatever the lexer does to the current
    location in between: the current location is again one with the
    suppression set (the ignore ranges of the new place applied) and the
    parent of the original one, its filename and line are those that the
    last directive names, and its content-line counter is the one of the
    location just left, which itself started from the counter of the
    location left before.  A directive that leaves a file makes a fresh
    object, a copy of the parent that is not the parent itself, writes its
    filename and line there and leaves every existing location untouched;
    without a parent it allocates nothing and writes its filename and line
    on the current location. *)
Theorem lexPpline_enter_enter_exit_exit ignores
    (A B C D : string) (la lb lc ld : Z) (sameA sameB sameC sameD : bool)
    (f1 f2 f3 : FileLine -> FileLine) (s0 : LexState) (fl0 : FileLine) :
  lexFileline s0 = Some fl0 ->
  (forall x, fl_parent (f1 x) = fl_parent x) ->
  (forall x, fl_parent (f2 x) = fl_parent x) ->
  (forall x, fl_parent (f3 x) = fl_parent x) ->
  (exists s2 s3 s4 b top3 top4,
     lex_ops ignores [LexDirective (mkLineDirective A la 1) sameA;
                      LexTouch f1;
                      LexDirective (mkLineDirective B lb 1) sameB;
                      LexTouch f2] s0 = Some s2
     /\ lexFileline s2 = Some b
     /\ lex_ops ignores [LexDirective (mkLineDirective C lc 2) sameC] s2
        = Some s3
     /\ lexFileline s3 = Some top3
     /\ lex_ops ignores [LexTouch f3;
                         LexDirective (mkLineDirective D ld 2) sameD] s3
        = Some s4
     /\ lexFileline s4 = Some top4
     /\ fl_contentLineno top3 = fl_contentLineno b
     /\ fl_contentLineno top4 = fl_contentLineno (f3 top3)
     /\ fl_filename top3 = C
     /\ fl_lineno top3 = lc
     /\ fl_filename top4 = D
     /\ fl_lineno top4 = ld
     /\ fl_warnOff top4 = ignores D ld (fl_warnOff fl0)
     /\ fl_parent top4 = fl_parent fl0)
  /\ (forall up pf,
        fl_parent fl0 = Some up -> heap s0 !! up = Some pf ->
        exists s',
          lexPpline ignores (mkLineDirective C lc 2) sameC s0 = Some s'
          /\ m_lexFileline s' = length (heap s0)
          /\ m_lexFileline s' <> up
          /\ lexFileline s'
             = Some (FileLine_applyIgnores ignores
                       (FileLine_lineno lc (FileLine_filename C
                          (FileLine_contentLinenoFrom fl0 pf))))
          /\ (forall a, (a < length (heap s0))%nat ->
                        heap s' !! a = heap s0 !! a))
  /\ (fl_parent fl0 = None ->
      exists s',
        lexPpline ignores (mkLineDirective C lc 2) sameC s0 = Some s'
        /\ m_lexFileline s' = m_lexFileline s0
        /\ length (heap s') = length (heap s0)
        /\ lexFileline s'
           = Some (FileLine_applyIgnores ignores
                     (FileLine_lineno lc (FileLine_filename C fl0)))
        /\ (forall a, a <> m_lexFileline s0 ->
                      heap s' !! a = heap s0 !! a)).
Proof.
  intros H0 Hf1 Hf2 Hf3. split; [by apply lexPpline_stack|]. split.
  - intros up pf Hup Hpf. eexists.
    split; [by apply (lexPpline_exit_directive_spec _ _ _ _ fl0 up pf)|].
    cbn. split; [done|].
    split; [apply lookup_lt_Some in Hpf; lia|].
    split; [apply lookup_snoc_last|].
    intros a Ha. by rewrite lookup_app_l.
  - intros Hnone.
    rewrite (lexPpline_rename_spec ignores (mkLineDirective C lc 2) sameC
               s0 fl0) by done.
    unfold lexFileline in H0. pose proof (lookup_lt_Some _ _ _ H0).
    eexists. split; [done|]. cbn. split; [done|].
    split; [by rewrite length_insert|].
    split; [by apply list_lookup_insert_eq|].
    intros a Ha. by apply list_lookup_insert_ne.
Qed.

Lemma lexPpline_enter_enter_exit_exit_witness :
  lexFileline lex_top_v = Some top_v
  /\ (forall x, fl_parent (FileLine_linenoInc x) = fl_parent x)
  /\ exists s2 s3 s4 b top3 top4,
       lex_ops (fun _ _ w => w)
         [LexDirective (mkLineDirective "a.vh" 1 1) true;
          LexTouch FileLine_linenoInc;
          LexDirective (mkLineDirective "b.vh" 1 1) false;
          LexTouch FileLine_linenoInc] lex_top_v = Some s2
       /\ lexFileline s2 = Some b
       /\ lex_ops (fun _ _ w => w)
            [LexDirective (mkLineDirective "a.vh" 3 2) true] s2 = Some s3
       /\ lexFileline s3 = Some top3
       /\ lex_ops (fun _ _ w => w)
            [LexTouch FileLine_linenoInc;
             LexDirective (mkLineDirective "top.v" 11 2) true] s3
          = Some s4
       /\ lexFileline s4 = Some top4
       /\ fl_contentLineno top3 = fl_contentLineno b
       /\ fl_contentLineno top4 = fl_contentLineno (FileLine_linenoInc top3)
       /\ fl_filename top3 = "a.vh"
       /\ fl_lineno top3 = 3
       /\ fl_filename top4 = "top.v"
       /\ fl_lineno top4 = 11
       /\ fl_warnOff top4 = fl_warnOff top_v
       /\ fl_parent top4 = fl_parent top_v.
Proof.
  split; [reflexivity|]. split; [reflexivity|].
  exact (proj1
    (lexPpline_enter_enter_exit_exit (fun _ _ w => w)
       "a.vh" "b.vh" "a.vh" "top.v" 1 1 3 11 true false true true
       FileLine_linenoInc FileLine_linenoInc FileLine_linenoInc
       lex_top_v top_v eq_refl (fun _ => eq_refl) (fun _ => eq_refl)
       (fun _ => eq_refl))).
Defined.

(** C6 as stated fails: the filename and the line after the two exits are
    those that the last directive names, not those of the original
    location.  Here the original location is line 10 of [top.v] and the
    last directive names line 77 of [yyy.v]. *)
Lemma lexPpline_exit_exit_not_original :
  (s ← lex_ops (fun _ _ w => w)
         [LexDirective (mkLineDirective "a.vh" 1 1) true;
          LexDirective (mkLineDirective "b.vh" 1 1) true;
          LexDirective (mkLineDirective "a.vh" 2 2) true;
          LexDirective (mkLineDirective "yyy.v" 77 2) true] lex_top_v;
   fl ← lexFileline s;
   Some (fl_filename fl, fl_lineno fl))
  = Some ("yyy.v", 77)
  /\ "yyy.v" <> fl_filename top_v
  /\ 77 <> fl_lineno top_v.
Proof. split; [reflexivity|]. split; discriminate. Qed.

(** The run of the witness, evaluated: after the two exits the current
    location is a new object at line 11 of [top.v], whose content-line
    counter went on from the included files. *)
Example lexPpline_include_twice :
  (s ← lex_ops (fun _ _ w => w)
         [LexDirective (mkLineDirective "a.vh" 1 1) true;
          LexTouch FileLine_linenoInc;
          LexDirective (mkLineDirective "b.vh" 1 1) false;
          LexTouch FileLine_linenoInc;
          LexDirective (mkLineDirective "a.vh" 3 2) true;
          LexTouch FileLine_linenoInc;
          LexDirective (mkLineDirective "top.v" 11 2) true] lex_top_v;
   fl ← lexFileline s;
   Some (m_lexFileline s, fl_filename fl, fl_lineno fl, fl_contentLineno fl,
         fl_parent fl))
  = Some (5%nat, "top.v", 11, 13, None).
Proof. reflexivity. Qed.

(** A directive that leaves a file writes its own filename and line on
    the location that the exit made current. *)
Example lexPpline_exit_then_line :
  (s ← lex_ops (fun _ _ w => w)
         [LexDirective (mkLineDirective "a.vh" 1 1) true;
          LexTouch FileLine_linenoInc;
          LexDirective (mkLineDirective "top.v" 12 2) true] lex_top_v;
   fl ← lexFileline s;
   Some (fl_filename fl, fl_lineno fl, fl_contentLineno fl, fl_parent fl))
  = Some ("top.v", 12, 11, None).
Proof. reflexivity. Qed.

(** ** Lint save and restore *)

Lemma lexVerilatorCmtLintSave_spec fl s saved :
  heap s !! fl = Some saved ->
  lexVerilatorCmtLintSave fl s
  = Some (set_lexLintState (m_lexLintState s ++ [saved]) s).
Proof. intros H. unfold lexVerilatorCmtLintSave. by rewrite H. Qed.

Lemma lexVerilatorCmtLintRestore_spec fl s stack back cur :
  m_lexLintState s = stack ++ [back] -> heap s !! fl = Some cur ->
  lexVerilatorCmtLintRestore fl s
  = Some (set_lexLintState stack
            (set_heap (<[fl := FileLine_warnStateFrom back cur]> (heap s))
                      s)).
Proof.
  intros Hst Hcur. unfold lexVerilatorCmtLintRestore.
  rewrite Hst, last_snoc. rewrite (on_FileLine_spec _ _ _ _ Hcur). simpl.
  by rewrite Hst, removelast_last.
Qed.

Lemma lexVerilatorCmtLintRestore_empty fl s :
  m_lexLintState s = [] ->
  lexVerilatorCmtLintRestore fl s
  = Some (v3error fl "/*verilator lint_restore*/ without matching save" s).
Proof. intros H. unfold lexVerilatorCmtLintRestore. by rewrite H. Qed.

(** C9.  After [lintSave] and any change of the state that leaves the
    lint-state stack alone, [lintRestore] gives the location it is applied
    to the suppression set saved and pops the stack to what it was before
    the save; on an empty stack [lintRestore] reports "without matching
    save" and changes neither the stack nor any location. *)
Theorem lint_save_restore (fl fl' : nat) (s : LexState) (saved : FileLine) :
  (heap s !! fl = Some saved ->
   exists s1,
     lexVerilatorCmtLintSave fl s = Some s1
     /\ forall s2 cur,
          m_lexLintState s2 = m_lexLintState s1 ->
          heap s2 !! fl' = Some cur ->
          exists s3 cur',
            lexVerilatorCmtLintRestore fl' s2 = Some s3
            /\ heap s3 !! fl' = Some cur'
            /\ fl_warnOff cur' = fl_warnOff saved
            /\ m_lexLintState s3 = m_lexLintState s
            /\ errors s3 = errors s2)
  /\ (m_lexLintState s = [] ->
      exists s',
        lexVerilatorCmtLintRestore fl s = Some s'
        /\ errors s'
           = errors s
             ++ [(fl, "/*verilator lint_restore*/ without matching save")]
        /\ heap s' = heap s
        /\ m_lexLintState s' = m_lexLintState s).
Proof.
  split.
  - intros Hsaved. eexists.
    split; [by apply lexVerilatorCmtLintSave_spec|].
    intros s2 cur Hst Hcur. simpl in Hst.
    eexists _, _. split; [by eapply lexVerilatorCmtLintRestore_spec|].
    simpl.
    split; [apply list_lookup_insert_eq; by eapply lookup_lt_Some|].
    done.
  - intros Hempty. eexists.
    split; [by apply lexVerilatorCmtLintRestore_empty|]. done.
Qed.

Lemma lint_save_restore_witness :
  heap lex_top_v !! 0%nat = Some top_v
  /\ m_lexLintState lex_top_v = []
  /\ exists s',
       lexVerilatorCmtLintRestore 0 lex_top_v = Some s'
       /\ errors s'
          = errors lex_top_v
            ++ [(0%nat, "/*verilator lint_restore*/ without matching save")]
       /\ heap s' = heap lex_top_v
       /\ m_lexLintState s' = m_lexLintState lex_top_v.
Proof.
  split; [reflexivity|]. split; [reflexivity|].
  exact (proj2 (lint_save_restore 0 0 lex_top_v top_v) eq_refl).
Defined.

(** * Further properties of the code *)

(** ** More on the scanners *)

Lemma scan_close_bound o c rest :
  forall depth n p r',
    scan_close o c rest depth n = Some (p, r') ->
    (depth < p <= depth + length rest)%nat.
Proof.
  induction rest as [|tok rest IH]; intros depth n p r' H; [done|].
  simpl in H. repeat case_decide; simplify_eq; simpl; try lia;
    apply IH in H; lia.
Qed.

Lemma eof_offset_le rest : (eof_offset rest <= length rest)%nat.
Proof.
  induction rest as [|tok rest IH]; simpl; [lia|]. case_decide; lia.
Qed.

Lemma bracket_while_bound_len k :
  forall rest, (length rest < k)%nat ->
  forall inDepth depth,
    (inDepth <= depth)%nat ->
    (inDepth <= bracket_while rest inDepth depth <= depth + length rest)%nat.
Proof.
  induction k as [|k IH]; intros rest Hlen inDepth depth Hd; [lia|].
  destruct rest as [|tok rest]; [simpl; lia|].
  destruct (decide (tok = tok_LBRACK)) as [->|Hne].
  - rewrite bracket_while_open.
    destruct (scan_close _ _ rest (S depth) 1) as [[p r']|] eqn:Hs;
      [|simpl; lia].
    pose proof (scan_close_bound _ _ _ _ _ _ _ Hs) as Hb.
    apply scan_close_inv1 in Hs as (b & _ & -> & ->); try done.
    simpl in Hlen. rewrite length_app in Hlen. simpl in Hlen.
    specialize (IH r' ltac:(lia) inDepth (S depth + length b + 1)%nat
                  ltac:(lia)).
    cbn [length]. rewrite length_app. cbn [length]. lia.
  - rewrite bracket_while_cons. case_decide; [done|]. simpl. lia.
Qed.

Lemma length_drop_le {A} (l : list A) d :
  (d + length (drop d l) <= max d (length l))%nat.
Proof. rewrite length_drop. lia. Qed.

Lemma tokenPeekp_ge toks d :
  tokenPeekp toks d <> tok_EOF -> (d < length toks)%nat.
Proof.
  unfold tokenPeekp. intros H.
  destruct (toks !! d) eqn:Hl; [by eapply lookup_lt_Some|done].
Qed.

Lemma tokenPipeScanBracket_bound toks d :
  (d <= tokenPipeScanBracket toks d <= max d (length toks))%nat.
Proof.
  unfold tokenPipeScanBracket.
  pose proof (bracket_while_bound_len (S (length (drop d toks)))
                (drop d toks) ltac:(lia) d d ltac:(lia)).
  pose proof (length_drop_le toks d). lia.
Qed.

Lemma tokenPipeScanParam_bound toks d forCell :
  (d <= tokenPipeScanParam toks d forCell <= max d (length toks))%nat.
Proof.
  destruct (tokenPipeScanParam_inv toks d forCell)
    as [->|(p & r & Hd & _ & ->)]; [lia|].
  pose proof (length_drop_le toks d) as H.
  rewrite Hd, length_app in H. lia.
Qed.

Lemma tokenPipeScanTypeEq_bound toks d :
  (d <= tokenPipeScanTypeEq toks d <= max d (length toks))%nat.
Proof.
  unfold tokenPipeScanTypeEq. case_decide as Hp; [lia|].
  try apply dec_stable in Hp. cbv zeta.
  assert (d < length toks)%nat by (apply tokenPeekp_ge; by rewrite Hp).
  rewrite typeEq_loop_scan.
  pose proof (length_drop_le toks (d + 1)) as Hl.
  destruct (scan_close _ _ _ _ _) as [[p r']|] eqn:Hs.
  - apply scan_close_bound in Hs. lia.
  - pose proof (eof_offset_le (drop (d + 1) toks)). lia.
Qed.

Lemma tokenPipeScanIdCell_bound toks d :
  (d <= tokenPipeScanIdCell toks d <= max d (length toks))%nat.
Proof.
  unfold tokenPipeScanIdCell. case_decide as Hid; [lia|].
  try apply dec_stable in Hid. case_decide; [lia|].
  assert (tokenPipeScanParam toks d true < length toks)%nat
    by (apply tokenPeekp_ge; by rewrite Hid).
  pose proof (tokenPipeScanParam_bound toks d true).
  pose proof (tokenPipeScanBracket_bound toks
                (S (tokenPipeScanParam toks d true))). lia.
Qed.

(** X1.  No scanner returns a position before its input position, and none
    returns a position past the end of the input: the lookahead of the
    pipeline is bounded by the token stream. *)
Theorem scanners_bounded toks d forCell :
  (d <= tokenPipeScanBracket toks d <= max d (length toks))%nat
  /\ (d <= tokenPipeScanParam toks d forCell <= max d (length toks))%nat
  /\ (d <= tokenPipeScanTypeEq toks d <= max d (length toks))%nat
  /\ (d <= tokenPipeScanIdCell toks d <= max d (length toks))%nat.
Proof.
  split; [apply tokenPipeScanBracket_bound|].
  split; [apply tokenPipeScanParam_bound|].
  split; [apply tokenPipeScanTypeEq_bound|apply tokenPipeScanIdCell_bound].
Qed.

Lemma scan_close_shift o c k rest :
  forall depth n,
    scan_close o c rest (k + depth) n
    = (fun pr => ((k + pr.1)%nat, pr.2)) <$> scan_close o c rest depth n.
Proof.
  induction rest as [|tok rest IH]; intros depth n; [done|].
  simpl. repeat case_decide; try done;
    rewrite <- ?IH; try (f_equal; lia).
  simpl. do 2 f_equal. lia.
Qed.

Lemma bracket_while_shift_len k m :
  forall rest, (length rest < m)%nat ->
  forall inDepth depth,
    bracket_while rest (k + inDepth) (k + depth)
    = (k + bracket_while rest inDepth depth)%nat.
Proof.
  induction m as [|m IH]; intros rest Hlen inDepth depth; [lia|].
  destruct rest as [|tok rest]; [done|].
  destruct (decide (tok = tok_LBRACK)) as [->|Hne].
  - rewrite !bracket_while_open.
    replace (S (k + depth)) with (k + S depth)%nat by lia.
    rewrite scan_close_shift.
    destruct (scan_close _ _ rest (S depth) 1) as [[p r']|] eqn:Hs;
      [|done].
    simpl. apply IH.
    apply scan_close_inv1 in Hs as (b & _ & -> & _); try done.
    simpl in Hlen. rewrite length_app in Hlen. simpl in Hlen. lia.
  - rewrite !bracket_while_cons. by case_decide.
Qed.

Lemma tokenPeekp_app_add pre toks d :
  tokenPeekp (pre ++ toks) (length pre + d) = tokenPeekp toks d.
Proof.
  unfold tokenPeekp. rewrite lookup_app_r by lia. do 2 f_equal. lia.
Qed.

Lemma tokenPipeScanBracket_shift pre toks d :
  tokenPipeScanBracket (pre ++ toks) (length pre + d)
  = (length pre + tokenPipeScanBracket toks d)%nat.
Proof.
  unfold tokenPipeScanBracket. rewrite drop_app_add.
  by apply (bracket_while_shift_len _ (S (length (drop d toks)))); lia.
Qed.

Lemma tokenPipeScanParam_shift pre toks d forCell :
  tokenPipeScanParam (pre ++ toks) (length pre + d) forCell
  = (length pre + tokenPipeScanParam toks d forCell)%nat.
Proof.
  unfold tokenPipeScanParam. cbv zeta.
  replace (S (length pre + d)) with (length pre + S d)%nat by lia.
  replace (S (length pre + S d)) with (length pre + S (S d))%nat by lia.
  rewrite !tokenPeekp_app_add, drop_app_add.
  case_decide; [done|]. case_decide.
  - destruct (negb forCell); [done|]. case_decide; [lia|done].
  - rewrite !param_loop_scan, scan_close_shift.
    by destruct (scan_close _ _ _ _ _) as [[? ?]|].
Qed.

Lemma tokenPipeScanTypeEq_shift pre toks d :
  tokenPipeScanTypeEq (pre ++ toks) (length pre + d)
  = (length pre + tokenPipeScanTypeEq toks d)%nat.
Proof.
  unfold tokenPipeScanTypeEq. cbv zeta.
  replace (length pre + d + 1)%nat with (length pre + (d + 1))%nat by lia.
  rewrite !tokenPeekp_app_add, drop_app_add.
  case_decide; [done|].
  rewrite !typeEq_loop_scan, scan_close_shift.
  destruct (scan_close _ _ _ _ _) as [[? ?]|]; simpl; lia.
Qed.

(** X2.  A scanner looks at nothing before its input position: the same
    tokens scanned after a longer prefix give the same result, moved by the
    length of the prefix. *)
Theorem scanners_position_independent pre toks d forCell :
  tokenPipeScanBracket (pre ++ toks) (length pre + d)
  = (length pre + tokenPipeScanBracket toks d)%nat
  /\ tokenPipeScanParam (pre ++ toks) (length pre + d) forCell
     = (length pre + tokenPipeScanParam toks d forCell)%nat
  /\ tokenPipeScanTypeEq (pre ++ toks) (length pre + d)
     = (length pre + tokenPipeScanTypeEq toks d)%nat
  /\ tokenPipeScanIdCell (pre ++ toks) (length pre + d)
     = (length pre + tokenPipeScanIdCell toks d)%nat.
Proof.
  split; [apply tokenPipeScanBracket_shift|].
  split; [apply tokenPipeScanParam_shift|].
  split; [apply tokenPipeScanTypeEq_shift|].
  unfold tokenPipeScanIdCell. cbv zeta.
  rewrite tokenPipeScanParam_shift, tokenPeekp_app_add.
  case_decide; [done|].
  replace (S (length pre + tokenPipeScanParam toks d true))
    with (length pre + S (tokenPipeScanParam toks d true))%nat by lia.
  rewrite tokenPipeScanBracket_shift, tokenPeekp_app_add.
  by case_decide.
Qed.

(** X3.  [tokenPipeScanBracket] against the grammar of bracket groups: after
    a run of balanced bracket groups that is followed by a token other than
    [[] it returns the position past the run; whenever it moves, it has
    walked such a run; when the input position is not on a [[] it stays. *)
Theorem tokenPipeScanBracket_result toks d :
  (forall gs r,
     drop d toks = gs ++ r -> bracketGroups gs ->
     default tok_EOF (head r) <> tok_LBRACK ->
     tokenPipeScanBracket toks d = (d + length gs)%nat)
  /\ (tokenPipeScanBracket toks d <> d ->
      exists gs r,
        drop d toks = gs ++ r /\ bracketGroups gs
        /\ default tok_EOF (head r) <> tok_LBRACK
        /\ tokenPipeScanBracket toks d = (d + length gs)%nat)
  /\ (tokenPeekp toks d <> tok_LBRACK -> tokenPipeScanBracket toks d = d).
Proof.
  split; [intros gs r; apply tokenPipeScanBracket_groups|]. split.
  - intros Hne. by destruct (tokenPipeScanBracket_inv toks d) as [?|[? _]].
  - intros Hp. unfold tokenPipeScanBracket.
    rewrite tokenPeekp_drop in Hp.
    destruct (drop d toks) as [|t r]; [done|].
    rewrite bracket_while_cons. by case_decide.
Qed.

Lemma tokenPipeScanBracket_result_witness :
  drop 1 [yaID__LEX; tok_LBRACK; yaINTNUM; tok_RBRACK; tok_LPAREN]
  = [tok_LBRACK; yaINTNUM; tok_RBRACK] ++ [tok_LPAREN]
  /\ tokenPipeScanBracket
       [yaID__LEX; tok_LBRACK; yaINTNUM; tok_RBRACK; tok_LPAREN] 1
     = 4%nat.
Proof.
  split; [reflexivity|].
  apply (proj1 (tokenPipeScanBracket_result
                  [yaID__LEX; tok_LBRACK; yaINTNUM; tok_RBRACK; tok_LPAREN]
                  1) [tok_LBRACK; yaINTNUM; tok_RBRACK] [tok_LPAREN]).
  - reflexivity.
  - rewrite <- (app_nil_r [tok_LBRACK; yaINTNUM; tok_RBRACK]).
    constructor; [|constructor].
    exists [yaINTNUM]. split; [|reflexivity].
    by repeat constructor.
  - discriminate.
Defined.

(** X4.  [tokenPipeScanParam] against the grammar of parameter groups: on
    [#] with a balanced parenthesis group it returns the position past the
    group, for a cell also on [#] with one number, time or identifier;
    whenever it moves, it has walked such a group; without a leading [#] it
    stays. *)
Theorem tokenPipeScanParam_result toks d forCell :
  (forall p r,
     drop d toks = p ++ r -> paramGroup forCell p ->
     tokenPipeScanParam toks d forCell = (d + length p)%nat)
  /\ (tokenPipeScanParam toks d forCell <> d ->
      exists p r,
        drop d toks = p ++ r /\ paramGroup forCell p
        /\ tokenPipeScanParam toks d forCell = (d + length p)%nat)
  /\ (tokenPeekp toks d <> tok_HASH -> tokenPipeScanParam toks d forCell = d).
Proof.
  split; [intros p r; apply tokenPipeScanParam_group|]. split.
  - intros Hne. by destruct (tokenPipeScanParam_inv toks d forCell).
  - intros Hp. unfold tokenPipeScanParam. by case_decide.
Qed.

Lemma tokenPipeScanParam_result_witness :
  drop 0 [tok_HASH; yaINTNUM; yaID__LEX] = [tok_HASH; yaINTNUM] ++ [yaID__LEX]
  /\ paramGroup true [tok_HASH; yaINTNUM]
  /\ tokenPipeScanParam [tok_HASH; yaINTNUM; yaID__LEX] 0 true = 2%nat.
Proof.
  assert (paramGroup true [tok_HASH; yaINTNUM]) as H.
  { right. split; [done|]. exists yaINTNUM. split; [by left|done]. }
  split; [reflexivity|]. split; [exact H|].
  exact (proj1 (tokenPipeScanParam_result [tok_HASH; yaINTNUM; yaID__LEX]
                  0 true) [tok_HASH; yaINTNUM] [yaID__LEX] eq_refl H).
Defined.

Lemma cellShape_not_paramColonColon ahead :
  paramColonColonShape ahead -> tokenPipeScanIdCell ahead 0 = 0%nat.
Proof.
  intros (g & rest & Hg & ->). unfold tokenPipeScanIdCell. cbv zeta.
  assert (drop 0 (tok_HASH :: g ++ yP_COLONCOLON :: rest)
          = (tok_HASH :: g) ++ yP_COLONCOLON :: rest) as Hd by done.
  rewrite (tokenPipeScanParam_group _ 0 true _ _ Hd) by (left; by exists g).
  rewrite (tokenPeekp_cons _ _ yP_COLONCOLON rest)
    by by apply drop_app_eq.
  by case_decide.
Qed.

Lemma paramColonColon_scan ahead :
  tokenPeekp ahead 0 = tok_HASH
  /\ tokenPeekp ahead (tokenPipeScanParam ahead 0 false) = yP_COLONCOLON
  <-> paramColonColonShape ahead.
Proof.
  split.
  - intros [H0 Hcc].
    destruct (tokenPipeScanParam_inv ahead 0 false)
      as [Hz|(p & r & Hd & [(g & Hg & ->)|[? _]] & Hlen)]; [| |done].
    { rewrite Hz, H0 in Hcc. done. }
    rewrite Hlen in Hcc.
    apply tokenPeekp_inv in Hcc as [rest Hr]; [|done].
    rewrite (drop_app_eq _ _ _ _ Hd) in Hr. subst r.
    rewrite drop_0 in Hd. by exists g, rest.
  - intros (g & rest & Hg & ->).
    assert (drop 0 (tok_HASH :: g ++ yP_COLONCOLON :: rest)
            = (tok_HASH :: g) ++ yP_COLONCOLON :: rest) as Hd by done.
    split; [done|].
    rewrite (tokenPipeScanParam_group _ 0 false _ _ Hd)
      by (left; by exists g).
    apply (tokenPeekp_cons _ _ _ rest). by apply drop_app_eq.
Qed.

(** X5.  What [tokenPipelineId] makes of a plain identifier, completely: it
    is colon-colon-qualified exactly when [::] follows at once or after [#]
    and a balanced parenthesis group, whatever the preceding token; it is a
    cell exactly when the preceding token is none of [@], [#], [.] and the
    cell shape follows; in every other case it stays a plain identifier. *)
Theorem tokenPipelineId_result lastBison ahead :
  (tokenPipelineId lastBison ahead yaID__LEX = yaID__CC
   <-> tokenPeekp ahead 0 = yP_COLONCOLON \/ paramColonColonShape ahead)
  /\ (tokenPipelineId lastBison ahead yaID__LEX = yaID__aCELL
      <-> (lastBison <> tok_AT /\ lastBison <> tok_HASH
           /\ lastBison <> tok_DOT) /\ cellShape ahead)
  /\ (tokenPipelineId lastBison ahead yaID__LEX = yaID__CC
      \/ tokenPipelineId lastBison ahead yaID__LEX = yaID__aCELL
      \/ tokenPipelineId lastBison ahead yaID__LEX = yaID__LEX).
Proof.
  change (cellShape ahead) with (cellShape (drop 0 ahead)).
  rewrite <- tokenPipeScanIdCell_shape.
  pose proof (cellShape_not_paramColonColon ahead) as Hexcl.
  rewrite <- paramColonColon_scan in *.
  unfold tokenPipelineId. cbv zeta.
  destruct (decide (tokenPeekp ahead 0 = yP_COLONCOLON)) as [Hcc|Hcc].
  { split; [split; [intros _; by left|done]|]. split; [|by left].
    split; [done|]. intros [_ Hcell]. exfalso. apply Hcell.
    unfold tokenPipeScanIdCell, tokenPipeScanParam. cbv zeta.
    destruct (decide (tokenPeekp ahead 0 <> tok_HASH)) as [_|Hn];
      [|exfalso; apply Hn; by rewrite Hcc].
    destruct (decide (tokenPeekp ahead 0 <> yaID__LEX)) as [_|Hn];
      [done|exfalso; apply Hn; by rewrite Hcc]. }
  repeat case_bool_decide; cbn [andb negb];
    (split; [|split]); try (split; intros); try tauto; try done;
    try (intuition congruence).
Qed.

(** ** More on [tokenPipeline] *)

Lemma set_token_id y : set_token (token y) y = y.
Proof. by destruct y. Qed.

Lemma tokenPipelineId_cases lastBison ahead :
  tokenPipelineId lastBison ahead yaID__LEX = yaID__CC
  \/ tokenPipelineId lastBison ahead yaID__LEX = yaID__aCELL
  \/ tokenPipelineId lastBison ahead yaID__LEX = yaID__LEX.
Proof.
  unfold tokenPipelineId. cbv zeta. case_decide; [by left|].
  destruct (_ && _); [by right; left|].
  destruct (_ && _); [by left|by right; right].
Qed.

(** The stream that [tokenPipeline] leaves is the stream without its front
    token. *)
Lemma tokenPipeline_snd pedantic lastBison toks :
  (tokenPipeline pedantic lastBison toks).2 = tail toks.
Proof. reflexivity. Qed.

(** After [tokenPipeline] the only raw kind left is the plain identifier. *)
Lemma tokenPipeline_kind pedantic lastBison toks :
  raw_kind (token (tokenPipeline pedantic lastBison toks).1) ->
  token (tokenPipeline pedantic lastBison toks).1 = yaID__LEX.
Proof.
  unfold tokenPipeline. cbv zeta. cbn [fst].
  set (y := default yylval_EOF (head toks)).
  set (ahead := token <$> tail toks).
  unfold raw_kind.
  repeat (case_decide
          || match goal with
             | |- context [if ?b then _ else _] => destruct b
             end);
    cbn [token set_token set_strp]; try (intuition congruence).
  match goal with H : token y = yaID__LEX |- _ => rewrite H end.
  destruct (tokenPipelineId_cases lastBison ahead) as [-> | [-> | ->]];
    intuition congruence.
Qed.

(** The string payload is the one of the token taken, except for a
    [global] that becomes an identifier. *)
Lemma tokenPipeline_strp pedantic lastBison toks :
  token (default yylval_EOF (head toks)) <> yGLOBAL__LEX ->
  strp (tokenPipeline pedantic lastBison toks).1
  = strp (default yylval_EOF (head toks)).
Proof.
  unfold tokenPipeline. cbv zeta. cbn [fst].
  set (y := default yylval_EOF (head toks)). intros Hg.
  repeat (case_decide
          || match goal with
             | |- context [if ?b then _ else _] => destruct b
             end);
    cbn [strp set_token set_strp]; done.
Qed.

(** A token of a kind for which [tokenPipeline] does not look ahead comes
    out as it went in. *)
Lemma tokenPipeline_other pedantic lastBison toks :
  ~ lookahead_kind (token (default yylval_EOF (head toks))) ->
  (tokenPipeline pedantic lastBison toks).1 = default yylval_EOF (head toks).
Proof.
  unfold tokenPipeline. cbv zeta. cbn [fst].
  set (y := default yylval_EOF (head toks)).
  unfold lookahead_kind, raw_kind. intros Hk.
  repeat case_decide; try (exfalso; intuition congruence).
  apply set_token_id.
Qed.

Ltac sym_node :=
  repeat match goal with
  | |- context [match ?v with
                | atTypedef => _ | atTypedefFwd => _ | atClass => _
                | atPackage => _ | atOther _ => _ end] => destruct v
  | H : context [match ?v with
                 | atTypedef => _ | atTypedefFwd => _ | atClass => _
                 | atPackage => _ | atOther _ => _ end] |- _ => destruct v
  end.

(** What one call of [tokenPipelineSym] does to the value and the state,
    whatever the lookups answer. *)
Lemma tokenPipelineSym_shape env s :
  strp (tokenPipelineSym env s).1.2 = strp (pipeline_yylval env s)
  /\ (token (tokenPipelineSym env s).1.2 = token (pipeline_yylval env s)
      \/ (token (pipeline_yylval env s) = yaID__LEX
          /\ (token (tokenPipelineSym env s).1.2 = yaID__aTYPE
              \/ token (tokenPipelineSym env s).1.2 = yaID__ETC)))
  /\ token (tokenPipelineSym env s).1.2 <> yaID__LEX
  /\ (token (pipeline_yylval env s) <> yaID__LEX ->
      token (pipeline_yylval env s) <> yaID__CC ->
      (tokenPipelineSym env s).1.2
      = set_token (token (pipeline_yylval env s)) (pipeline_yylval env s)
      /\ (tokenPipelineSym env s).2 = []
      /\ nextId (tokenPipelineSym env s).1.1 = nextId s
      /\ usesStdPackage (tokenPipelineSym env s).1.1 = usesStdPackage s
      /\ warned (tokenPipelineSym env s).1.1 = warned s)
  /\ (token (pipeline_yylval env s) = yaID__LEX
      \/ token (pipeline_yylval env s) = yaID__CC ->
      nextId (tokenPipelineSym env s).1.1 = None)
  /\ (m_afterColonColon (tokenPipelineSym env s).1.1 = true
      <-> token (tokenPipelineSym env s).1.2 = yP_COLONCOLON)
  /\ m_tokenLastBison (tokenPipelineSym env s).1.1 = m_tokenLastBison s
  /\ (m_afterColonColon s = true ->
      forall name, ~ In (EvStdFindIdFallback name) (tokenPipelineSym env s).2).
Proof.
  sym_split; repeat split; intros;
    cbn [m_tokenLastBison] in *; sym_node; sym_done.
Qed.

(** What one call of [tokenPipelineSym] does with an identifier: which
    scope it asks first, and how the answer classifies the token. *)
Lemma tokenPipelineSym_identifier env s :
  token (pipeline_yylval env s) = yaID__LEX
  \/ token (pipeline_yylval env s) = yaID__CC ->
  (is_Some (nextId s) ->
   head (tokenPipelineSym env s).2
   = Some (EvFindIdFlat (strp (pipeline_yylval env s)))
   /\ forall name, ~ In (EvFindIdFallback name) (tokenPipelineSym env s).2)
  /\ (nextId s = None ->
      head (tokenPipelineSym env s).2
      = Some (EvFindIdFallback (strp (pipeline_yylval env s)))
      /\ forall name, ~ In (EvFindIdFlat name) (tokenPipelineSym env s).2)
  /\ scp (tokenPipelineSym env s).1.2 = sym_found env s
  /\ (token (pipeline_yylval env s) = yaID__CC ->
      token (tokenPipelineSym env s).1.2 = yaID__CC)
  /\ (token (pipeline_yylval env s) = yaID__LEX ->
      token (tokenPipelineSym env s).1.2
      = if match sym_found env s with
           | Some node => is_type_node node
           | None => false
           end
        then yaID__aTYPE else yaID__ETC).
Proof.
  unfold sym_found.
  sym_split; intros; repeat split; intros;
    cbn [head is_type_node] in *; sym_node; cbn [is_type_node];
    sym_done.
  all: by simplify_eq.
Qed.

(** ** One call of [tokenToBison] *)

Lemma tokenPipelineSym_ahead env s :
  m_tokensAhead (tokenPipelineSym env s).1.1 = tail (m_tokensAhead s).
Proof.
  unfold tokenPipelineSym.
  pose proof (tokenPipeline_snd (pedantic env) (token (m_tokenLastBison s))
                (m_tokensAhead s)) as Hs.
  destruct (tokenPipeline _ _ _) as [y ahead]. cbn [snd] in Hs. subst ahead.
  by destruct (if decide _ then _ else _) as [[[[[? ?] ?] ?] ?] ?].
Qed.

Lemma tokenToBison_ahead env s :
  m_tokensAhead (tokenToBison env s).1.1 = tail (m_tokensAhead s).
Proof.
  rewrite <- (tokenPipelineSym_ahead env). unfold tokenToBison.
  by destruct (tokenPipelineSym env s) as [[? ?] ?].
Qed.

Lemma tokenToBison_last env s :
  m_tokenLastBison (tokenToBison env s).1.1 = (tokenToBison env s).1.2.
Proof.
  unfold tokenToBison. by destruct (tokenPipelineSym env s) as [[? ?] ?].
Qed.

Lemma tokenToBison_after env s :
  m_afterColonColon (tokenToBison env s).1.1
  = m_afterColonColon (tokenPipelineSym env s).1.1.
Proof.
  unfold tokenToBison. by destruct (tokenPipelineSym env s) as [[? ?] ?].
Qed.

Lemma tokenToBison_nextId env s :
  nextId (tokenToBison env s).1.1 = nextId (tokenPipelineSym env s).1.1.
Proof.
  unfold tokenToBison. by destruct (tokenPipelineSym env s) as [[? ?] ?].
Qed.

Lemma grammar_action_ahead c s :
  m_tokensAhead (grammar_action c s) = m_tokensAhead s.
Proof. unfold grammar_action. by destruct (call_nextId c). Qed.

Lemma grammar_action_after c s :
  m_afterColonColon (grammar_action c s) = m_afterColonColon s.
Proof. unfold grammar_action. by destruct (call_nextId c). Qed.

Lemma grammar_action_last c s :
  m_tokenLastBison (grammar_action c s) = m_tokenLastBison s.
Proof. unfold grammar_action. by destruct (call_nextId c). Qed.

Lemma tokenPipelineSym_not_raw env s :
  ~ raw_kind (token (tokenPipelineSym env s).1.2).
Proof.
  destruct (tokenPipelineSym_shape env s) as (_ & Hk & Hl & _).
  intros Hr. destruct Hk as [Hk | (_ & [Hk | Hk])].
  - rewrite Hk in Hr, Hl. by apply tokenPipeline_kind in Hr.
  - rewrite Hk in Hr. unfold raw_kind in Hr. intuition discriminate.
  - rewrite Hk in Hr. unfold raw_kind in Hr. intuition discriminate.
Qed.

(** X6.  Whatever the lexer delivers and whatever the symbol table answers,
    no token that reaches the grammar has one of the raw kinds of the lexer
    ([yCONST__LEX], [yGLOBAL__LEX], [yLOCAL__LEX], [yNEW__LEX],
    [ySTATIC__LEX], [yTYPE__LEX], [yVIRTUAL__LEX], [yWITH__LEX],
    [yaID__LEX]): the pipeline refines every one of them. *)
Theorem grammar_never_sees_raw_kind calls s :
  Forall (fun y => ~ raw_kind (token y)) (run calls s).1.2.
Proof.
  revert s. induction calls as [|c calls IH]; intros s; [by constructor|].
  rewrite run_cons. cbn [fst snd]. constructor; [|apply IH].
  rewrite tokenToBison_yylval. apply tokenPipelineSym_not_raw.
Qed.

Lemma run_length calls :
  forall s, length (run calls s).1.2 = length calls.
Proof.
  induction calls as [|c calls IH]; intros s; [done|].
  rewrite run_cons. cbn [fst snd length]. by rewrite IH.
Qed.

Lemma run_ahead calls :
  forall s,
    m_tokensAhead (run calls s).1.1 = drop (length calls) (m_tokensAhead s).
Proof.
  induction calls as [|c calls IH]; intros s; [done|].
  rewrite run_cons. cbn [fst snd length]. rewrite IH, tokenToBison_ahead.
  rewrite grammar_action_ahead.
  destruct (m_tokensAhead s); cbn [tail drop]; [|done].
  by destruct (length calls).
Qed.

Lemma run_strp calls :
  forall s,
    (length calls <= length (m_tokensAhead s))%nat ->
    Forall (fun y => token y <> yGLOBAL__LEX)
           (take (length calls) (m_tokensAhead s)) ->
    strp <$> (run calls s).1.2
    = strp <$> take (length calls) (m_tokensAhead s).
Proof.
  induction calls as [|c calls IH]; intros s Hlen Hg; [done|].
  rewrite run_cons. cbn [fst snd length] in *.
  pose proof (tokenToBison_ahead (call_env c) (grammar_action c s)) as Ha.
  rewrite grammar_action_ahead in Ha.
  destruct (m_tokensAhead s) as [|y toks] eqn:Ht; [cbn in Hlen; lia|].
  cbn [length take tail fmap list_fmap] in *.
  apply Forall_cons in Hg as [Hy Hg].
  rewrite IH; rewrite Ha; [|lia|done]. f_equal.
  rewrite tokenToBison_yylval.
  destruct (tokenPipelineSym_shape (call_env c) (grammar_action c s))
    as (-> & _).
  unfold pipeline_yylval. rewrite tokenPipeline_strp.
  - by rewrite grammar_action_ahead, Ht.
  - by rewrite grammar_action_ahead, Ht.
Qed.

(** X7.  Every call of [tokenToBison] takes exactly one value off the
    stream, in order: after [n] calls on a stream of at least [n] values the
    grammar has received [n] values, the stream has lost its first [n]
    values, and the string payloads received are those of the values taken,
    as long as none of them is the keyword [global] (whose payload the
    pipeline replaces when it demotes it to an identifier). *)
Theorem run_consumes_in_order calls s :
  (length calls <= length (m_tokensAhead s))%nat ->
  Forall (fun y => token y <> yGLOBAL__LEX)
         (take (length calls) (m_tokensAhead s)) ->
  length (run calls s).1.2 = length calls
  /\ m_tokensAhead (run calls s).1.1
     = drop (length calls) (m_tokensAhead s)
  /\ strp <$> (run calls s).1.2
     = strp <$> take (length calls) (m_tokensAhead s).
Proof.
  intros Hlen Hg. split; [apply run_length|]. split; [apply run_ahead|].
  by apply run_strp.
Qed.

Lemma run_consumes_in_order_witness :
  let calls := [mkCall unit_env None; mkCall unit_env None] in
  let s := V3ParseImp_init [mkYYS yaID__LEX "a" None; mkYYS (tok_other 59) ";" None;
                            mkYYS yGLOBAL__LEX "g" None] in
  length (run calls s).1.2 = 2%nat
  /\ m_tokensAhead (run calls s).1.1 = [mkYYS yGLOBAL__LEX "g" None]
  /\ strp <$> (run calls s).1.2 = ["a"; ";"].
Proof.
  intros calls s. apply (run_consumes_in_order calls s).
  - cbn. lia.
  - cbn. repeat constructor; discriminate.
Defined.

(** X8.  A token of a kind for which the pipeline neither looks ahead nor
    consults the symbol table (anything but [(], [:], the raw keyword kinds,
    and the identifier kinds [yaID__LEX] and [yaID__CC]) reaches the grammar
    exactly as the lexer delivered it; no lookup is made, no diagnostic
    given, and the pending scoped root, the standard-package flag and the
    diagnostic counter stay as they are. *)
Theorem tokenToBison_other_token env s :
  let y := default yylval_EOF (head (m_tokensAhead s)) in
  ~ lookahead_kind (token y) ->
  token y <> yaID__CC ->
  (tokenToBison env s).1.2 = y
  /\ (tokenToBison env s).2 = []
  /\ m_tokenLastBison (tokenToBison env s).1.1 = y
  /\ nextId (tokenToBison env s).1.1 = nextId s
  /\ usesStdPackage (tokenToBison env s).1.1 = usesStdPackage s
  /\ warned (tokenToBison env s).1.1 = warned s.
Proof.
  intros y Hk Hcc.
  assert (pipeline_yylval env s = y) as Hp
    by (unfold pipeline_yylval; by rewrite tokenPipeline_other).
  destruct (tokenPipelineSym_shape env s) as (_ & _ & _ & Ho & _).
  rewrite Hp in Ho. destruct Ho as (Hy & He & Hn & Hu & Hw); [|done|].
  { intros Hl. apply Hk. unfold lookahead_kind, raw_kind. tauto. }
  rewrite set_token_id in Hy.
  rewrite tokenToBison_last, tokenToBison_yylval, tokenToBison_events,
    tokenToBison_nextId, tokenToBison_uses, tokenToBison_warned.
  done.
Qed.

Lemma tokenToBison_other_token_witness :
  let s := V3ParseImp_init [mkYYS yP_COLONCOLON "::" None;
                            mkYYS yaID__LEX "a" None] in
  (tokenToBison unit_env s).1.2 = mkYYS yP_COLONCOLON "::" None
  /\ (tokenToBison unit_env s).2 = []
  /\ m_tokenLastBison (tokenToBison unit_env s).1.1
     = mkYYS yP_COLONCOLON "::" None
  /\ nextId (tokenToBison unit_env s).1.1 = None
  /\ usesStdPackage (tokenToBison unit_env s).1.1 = false
  /\ warned (tokenToBison unit_env s).1.1 = 0.
Proof.
  intros s. apply (tokenToBison_other_token unit_env s).
  - unfold lookahead_kind, raw_kind. cbn. intuition discriminate.
  - cbn. discriminate.
Defined.

(** ** The symbol pass over a run *)

Lemma run_nil_state s : (run [] s).1.1 = s.
Proof. reflexivity. Qed.

Lemma run_nil_out s : (run [] s).1.2 = [].
Proof. reflexivity. Qed.

Lemma run_cons_state c calls s :
  (run (c :: calls) s).1.1
  = (run calls (tokenToBison (call_env c) (grammar_action c s)).1.1).1.1.
Proof. by rewrite run_cons. Qed.

Lemma run_cons_out c calls s :
  (run (c :: calls) s).1.2
  = (tokenToBison (call_env c) (grammar_action c s)).1.2
    :: (run calls (tokenToBison (call_env c) (grammar_action c s)).1.1).1.2.
Proof. by rewrite run_cons. Qed.

Lemma run_snoc_state calls c :
  forall s,
    (run (calls ++ [c]) s).1.1
    = (tokenToBison (call_env c) (grammar_action c (run calls s).1.1)).1.1.
Proof.
  induction calls as [|c' calls IH]; intros s.
  - by rewrite app_nil_l, run_cons_state, !run_nil_state.
  - by rewrite <- app_comm_cons, !run_cons_state, IH.
Qed.

Lemma run_snoc_out calls c :
  forall s,
    (run (calls ++ [c]) s).1.2
    = (run calls s).1.2
      ++ [(tokenToBison (call_env c)
             (grammar_action c (run calls s).1.1)).1.2].
Proof.
  induction calls as [|c' calls IH]; intros s.
  - by rewrite app_nil_l, run_cons_out, run_nil_out, run_nil_state.
  - by rewrite <- app_comm_cons, !run_cons_out, run_cons_state, IH.
Qed.

(** X9.  A pending scoped-lookup root is used by exactly one identifier:
    with a root pending, an identifier is looked up flat under the root and
    nowhere in the current scope, the answer of the root (when it has one)
    is the node handed to the grammar, and the root is cleared; a token
    that is not an identifier makes no lookup and leaves the root
    pending. *)
Theorem scoped_root_used_once env s look_underp :
  nextId s = Some look_underp ->
  (token (pipeline_yylval env s) = yaID__LEX
   \/ token (pipeline_yylval env s) = yaID__CC ->
   head (tokenPipelineSym env s).2
   = Some (EvFindIdFlat (strp (pipeline_yylval env s)))
   /\ (forall name, ~ In (EvFindIdFallback name) (tokenPipelineSym env s).2)
   /\ (is_Some (findIdFlat look_underp (strp (pipeline_yylval env s))) ->
       scp (tokenPipelineSym env s).1.2
       = findIdFlat look_underp (strp (pipeline_yylval env s)))
   /\ nextId (tokenPipelineSym env s).1.1 = None)
  /\ (token (pipeline_yylval env s) <> yaID__LEX ->
      token (pipeline_yylval env s) <> yaID__CC ->
      (tokenPipelineSym env s).2 = []
      /\ nextId (tokenPipelineSym env s).1.1 = Some look_underp).
Proof.
  intros Hn.
  destruct (tokenPipelineSym_shape env s) as (_ & _ & _ & Ho & Hid & _).
  split.
  - intros Hk.
    destruct (tokenPipelineSym_identifier env s Hk) as (Hp & _ & Hs & _).
    destruct Hp as [Hh Hf]; [by rewrite Hn|].
    repeat split; [done|done| |by apply Hid].
    intros [node Hnode]. rewrite Hs. unfold sym_found, ordinary_lookup.
    rewrite Hn. cbn [sym_lookup fst]. by rewrite Hnode.
  - intros Hl Hc. destruct (Ho Hl Hc) as (_ & He & Hnx & _).
    by rewrite Hnx.
Qed.

Lemma scoped_root_used_once_witness :
  let s := {| m_tokensAhead := [mkYYS yaID__LEX "std" None];
              m_tokenLastBison := mkYYS yP_COLONCOLON "::" None;
              m_afterColonColon := true;
              nextId := Some unit_scope;
              usesStdPackage := false;
              warned := 0 |} in
  (tokenPipelineSym empty_env s).2 = [EvFindIdFlat "std"]
  /\ scp (tokenPipelineSym empty_env s).1.2 = Some atPackage
  /\ nextId (tokenPipelineSym empty_env s).1.1 = None.
Proof.
  intros s.
  destruct (scoped_root_used_once empty_env s unit_scope eq_refl)
    as [Hid _].
  destruct Hid as (_ & _ & Hs & Hn); [by left|].
  split; [reflexivity|]. split; [|exact Hn].
  rewrite Hs; [reflexivity|]. by eexists.
Defined.

(** X10.  How an identifier is classified.  The node attached to the value
    is the answer of the ordinary lookup or, when that finds nothing and the
    identifier does not come after [::], the answer of the standard package.
    A plain identifier becomes a type identifier exactly when that node is a
    typedef, a forward typedef or a class, and an ordinary identifier
    otherwise; an identifier before [::] keeps its kind whatever is found;
    the string payload is never touched. *)
Theorem tokenPipelineSym_classifies env s :
  token (pipeline_yylval env s) = yaID__LEX
  \/ token (pipeline_yylval env s) = yaID__CC ->
  scp (tokenPipelineSym env s).1.2 = sym_found env s
  /\ strp (tokenPipelineSym env s).1.2 = strp (pipeline_yylval env s)
  /\ (token (pipeline_yylval env s) = yaID__CC ->
      token (tokenPipelineSym env s).1.2 = yaID__CC)
  /\ (token (pipeline_yylval env s) = yaID__LEX ->
      (token (tokenPipelineSym env s).1.2 = yaID__aTYPE
       <-> exists node,
             sym_found env s = Some node /\ is_type_node node = true)
      /\ (token (tokenPipelineSym env s).1.2 <> yaID__aTYPE ->
          token (tokenPipelineSym env s).1.2 = yaID__ETC)).
Proof.
  intros Hk.
  destruct (tokenPipelineSym_identifier env s Hk) as (_ & _ & Hs & Hcc & Hl).
  destruct (tokenPipelineSym_shape env s) as (Hstr & _).
  repeat split; try done.
  - intros Ht. rewrite (Hl H) in Ht.
    destruct (sym_found env s) as [node|]; [|discriminate].
    exists node. split; [done|]. by destruct (is_type_node node).
  - intros (node & Hf & Hty). by rewrite (Hl H), Hf, Hty.
  - intros Ht. rewrite (Hl H) in Ht |- *.
    by destruct (match sym_found env s with
                 | Some node => is_type_node node | None => false end).
Qed.

Lemma tokenPipelineSym_classifies_witness :
  let s := V3ParseImp_init [mkYYS yaID__LEX "process" None;
                            mkYYS yaID__LEX "p" None] in
  scp (tokenPipelineSym unit_env s).1.2 = Some atClass
  /\ token (tokenPipelineSym unit_env s).1.2 = yaID__aTYPE.
Proof.
  intros s.
  destruct (tokenPipelineSym_classifies unit_env s) as (Hs & _ & _ & Hl).
  { by left. }
  split; [by rewrite Hs|].
  destruct Hl as [Hty _]; [reflexivity|].
  apply Hty. exists atClass. by split.
Defined.

(** X11.  The pipeline's record of the previous token is exact: after any
    non-empty run, [m_tokenLastBison] is the last value handed to the
    grammar, and [m_afterColonColon] holds exactly when that value is the
    token [::]; the grammar's actions in between do not disturb either. *)
Theorem run_tracks_last_token calls c s :
  last (run (calls ++ [c]) s).1.2
  = Some (m_tokenLastBison (run (calls ++ [c]) s).1.1)
  /\ (m_afterColonColon (run (calls ++ [c]) s).1.1 = true
      <-> token (m_tokenLastBison (run (calls ++ [c]) s).1.1)
          = yP_COLONCOLON).
Proof.
  rewrite run_snoc_state, run_snoc_out.
  generalize (run calls s).1.1 (run calls s).1.2.
  intros s1 out. rewrite last_snoc.
  rewrite tokenToBison_last, tokenToBison_after, tokenToBison_yylval.
  split; [done|].
  by destruct (tokenPipelineSym_shape (call_env c) (grammar_action c s1))
    as (_ & _ & _ & _ & _ & Hcc & _).
Qed.

(** X12.  The call that follows a [::] never consults the standard package:
    whatever the grammar's action in between and whatever the next token
    is, no lookup in the standard package is made and no implicit import
    spliced. *)
Theorem no_std_lookup_after_colon_colon env s c :
  token (tokenToBison env s).1.2 = yP_COLONCOLON ->
  (forall name,
     ~ In (EvStdFindIdFallback name)
          (tokenToBison (call_env c)
             (grammar_action c (tokenToBison env s).1.1)).2)
  /\ count_import (tokenToBison (call_env c)
                     (grammar_action c (tokenToBison env s).1.1)).2 = 0%nat.
Proof.
  intros Ht. set (s1 := (tokenToBison env s).1.1).
  assert (m_afterColonColon (grammar_action c s1) = true) as Ha.
  { rewrite grammar_action_after. unfold s1.
    rewrite tokenToBison_after.
    destruct (tokenPipelineSym_shape env s)
      as (_ & _ & _ & _ & _ & Hcc & _).
    apply Hcc. by rewrite <- tokenToBison_yylval. }
  rewrite tokenToBison_events. split.
  - by destruct (tokenPipelineSym_shape (call_env c) (grammar_action c s1))
      as (_ & _ & _ & _ & _ & _ & _ & Hstd); apply Hstd.
  - destruct (tokenPipelineSym_import (call_env c) (grammar_action c s1))
      as (Hle & Hiff & _).
    destruct (decide (count_import
                (tokenPipelineSym (call_env c) (grammar_action c s1)).2
              = 1%nat)) as [H1|H1]; [|lia].
    apply Hiff in H1 as [(_ & _ & Hf & _) _]. congruence.
Qed.

Lemma no_std_lookup_after_colon_colon_witness :
  let s := V3ParseImp_init [mkYYS yP_COLONCOLON "::" None;
                            mkYYS yaID__LEX "process" None] in
  let c := mkCall unit_env None in
  (forall name,
     ~ In (EvStdFindIdFallback name)
          (tokenToBison (call_env c)
             (grammar_action c (tokenToBison unit_env s).1.1)).2)
  /\ count_import (tokenToBison (call_env c)
                     (grammar_action c (tokenToBison unit_env s).1.1)).2
     = 0%nat.
Proof.
  intros s c. by apply (no_std_lookup_after_colon_colon unit_env s c).
Defined.

Lemma run_uses calls :
  forall s,
    (usesStdPackage s = true -> usesStdPackage (run calls s).1.1 = true)
    /\ ((0 < count_import (run calls s).2)%nat ->
        usesStdPackage (run calls s).1.1 = true).
Proof.
  induction calls as [|c calls IH]; intros s.
  { cbn. split; [done|lia]. }
  rewrite run_cons. cbn [fst snd]. rewrite count_import_app.
  set (s0 := grammar_action c s).
  destruct (tokenPipelineSym_import (call_env c) s0)
    as (Hle & Hiff & Hk & Hset & _).
  destruct (IH (tokenToBison (call_env c) s0).1.1) as [IH1 IH2].
  rewrite tokenToBison_uses in IH1. rewrite tokenToBison_events.
  split.
  - intros Hu. apply IH1, Hk. unfold s0. by rewrite grammar_action_uses.
  - intros Hc.
    destruct (decide (count_import (tokenPipelineSym (call_env c) s0).2
                      = 1%nat)) as [H1|H1].
    + apply IH1, Hset. by apply Hiff in H1 as [? _].
    + apply IH2. lia.
Qed.

Lemma run_warned calls :
  forall s,
    warned s <= warned (run calls s).1.1
    /\ warned (run calls s).1.1 <= warned s + Z.of_nat (length calls)
    /\ ((0 < count_warn (run calls s).2)%nat ->
        0 < warned (run calls s).1.1).
Proof.
  induction calls as [|c calls IH]; intros s.
  { cbn. lia. }
  rewrite run_cons. cbn [fst snd length]. rewrite count_warn_app.
  set (s0 := grammar_action c s).
  assert (warned s0 = warned s) as Hs0 by apply grammar_action_warned.
  destruct (tokenPipelineSym_warn (call_env c) s0) as (Hle & Hiff & Hw & H1).
  rewrite tokenToBison_events.
  destruct (IH (tokenToBison (call_env c) s0).1.1) as (IH1 & IH2 & IH3).
  rewrite tokenToBison_warned in IH1, IH2.
  repeat split; [lia|lia|].
  intros Hc.
  destruct (decide (count_warn (tokenPipelineSym (call_env c) s0).2
                    = 1%nat)) as [Hc1|Hc1].
  - apply Hiff in Hc1 as Hc'. destruct Hc' as (_ & _ & _ & Hz).
    specialize (H1 Hc1). lia.
  - apply IH3. lia.
Qed.

(** X13.  The two memories of the symbol pass only ever grow over a run:
    the standard-package flag, once set, stays set, and is set at the end
    whenever the run spliced the implicit import; the diagnostic counter
    never decreases, grows by at most one per call, and is positive at the
    end whenever the run gave the diagnostic. *)
Theorem run_memories_grow calls s :
  (usesStdPackage s = true -> usesStdPackage (run calls s).1.1 = true)
  /\ ((0 < count_import (run calls s).2)%nat ->
      usesStdPackage (run calls s).1.1 = true)
  /\ warned s <= warned (run calls s).1.1
  /\ warned (run calls s).1.1 <= warned s + Z.of_nat (length calls)
  /\ ((0 < count_warn (run calls s).2)%nat -> 0 < warned (run calls s).1.1).
Proof.
  destruct (run_uses calls s) as [H1 H2].
  destruct (run_warned calls s) as (H3 & H4 & H5). done.
Qed.

(** ** The store of locations under [lexPpline] *)

Lemma links_below_mono n m h :
  (n <= m)%nat -> links_below n h -> links_below m h.
Proof.
  intros Hnm Hl. eapply Forall_impl; [exact Hl|].
  intros fl H p Hp. specialize (H p Hp). lia.
Qed.

Lemma lex_op_lint ignores op s s' :
  lex_op ignores op s = Some s' ->
  m_lexLintState s' = m_lexLintState s /\ errors s' = errors s.
Proof.
  assert (forall a f t t', on_FileLine a f t = Some t' ->
            m_lexLintState t' = m_lexLintState t /\ errors t' = errors t)
    as Hon.
  { intros a f t t'. unfold on_FileLine.
    destruct (heap t !! a); [|done]. by intros [= <-]. }
  assert (forall a t r, new_FileLine a t = Some r ->
            m_lexLintState r.2 = m_lexLintState t /\ errors r.2 = errors t)
    as Hnew.
  { intros a t r. unfold new_FileLine.
    destruct (heap t !! a); [|done]. by intros [= <-]. }
  assert (forall t t', lexPpline_exit t = Some t' ->
            m_lexLintState t' = m_lexLintState t /\ errors t' = errors t)
    as Hexit.
  { intros t t'. unfold lexPpline_exit.
    destruct (heap t !! m_lexFileline t) as [top|]; [|done]. cbn.
    destruct (fl_parent top) as [up|]; [|by intros [= <-]].
    destruct (new_FileLine up t) as [[newFl t1]|] eqn:Hn; [|done]. cbn.
    apply Hnew in Hn as [Hn1 Hn2]. cbn in Hn1, Hn2.
    destruct (heap t1 !! m_lexFileline t) as [prev|]; [|done]. cbn.
    intros Ho. apply Hon in Ho as [Ho1 Ho2]. cbn in Ho1, Ho2.
    split; congruence. }
  assert (forall n l t t', lexPpline_linefn ignores n l t = Some t' ->
            m_lexLintState t' = m_lexLintState t /\ errors t' = errors t)
    as Hline.
  { intros n l t t'. unfold lexPpline_linefn.
    destruct (on_FileLine _ (FileLine_filename n) t) as [t1|] eqn:H1;
      [|done]. cbn.
    destruct (on_FileLine _ (FileLine_lineno l) t1) as [t2|] eqn:H2;
      [|done]. cbn.
    intros H3. apply Hon in H1 as [? ?], H2 as [? ?], H3 as [? ?].
    split; congruence. }
  destruct op as [d same|f]; cbn [lex_op].
  - unfold lexPpline.
    destruct (decide (enterExit d = 1)) as [H1|H1].
    + unfold lexPpline_enter, copyOrSameFileLine.
      assert (forall t r, (if same
                then _ ← heap t !! m_lexFileline t; Some (m_lexFileline t, t)
                else new_FileLine (m_lexFileline t) t) = Some r ->
              m_lexLintState r.2 = m_lexLintState t
              /\ errors r.2 = errors t) as Hc.
      { intros t r. destruct same; [|apply Hnew].
        destruct (heap t !! m_lexFileline t); [|done]. by intros [= <-]. }
      destruct (if same then _ else _) as [[prevFl t1]|] eqn:Hp; [|done].
      apply Hc in Hp as [Hp1 Hp2]. cbn in Hp1, Hp2 |- *.
      destruct (new_FileLine prevFl t1) as [[newFl t2]|] eqn:Hn; [|done].
      apply Hnew in Hn as [Hn1 Hn2]. cbn in Hn1, Hn2 |- *.
      destruct (on_FileLine _ _ _) as [t3|] eqn:Ho; [|done].
      apply Hon in Ho as [Ho1 Ho2]. cbn in Ho1, Ho2 |- *.
      destruct (decide (enterExit d <> -1)); [|intros [= <-]; split; congruence].
      intros Hl. apply Hline in Hl as [? ?]. split; congruence.
    + destruct (decide (enterExit d = 2)) as [H2|H2].
      * destruct (lexPpline_exit s) as [t1|] eqn:He; [|done].
        apply Hexit in He as [? ?]. cbn.
        destruct (decide (enterExit d <> -1));
          [|intros [= <-]; split; congruence].
        intros Hl. apply Hline in Hl as [? ?]. split; congruence.
      * cbn. destruct (decide (enterExit d <> -1)); [|by intros [= <-]].
        apply Hline.
  - apply Hon.
Qed.


Lemma lex_wf_current s :
  lex_wf s -> exists fl, lexFileline s = Some fl.
Proof. intros [Hc _]. by apply lookup_lt_is_Some_2. Qed.

Lemma links_below_lookup n h a fl p :
  links_below n h -> h !! a = Some fl -> fl_parent fl = Some p ->
  (p < n)%nat.
Proof.
  intros Hl Ha Hp. unfold links_below in Hl.
  rewrite Forall_lookup in Hl. by eapply Hl.
Qed.

(** A change of the current location in place that keeps the parent link
    keeps the store free of dangling links. *)
Lemma lex_wf_touch f s fl :
  lex_wf s -> lexFileline s = Some fl ->
  fl_parent (f fl) = fl_parent fl ->
  exists s',
    on_FileLine (m_lexFileline s) f s = Some s'
    /\ lex_wf s'
    /\ m_lexFileline s' = m_lexFileline s
    /\ length (heap s') = length (heap s)
    /\ lexFileline s' = Some (f fl)
    /\ (forall a, a <> m_lexFileline s -> heap s' !! a = heap s !! a).
Proof.
  intros [Hc Hl] Hfl Hf.
  destruct (lex_touch_spec f s fl Hfl)
    as (s' & Hs' & Hcur & Hlen & Htop & Hfr & _).
  exists s'. repeat split; try done; [lia|].
  rewrite Hlen. unfold on_FileLine in Hs'. unfold lexFileline in Hfl.
  rewrite Hfl in Hs'. cbn in Hs'. injection Hs' as <-. cbn.
  apply Forall_insert; [done|]. intros p Hp. rewrite Hf in Hp.
  by eapply links_below_lookup.
Qed.

(** The enter branch, spelled out: the objects it allocates. *)
Lemma lexPpline_enter_eq same s fl :
  lexFileline s = Some fl ->
  lexPpline_enter same s
  = Some (lexFileline_set
            (length (heap s) + (if same then 0 else 1))
            (set_heap
               (heap s ++ (if same then [] else [fl])
                ++ [FileLine_parent
                      (Some (if same then m_lexFileline s
                             else length (heap s))) fl]) s)).
Proof.
  intros H. unfold lexFileline in H. pose proof (lookup_lt_Some _ _ _ H).
  unfold lexPpline_enter, copyOrSameFileLine.
  destruct same; cbn.
  - rewrite H. cbn.
    rewrite (new_FileLine_spec _ _ fl) by done. cbn.
    unfold on_FileLine. cbn. rewrite lookup_snoc_last. cbn.
    by rewrite insert_snoc_last, Nat.add_0_r.
  - rewrite (new_FileLine_spec _ _ fl) by done. cbn.
    rewrite (new_FileLine_spec _ _ fl) by (cbn; apply lookup_snoc_last).
    cbn. unfold on_FileLine. cbn.
    rewrite lookup_snoc_last. cbn. rewrite insert_snoc_last.
    rewrite length_app. cbn. by rewrite <- app_assoc.
Qed.

(** The three ways a directive can begin (enter, exit, neither): each
    succeeds on a store without dangling links, keeps it so, changes no
    object that existed, and leaves the current location where it was or
    moves it to a fresh object. *)
Lemma lexPpline_branch_store same s (e : Z) :
  lex_wf s ->
  exists s1,
    (if decide (e = 1) then lexPpline_enter same s
     else if decide (e = 2) then lexPpline_exit s else Some s) = Some s1
    /\ lex_wf s1
    /\ (length (heap s) <= length (heap s1))%nat
    /\ (forall a, (a < length (heap s))%nat -> heap s1 !! a = heap s !! a)
    /\ (m_lexFileline s1 = m_lexFileline s
        \/ (length (heap s) <= m_lexFileline s1)%nat).
Proof.
  intros Hwf. destruct (lex_wf_current s Hwf) as [fl Hfl].
  destruct Hwf as [Hc Hl].
  assert (forall p, fl_parent fl = Some p -> (p < length (heap s))%nat)
    as Hflp by (intros p; by eapply links_below_lookup).
  destruct (decide (e = 1)) as [_|_]; [|destruct (decide (e = 2)) as [_|_]].
  - rewrite (lexPpline_enter_eq same s fl Hfl). eexists. split; [done|].
    cbn. rewrite !length_app.
    split; [|split; [lia|split; [|right; lia]]].
    + split; cbn; rewrite !length_app.
      { destruct same; cbn; lia. }
      apply Forall_app. split.
      { eapply links_below_mono; [|done]. lia. }
      apply Forall_app. split.
      * destruct same; [by constructor|].
        constructor; [|by constructor]. intros p Hp.
        specialize (Hflp p Hp). lia.
      * constructor; [|by constructor]. cbn. intros p [= <-].
        destruct same; cbn; lia.
    + intros a Ha. by rewrite lookup_app_l.
  - unfold lexPpline_exit. unfold lexFileline in Hfl. rewrite Hfl. cbn.
    destruct (fl_parent fl) as [up|] eqn:Hup.
    + assert (up < length (heap s))%nat as Hupl by by apply Hflp.
      destruct (lookup_lt_is_Some_2 _ _ Hupl) as [pf Hpf].
      rewrite (new_FileLine_spec _ _ pf) by done. cbn.
      rewrite lookup_app_l, Hfl by done. cbn.
      unfold on_FileLine. cbn. rewrite lookup_snoc_last. cbn.
      rewrite insert_snoc_last. eexists. split; [done|]. cbn.
      rewrite !length_app. cbn.
      split; [|split; [lia|split; [|right; lia]]].
      * split; cbn; rewrite !length_app; cbn; [lia|].
        apply Forall_app. split.
        { eapply links_below_mono; [|done]. lia. }
        constructor; [|by constructor]. cbn. intros p Hp.
        assert (p < length (heap s))%nat
          by by eapply links_below_lookup.
        lia.
      * intros a Ha. by rewrite lookup_app_l.
    + exists s. repeat split; try done. by left.
  - exists s. repeat split; try done. by left.
Qed.

Lemma lexPpline_store ignores d same s :
  lex_wf s ->
  exists s',
    lexPpline ignores d same s = Some s'
    /\ lex_wf s'
    /\ (length (heap s) <= length (heap s'))%nat
    /\ (forall a, (a < length (heap s))%nat -> a <> m_lexFileline s ->
                  heap s' !! a = heap s !! a)
    /\ (m_lexFileline s' <> m_lexFileline s ->
        (length (heap s) <= m_lexFileline s')%nat
        /\ heap s' !! m_lexFileline s = heap s !! m_lexFileline s).
Proof.
  intros Hwf.
  destruct (lexPpline_branch_store same s (enterExit d) Hwf)
    as (s1 & Hs1 & Hwf1 & Hlen1 & Hold1 & Hcur1).
  unfold lexPpline. rewrite Hs1. cbn [mbind option_bind].
  pose proof Hwf as [Hc _].
  destruct (decide (enterExit d <> -1)) as [_|_].
  - destruct (lex_wf_current s1 Hwf1) as [fl1 Hfl1].
    rewrite (lexPpline_linefn_spec _ _ _ _ _ Hfl1).
    destruct (lex_wf_touch
                (fun fl => FileLine_applyIgnores ignores
                   (FileLine_lineno (newLineno d)
                      (FileLine_filename (newFilename d) fl)))
                s1 fl1 Hwf1 Hfl1 eq_refl)
      as (s' & Hs' & Hwf' & Hcur' & Hlen' & _ & Hfr).
    exists s'. split; [done|]. split; [done|]. rewrite Hlen', Hcur'.
    split; [done|]. split.
    + intros a Ha Hne. rewrite Hfr; [by apply Hold1|].
      destruct Hcur1 as [->|?]; [done|lia].
    + intros Hne. destruct Hcur1 as [?|Hge]; [done|]. split; [done|].
      rewrite Hfr by lia. by apply Hold1.
  - exists s1. split; [done|]. split; [done|]. split; [done|].
    split; [intros a Ha _; by apply Hold1|].
    intros Hne. destruct Hcur1 as [?|Hge]; [done|]. split; [done|].
    by apply Hold1.
Qed.

(** X14.  On a store of locations without dangling links a [`line]
    directive of any kind succeeds and leaves such a store; it frees
    nothing, reports no error and leaves the lint stack alone; the only
    existing object it may change is the current location, and when the
    current location moves it moves to a fresh object while the old one
    stays as it was: locations already handed out to tokens and nodes are
    never rewritten by entering or leaving a file. *)
Theorem lexPpline_keeps_store ignores d same s :
  lex_wf s ->
  exists s',
    lexPpline ignores d same s = Some s'
    /\ lex_wf s'
    /\ (length (heap s) <= length (heap s'))%nat
    /\ (forall a, (a < length (heap s))%nat -> a <> m_lexFileline s ->
                  heap s' !! a = heap s !! a)
    /\ (m_lexFileline s' <> m_lexFileline s ->
        (length (heap s) <= m_lexFileline s')%nat
        /\ heap s' !! m_lexFileline s = heap s !! m_lexFileline s)
    /\ m_lexLintState s' = m_lexLintState s
    /\ errors s' = errors s.
Proof.
  intros Hwf.
  destruct (lexPpline_store ignores d same s Hwf)
    as (s' & Hs' & Hwf' & Hlen & Hold & Hmove).
  destruct (lex_op_lint ignores (LexDirective d same) s s' Hs')
    as [Hst Herr].
  by exists s'.
Qed.

Lemma lexPpline_keeps_store_witness :
  exists s',
    lexPpline (fun _ _ w => w) (mkLineDirective "a.vh" 1 1) true lex_top_v
    = Some s'
    /\ lex_wf s'
    /\ (1 <= length (heap s'))%nat
    /\ (forall a, (a < 1)%nat -> a <> 0%nat -> heap s' !! a = [top_v] !! a)
    /\ (m_lexFileline s' <> 0%nat ->
        (1 <= m_lexFileline s')%nat /\ heap s' !! 0%nat = Some top_v)
    /\ m_lexLintState s' = []
    /\ errors s' = [].
Proof.
  apply (lexPpline_keeps_store (fun _ _ w => w)
           (mkLineDirective "a.vh" 1 1) true lex_top_v).
  split; [cbn; lia|]. repeat constructor. cbn. discriminate.
Defined.

(** X15.  What a [`line] directive with flag 2 leaves as the current
    location.  With a parent: a fresh object that has the filename and the
    line of the directive, the parent link of the parent (one level up),
    the suppression set of the parent with the ignore ranges of the new
    place applied, and the content-line counter of the location left;
    nothing that existed is changed.  Without a parent: the old object,
    renamed in place. *)
Theorem lexPpline_exit_directive_result ignores d same s fl :
  enterExit d = 2 ->
  lexFileline s = Some fl ->
  (forall up pf,
     fl_parent fl = Some up -> heap s !! up = Some pf ->
     exists s',
       lexPpline ignores d same s = Some s'
       /\ m_lexFileline s' = length (heap s)
       /\ heap s'
          = heap s
            ++ [{| fl_filename := newFilename d;
                   fl_lineno := newLineno d;
                   fl_contentLineno := fl_contentLineno fl;
                   fl_warnOff := ignores (newFilename d) (newLineno d)
                                         (fl_warnOff pf);
                   fl_parent := fl_parent pf |}])
  /\ (fl_parent fl = None ->
      exists s',
        lexPpline ignores d same s = Some s'
        /\ m_lexFileline s' = m_lexFileline s
        /\ heap s'
           = <[m_lexFileline s :=
                 {| fl_filename := newFilename d;
                    fl_lineno := newLineno d;
                    fl_contentLineno := fl_contentLineno fl;
                    fl_warnOff := ignores (newFilename d) (newLineno d)
                                          (fl_warnOff fl);
                    fl_parent := None |}]> (heap s)).
Proof.
  intros He Hfl. split.
  - intros up pf Hup Hpf.
    rewrite (lexPpline_exit_directive_spec _ _ _ _ _ _ _ He Hfl Hup Hpf).
    by eexists.
  - intros Hno.
    rewrite (lexPpline_rename_spec ignores d same s fl) by (done || lia).
    eexists. split; [done|]. split; [done|]. cbn.
    unfold FileLine_applyIgnores. cbn. by rewrite Hno.
Qed.

Lemma lexPpline_exit_directive_result_witness :
  let a_vh := {| fl_filename := "a.vh"; fl_lineno := 3;
                 fl_contentLineno := 13; fl_warnOff := {["WIDTH"]};
                 fl_parent := Some 0%nat |} in
  let s := {| heap := [top_v; a_vh]; m_lexFileline := 1;
              m_lexLintState := []; errors := [] |} in
  exists s',
    lexPpline (fun _ _ w => w) (mkLineDirective "top.v" 11 2) true s
    = Some s'
    /\ m_lexFileline s' = 2%nat
    /\ heap s'
       = [top_v; a_vh;
          {| fl_filename := "top.v"; fl_lineno := 11;
             fl_contentLineno := 13; fl_warnOff := ∅;
             fl_parent := None |}].
Proof.
  intros a_vh s.
  exact (proj1 (lexPpline_exit_directive_result (fun _ _ w => w)
                  (mkLineDirective "top.v" 11 2) true s a_vh
                  eq_refl eq_refl)
               0%nat top_v eq_refl eq_refl).
Defined.






(** The include of the witness, evaluated: the counter of the location
    current when the leaving directive is met, and the location that the
    directive leaves. *)
Example lexPpline_include_counter :
  (s2 ← lex_ops (fun _ _ w => w)
          [LexDirective (mkLineDirective "a.vh" 1 1) true;
           LexTouch FileLine_linenoInc;
           LexDirective (mkLineDirective "b.vh" 1 1) false;
           LexTouch FileLine_linenoInc;
           LexDirective (mkLineDirective "a.vh" 3 2) true;
           LexTouch FileLine_linenoInc] lex_top_v;
   fl2 ← lexFileline s2;
   s' ← lex_ops (fun _ _ w => w)
          [LexDirective (mkLineDirective "top.v" 11 2) true] s2;
   fl' ← lexFileline s';
   Some (fl_filename fl2, fl_contentLineno fl2,
         fl_filename fl', fl_lineno fl', fl_contentLineno fl'))
  = Some ("a.vh", 13, "top.v", 11, 13).
Proof. reflexivity. Qed.

(** ** Comments for the lexer *)

Lemma skip_while_app p w r :
  Forall (fun c => p c = true) w -> stops p r ->
  skip_while p (w ++ r) = r.
Proof.
  intros Hw Hr. induction Hw as [|c w Hc _ IH]; cbn [app].
  - destruct r as [|c r]; [done|]. cbn. by rewrite (Hr c).
  - cbn. by rewrite Hc.
Qed.

Lemma take_while_app p w r :
  Forall (fun c => p c = true) w -> stops p r ->
  take_while p (w ++ r) = w.
Proof.
  intros Hw Hr. induction Hw as [|c w Hc _ IH]; cbn [app].
  - destruct r as [|c r]; [done|]. cbn. by rewrite (Hr c).
  - cbn. by rewrite Hc, IH.
Qed.

Lemma stops_app p w r :
  w <> [] -> Forall (fun c => p c = false) w -> stops p (w ++ r).
Proof.
  intros Hne Hw c. destruct w as [|x w]; [done|]. cbn. intros [= <-].
  by apply Forall_cons in Hw as [? _].
Qed.

Lemma find_char_app c m rest :
  c ∉ m -> (rest = [] \/ head rest = Some c) ->
  match find_char c (m ++ rest) with
  | Some pos => take pos (m ++ rest)
  | None => m ++ rest
  end = m.
Proof.
  intros Hm Hr. induction m as [|x m IH]; cbn [app].
  - destruct Hr as [->|Hr]; [done|]. destruct rest as [|y rest]; [done|].
    cbn in Hr. injection Hr as ->. cbn. by rewrite decide_True.
  - apply not_elem_of_cons in Hm as [Hx Hm]. specialize (IH Hm). cbn.
    rewrite decide_False by done.
    destruct (find_char c (m ++ rest)) as [pos|]; cbn; by f_equal.
Qed.

Lemma lint_msg_spec w1 sp1 w2 sp2 m rest :
  Forall (fun c => isspace c = false) w1 ->
  sp1 <> [] -> Forall (fun c => isspace c = true) sp1 ->
  w2 <> [] -> Forall (fun c => isspace c = false) w2 ->
  sp2 <> [] -> Forall (fun c => isspace c = true) sp2 ->
  stops isspace m -> "*"%char ∉ m ->
  (rest = [] \/ head rest = Some "*"%char) ->
  lint_msg (w1 ++ sp1 ++ w2 ++ sp2 ++ m ++ rest) = m.
Proof.
  intros Hw1 Hn1 Hs1 Hn2 Hw2 Hn3 Hs2 Hm Hstar Hrest. unfold lint_msg.
  assert (forall w, Forall (fun c => isspace c = false) w ->
            Forall (fun c => negb (isspace c) = true) w) as Hneg.
  { intros w Hw. eapply Forall_impl; [exact Hw|]. by intros c ->. }
  assert (forall w, Forall (fun c => isspace c = true) w ->
            Forall (fun c => negb (isspace c) = false) w) as Hpos.
  { intros w Hw. eapply Forall_impl; [exact Hw|]. by intros c ->. }
  rewrite (skip_while_app _ w1) by (by auto using stops_app).
  rewrite (skip_while_app _ sp1) by (by auto using stops_app).
  rewrite (skip_while_app _ w2) by (by auto using stops_app).
  rewrite (skip_while_app _ sp2).
  - by apply find_char_app.
  - done.
  - intros c. destruct m as [|x m]; [|apply Hm].
    cbn. destruct Hrest as [->|Hr]; [done|]. rewrite Hr. by intros [= <-].
Qed.

Lemma FileLine_warnStateFrom_same fl : FileLine_warnStateFrom fl fl = fl.
Proof. by destruct fl. Qed.

(** One lint comment: only the suppression set of the current location
    can change, and only errors can be added. *)
Lemma lexVerilatorCmtLint_spec known isFuture fl textp flag s cur :
  lexFileline s = Some cur ->
  exists s' cur',
    lexVerilatorCmtLint known isFuture fl textp flag s = Some s'
    /\ m_lexFileline s' = m_lexFileline s
    /\ m_lexLintState s' = m_lexLintState s
    /\ heap s' = <[m_lexFileline s := cur']> (heap s)
    /\ cur' = (FileLine_warnOff known
                 (String.string_of_list_ascii (lint_msg textp)) flag cur).2
    /\ (forall x, FileLine_warnStateFrom x cur' = FileLine_warnStateFrom x cur)
    /\ exists more, errors s' = errors s ++ more.
Proof.
  intros Hcur. unfold lexFileline in Hcur. unfold lexVerilatorCmtLint.
  cbv zeta. rewrite Hcur. cbn [mbind option_bind].
  set (msg := String.string_of_list_ascii (lint_msg textp)).
  unfold FileLine_warnOff.
  destruct (known msg); cbn [negb snd].
  - eexists _, _. split; [done|]. cbn. repeat split; try done.
    exists []. by rewrite app_nil_r.
  - destruct (isFuture msg); cbn [negb].
    + eexists _, _. split; [done|]. cbn. repeat split; try done.
      exists []. by rewrite app_nil_r.
    + eexists _, _. split; [done|]. cbn. repeat split; try done.
      by eexists.
Qed.

(** X17.  A lint comment of the usual form, two words and then the code,
    as in [/*verilator lint_off WIDTH*/]: the code is what stands between
    the blanks after the second word and the first [*], blanks before the
    [*] included.  A known code is switched on the current location of the
    lexer, not on the location handed in; an unknown code changes nothing
    and is reported on the location handed in, naming the code and the
    whole comment, unless it is reserved for future use. *)
Theorem lexVerilatorCmtLint_comment known isFuture fl flag s cur
    w1 sp1 w2 sp2 m rest :
  Forall (fun c => isspace c = false) w1 ->
  sp1 <> [] -> Forall (fun c => isspace c = true) sp1 ->
  w2 <> [] -> Forall (fun c => isspace c = false) w2 ->
  sp2 <> [] -> Forall (fun c => isspace c = true) sp2 ->
  stops isspace m -> "*"%char ∉ m ->
  (rest = [] \/ head rest = Some "*"%char) ->
  lexFileline s = Some cur ->
  let textp := w1 ++ sp1 ++ w2 ++ sp2 ++ m ++ rest in
  let msg := String.string_of_list_ascii m in
  exists s',
    lexVerilatorCmtLint known isFuture fl textp flag s = Some s'
    /\ m_lexFileline s' = m_lexFileline s
    /\ m_lexLintState s' = m_lexLintState s
    /\ (forall a, a <> m_lexFileline s -> heap s' !! a = heap s !! a)
    /\ (known msg = true ->
        errors s' = errors s
        /\ lexFileline s'
           = Some {| fl_filename := fl_filename cur;
                     fl_lineno := fl_lineno cur;
                     fl_contentLineno := fl_contentLineno cur;
                     fl_warnOff := if flag then fl_warnOff cur ∪ {[msg]}
                                   else fl_warnOff cur ∖ {[msg]};
                     fl_parent := fl_parent cur |})
    /\ (known msg = false ->
        heap s' = heap s
        /\ (isFuture msg = true -> errors s' = errors s)
        /\ (isFuture msg = false ->
            errors s'
            = errors s
              ++ [(fl, "Unknown verilator lint message code: '" +:+ msg
                       +:+ "', in '" +:+ String.string_of_list_ascii textp
                       +:+ "'")])).
Proof.
  intros Hw1 Hn1 Hs1 Hn2 Hw2 Hn3 Hs2 Hm Hstar Hrest Hcur textp msg.
  pose proof (lint_msg_spec w1 sp1 w2 sp2 m rest Hw1 Hn1 Hs1 Hn2 Hw2 Hn3
                Hs2 Hm Hstar Hrest) as Hmsg.
  fold textp in Hmsg.
  unfold lexFileline in Hcur. pose proof (lookup_lt_Some _ _ _ Hcur) as Hlt.
  unfold lexVerilatorCmtLint. cbv zeta. rewrite Hcur, Hmsg.
  cbn [mbind option_bind]. fold msg. unfold FileLine_warnOff.
  destruct (known msg); cbn [negb].
  - eexists. split; [done|]. cbn. split; [done|]. split; [done|].
    split; [intros a Ha; by apply list_lookup_insert_ne|].
    split; [|done]. intros _. split; [done|].
    unfold lexFileline. cbn. by apply list_lookup_insert_eq.
  - destruct (isFuture msg); cbn [negb].
    + eexists. split; [done|]. cbn. split; [done|]. split; [done|].
      split; [intros a Ha; by apply list_lookup_insert_ne|].
      split; [done|]. intros _. split; [by apply list_insert_id|done].
    + eexists. split; [done|]. cbn. split; [done|]. split; [done|].
      split; [intros a Ha; by apply list_lookup_insert_ne|].
      split; [done|]. intros _. split; [by apply list_insert_id|done].
Qed.

Lemma lexVerilatorCmtLint_comment_witness :
  let known := fun msg => bool_decide (msg = "WIDTH") in
  let textp := String.list_ascii_of_string "/*verilator lint_off WIDTH*/" in
  exists s',
    lexVerilatorCmtLint known (fun _ => false) 0 textp true lex_top_v
    = Some s'
    /\ errors s' = []
    /\ lexFileline s'
       = Some {| fl_filename := "top.v"; fl_lineno := 10;
                 fl_contentLineno := 10; fl_warnOff := ∅ ∪ {["WIDTH"]};
                 fl_parent := None |}.
Proof.
  intros known textp.
  assert (Forall (fun c => isspace c = false)
            (String.list_ascii_of_string "/*verilator")) as H1
    by (repeat constructor).
  assert (Forall (fun c => isspace c = true)
            (String.list_ascii_of_string " ")) as H2
    by (repeat constructor).
  assert (Forall (fun c => isspace c = false)
            (String.list_ascii_of_string "lint_off")) as H3
    by (repeat constructor).
  assert (stops isspace (String.list_ascii_of_string "WIDTH")) as H4
    by (by intros c [= <-]).
  assert ("*"%char ∉ String.list_ascii_of_string "WIDTH") as H5.
  { rewrite list_elem_of_In. cbn. intuition discriminate. }
  destruct (lexVerilatorCmtLint_comment known (fun _ => false) 0%nat true
              lex_top_v top_v
              (String.list_ascii_of_string "/*verilator")
              (String.list_ascii_of_string " ")
              (String.list_ascii_of_string "lint_off")
              (String.list_ascii_of_string " ")
              (String.list_ascii_of_string "WIDTH")
              (String.list_ascii_of_string "*/")
              H1 ltac:(discriminate) H2 ltac:(discriminate) H3
              ltac:(discriminate) H2 H4 H5 (or_intror eq_refl) eq_refl)
    as (s' & Hs' & _ & _ & _ & Hk & _).
  exists s'. split; [exact Hs'|]. by apply Hk.
Defined.

Lemma lint_ops_app known isFuture ops1 ops2 s :
  lint_ops known isFuture (ops1 ++ ops2) s
  = s1 ← lint_ops known isFuture ops1 s; lint_ops known isFuture ops2 s1.
Proof.
  revert s. induction ops1 as [|op ops1 IH]; intros s; [done|].
  cbn [app lint_ops]. destruct (lint_op known isFuture op s) as [s1|];
    [|done].
  cbn [mbind option_bind]. apply IH.
Qed.

(** A save, comments that change the suppression set of the current
    location only, and the restore. *)
Lemma lint_block_spec known isFuture inner s saved :
  (forall s1, is_Some (lexFileline s1) ->
     exists s2, lint_ops known isFuture inner s1 = Some s2
                /\ lint_changes s1 s2) ->
  lexFileline s = Some saved ->
  exists s',
    lint_ops known isFuture (LintSave :: inner ++ [LintRestore]) s = Some s'
    /\ heap s' = heap s
    /\ m_lexFileline s' = m_lexFileline s
    /\ m_lexLintState s' = m_lexLintState s
    /\ exists more, errors s' = errors s ++ more.
Proof.
  intros Hinner Hsaved. unfold lexFileline in Hsaved.
  pose proof (lookup_lt_Some _ _ _ Hsaved) as Hlt.
  cbn [lint_ops lint_op].
  rewrite (lexVerilatorCmtLintSave_spec _ _ _ Hsaved).
  cbn [mbind option_bind].
  set (s1 := set_lexLintState _ s).
  destruct (Hinner s1 ltac:(by exists saved))
    as (s2 & Hs2 & Hc2 & Hst2 & (cur & cur2 & Hcur & Hh2 & Hw2) & more & He2).
  assert (cur = saved) as -> by (unfold lexFileline in Hcur; cbn in Hcur;
                                 congruence).
  rewrite lint_ops_app, Hs2. cbn [mbind option_bind lint_ops lint_op].
  assert (heap s2 !! m_lexFileline s2 = Some cur2) as Hcur2.
  { rewrite Hc2, Hh2. by apply list_lookup_insert_eq. }
  rewrite (lexVerilatorCmtLintRestore_spec _ s2 (m_lexLintState s) saved
             cur2 Hst2 Hcur2).
  cbn [mbind option_bind].
  assert (<[m_lexFileline s2 := FileLine_warnStateFrom saved cur2]>
            (heap s2) = heap s) as Hheap.
  { rewrite Hc2, Hh2. cbn. rewrite list_insert_insert_eq.
    rewrite Hw2, FileLine_warnStateFrom_same. by apply list_insert_id. }
  eexists. split; [done|]. cbn. rewrite Hheap.
  split; [done|]. split; [done|]. split; [done|]. by exists more.
Qed.

Lemma lint_body_spec known isFuture ops :
  lint_body ops ->
  forall s, is_Some (lexFileline s) ->
    exists s', lint_ops known isFuture ops s = Some s' /\ lint_changes s s'.
Proof.
  induction 1 as [|fl textp warnOff ops _ IH|inner ops _ IHi _ IH];
    intros s [cur Hcur].
  - exists s. split; [done|]. split; [done|]. split; [done|]. split.
    + exists cur, cur. split; [done|]. split; [|done].
      by rewrite list_insert_id.
    + exists []. by rewrite app_nil_r.
  - destruct (lexVerilatorCmtLint_spec known isFuture fl textp warnOff
                s cur Hcur)
      as (s1 & cur1 & Hs1 & Hc1 & Hst1 & Hh1 & _ & Hw1 & more1 & He1).
    assert (lexFileline s1 = Some cur1) as Hcur1.
    { unfold lexFileline. rewrite Hc1, Hh1.
      apply list_lookup_insert_eq. by eapply lookup_lt_Some. }
    destruct (IH s1 ltac:(by exists cur1))
      as (s' & Hs' & Hc' & Hst' & (cur1' & cur' & Hcur1' & Hh' & Hw')
          & more' & He').
    assert (cur1' = cur1) as -> by congruence.
    exists s'. cbn [lint_ops lint_op]. rewrite Hs1.
    cbn [mbind option_bind]. split; [done|].
    split; [congruence|]. split; [congruence|]. split.
    + exists cur, cur'. split; [done|]. split.
      * by rewrite Hh', Hc1, Hh1, list_insert_insert_eq.
      * intros x. by rewrite Hw', Hw1.
    + exists (more1 ++ more'). by rewrite He', He1, app_assoc.
  - destruct (lint_block_spec known isFuture inner s cur IHi Hcur)
      as (s3 & Hs3 & Hh3 & Hc3 & Hst3 & more3 & He3).
    assert (lexFileline s3 = Some cur) as Hcur3
      by (unfold lexFileline; by rewrite Hc3, Hh3).
    destruct (IH s3 ltac:(by exists cur))
      as (s' & Hs' & Hc' & Hst' & (cur3 & cur' & Hcur3' & Hh' & Hw')
          & more' & He').
    assert (cur3 = cur) as -> by congruence.
    exists s'.
    replace (LintSave :: inner ++ LintRestore :: ops)
      with ((LintSave :: inner ++ [LintRestore]) ++ ops)
      by (cbn; by rewrite <- app_assoc).
    rewrite lint_ops_app, Hs3. cbn [mbind option_bind].
    split; [done|]. split; [congruence|]. split; [congruence|]. split.
    + exists cur, cur'. split; [done|]. split; [|done].
      by rewrite Hh', Hc3, Hh3.
    + exists (more3 ++ more'). by rewrite He', He3, app_assoc.
Qed.

(** X18.  Lint saves and restores nest.  From [lint_save] to its
    [lint_restore], whatever lint comments stand in between, further
    saves with their restores included, every location (the current one
    included), the current-location pointer and the lint stack come back
    exactly as they were before the save, whatever codes the comments
    switched; all that can remain are the errors reported in between.
    With nothing in between the state as a whole is unchanged. *)
Theorem lint_save_comments_restore known isFuture inner s saved :
  lint_body inner ->
  lexFileline s = Some saved ->
  exists s',
    lint_ops known isFuture (LintSave :: inner ++ [LintRestore]) s = Some s'
    /\ heap s' = heap s
    /\ m_lexFileline s' = m_lexFileline s
    /\ m_lexLintState s' = m_lexLintState s
    /\ (exists more, errors s' = errors s ++ more)
    /\ (inner = [] -> s' = s).
Proof.
  intros Hin Hsaved.
  destruct (lint_block_spec known isFuture inner s saved
              (lint_body_spec known isFuture inner Hin) Hsaved)
    as (s' & Hs' & Hh & Hc & Hst & He).
  exists s'. repeat (split; [done|]).
  intros ->. cbn [app lint_ops lint_op] in Hs'.
  unfold lexFileline in Hsaved.
  rewrite (lexVerilatorCmtLintSave_spec _ _ _ Hsaved) in Hs'.
  cbn [mbind option_bind] in Hs'.
  rewrite (lexVerilatorCmtLintRestore_spec
             (m_lexFileline
                (set_lexLintState (m_lexLintState s ++ [saved]) s))
             (set_lexLintState (m_lexLintState s ++ [saved]) s)
             (m_lexLintState s) saved saved eq_refl Hsaved) in Hs'.
  cbn [mbind option_bind] in Hs'. injection Hs' as <-.
  rewrite FileLine_warnStateFrom_same. cbn.
  rewrite list_insert_id by done. by destruct s.
Qed.

Lemma lint_save_comments_restore_witness :
  let known := fun msg => bool_decide (msg = "WIDTH") in
  let off := fun text =>
    LintComment 0 (String.list_ascii_of_string text) true in
  let inner :=
    [off "/*verilator lint_off WIDTH*/";
     LintSave; off "/*verilator lint_off FOO*/"; LintRestore;
     off "/*verilator lint_off WIDTH*/"] in
  exists s',
    lint_ops known (fun _ => false) (LintSave :: inner ++ [LintRestore])
             lex_top_v = Some s'
    /\ heap s' = [top_v]
    /\ m_lexFileline s' = 0%nat
    /\ m_lexLintState s' = []
    /\ (exists more, errors s' = [] ++ more)
    /\ (inner = [] -> s' = lex_top_v).
Proof.
  intros known off inner.
  apply (lint_save_comments_restore known (fun _ => false) inner lex_top_v
           top_v); [|reflexivity].
  apply lint_body_comment.
  apply (lint_body_block [off "/*verilator lint_off FOO*/"]
           [off "/*verilator lint_off WIDTH*/"]);
    apply lint_body_comment, lint_body_nil.
Defined.

Lemma rfind_close t :
  rfind (String.list_ascii_of_string "*/")
        (t ++ String.list_ascii_of_string "*/")
  = Some (length t).
Proof.
  induction t as [|c t IH]; [by vm_compute|].
  cbn [app rfind length]. by rewrite IH.
Qed.

Lemma rfind_none pat t :
  pat <> [] ->
  (forall k, ~ pat `prefix_of` drop k t) -> rfind pat t = None.
Proof.
  intros Hpat. induction t as [|c t IH]; intros Hno; cbn [rfind].
  - by rewrite bool_decide_eq_false_2.
  - rewrite IH by (intros k; apply (Hno (S k))).
    rewrite bool_decide_eq_false_2; [done|]. apply (Hno 0%nat).
Qed.

(** X19.  The tag of a [/*verilator tag ...*/] comment is the text between
    the sixteen characters of the opener and the closing [*/], whatever the
    text holds, also [*] and [*/]; with no [*/] at all it is all that
    follows the opener.  A text shorter than the opener has no tag: the
    code would read beyond the string. *)
Theorem lexParseTag_round_trip pre t :
  length pre = 16%nat ->
  lexParseTag (pre ++ t ++ String.list_ascii_of_string "*/") = Some t
  /\ ((forall k, ~ String.list_ascii_of_string "*/" `prefix_of` drop k t) ->
      lexParseTag (pre ++ t) = Some t)
  /\ (forall short, (length short < 16)%nat -> lexParseTag short = None).
Proof.
  intros Hpre. unfold lexParseTag. change (String.length _) with 16%nat.
  split; [|split].
  - rewrite decide_False by (rewrite length_app; lia).
    rewrite <- Hpre, drop_app_length. cbv zeta. rewrite rfind_close.
    by rewrite take_app_length.
  - intros Hno. rewrite decide_False by (rewrite length_app; lia).
    rewrite <- Hpre, drop_app_length. cbv zeta.
    by rewrite rfind_none.
  - intros short Hshort. by rewrite decide_True.
Qed.

Lemma lexParseTag_round_trip_witness :
  lexParseTag (String.list_ascii_of_string "/*verilator tag a*/b"
               ++ String.list_ascii_of_string "*/")
  = Some (String.list_ascii_of_string "a*/b").
Proof.
  exact (proj1 (lexParseTag_round_trip
                  (String.list_ascii_of_string "/*verilator tag ")
                  (String.list_ascii_of_string "a*/b") eq_refl)).
Defined.

Lemma isalnum_not_space c : isalnum c = true -> isspace c = false.
Proof.
  unfold isalnum, isspace. cbv zeta. generalize (nat_of_ascii c). intros n.
  rewrite !orb_true_iff, !andb_true_iff, !Nat.leb_le.
  intros H. apply orb_false_iff. rewrite Nat.eqb_neq. split; [lia|].
  apply andb_false_iff. rewrite !Nat.leb_gt. lia.
Qed.

(** X20.  A comment [/*verilator name ...*/] that the lexer does not know:
    the name is the word of letters and digits after the opener and any
    blanks; the comment is an error, quoted in full on the location handed
    in, unless the name is reserved for future use; nothing else of the
    state changes. *)
Theorem lexVerilatorCmtBad_comment isFuture fl s sp name rest :
  Forall (fun c => isspace c = true) sp ->
  Forall (fun c => isalnum c = true) name ->
  stops isalnum rest ->
  (name = [] -> stops isspace rest) ->
  let textp :=
    String.list_ascii_of_string "/*verilator" ++ sp ++ name ++ rest in
  (isFuture (String.string_of_list_ascii name) = true ->
   lexVerilatorCmtBad isFuture fl textp s = s)
  /\ (isFuture (String.string_of_list_ascii name) = false ->
      lexVerilatorCmtBad isFuture fl textp s
      = v3error fl ("Unknown verilator comment: '"
                    +:+ String.string_of_list_ascii textp +:+ "'") s).
Proof.
  intros Hsp Hname Hrest Hempty textp. unfold lexVerilatorCmtBad. cbv zeta.
  assert (take_while isalnum
            (skip_while isspace
               (if bool_decide (take (String.length "/*verilator") textp
                                = String.list_ascii_of_string "/*verilator")
                then drop (String.length "/*verilator") textp else textp))
          = name) as ->.
  { rewrite bool_decide_eq_true_2 by done.
    change (drop _ textp) with (sp ++ name ++ rest).
    rewrite skip_while_app; [by apply take_while_app|done|].
    destruct name as [|c name]; [by apply Hempty|].
    intros ? [= <-]. apply Forall_cons in Hname as [Hc _].
    by apply isalnum_not_space. }
  split; intros ->; done.
Qed.

Lemma lexVerilatorCmtBad_comment_witness :
  let isFuture := fun name => bool_decide (name = "hier_block") in
  let textp := String.list_ascii_of_string "/*verilator foo*/" in
  lexVerilatorCmtBad isFuture 0 textp lex_top_v
  = v3error 0 "Unknown verilator comment: '/*verilator foo*/'" lex_top_v.
Proof.
  intros isFuture textp.
  assert (Forall (fun c => isalnum c = true)
            (String.list_ascii_of_string "foo")) as H1
    by (repeat constructor).
  assert (stops isalnum (String.list_ascii_of_string "*/")) as H2
    by (by intros c [= <-]).
  exact (proj2 (lexVerilatorCmtBad_comment isFuture 0%nat lex_top_v
                  (String.list_ascii_of_string " ")
                  (String.list_ascii_of_string "foo")
                  (String.list_ascii_of_string "*/")
                  ltac:(repeat constructor) H1 H2 ltac:(discriminate))
               eq_refl).
Defined.

(** ** Filling and dumping the preprocessor buffers *)

(** The loop stops short of [max_size] only when the deque is empty. *)
Lemma ppInputToLex_loop_fills fuel :
  forall max_size got buf ppBuffers got' buf' ppBuffers',
    ppInputToLex_loop fuel max_size got buf ppBuffers
    = Some (got', buf', ppBuffers') ->
    (got' < max_size)%nat -> ppBuffers' = [].
Proof.
  induction fuel as [|fuel IH];
    intros max_size got buf ppBuffers got' buf' ppBuffers' Hloop Hlt.
  - destruct ppBuffers as [|front rest]; cbn in Hloop.
    + by injection Hloop as _ _ <-.
    + destruct (decide (got < max_size)%nat); [done|].
      injection Hloop as <- _ _. lia.
  - destruct ppBuffers as [|front rest]; cbn in Hloop.
    { by injection Hloop as _ _ <-. }
    destruct (decide (got < max_size)%nat) as [Hg|Hg];
      [|injection Hloop as <- _ _; lia].
    destruct (decide (max_size - got < length front)%nat) as [Hbig|Hbig].
    + rewrite ppInputToLex_loop_full in Hloop by lia.
      injection Hloop as <- _ _. lia.
    + by eapply IH.
Qed.

Lemma ppInputToLex_exact ppBuffers max_size :
  exists ppBuffers',
    ppInputToLex ppBuffers max_size
    = Some (min max_size (length (concat ppBuffers)),
            take max_size (concat ppBuffers), ppBuffers')
    /\ concat ppBuffers' = drop max_size (concat ppBuffers)
    /\ (Forall (fun b => b <> []) ppBuffers ->
        Forall (fun b => b <> []) ppBuffers').
Proof.
  destruct (ppInputToLex_spec ppBuffers max_size)
    as (got & buf & rest & Hcall & Hle & Hlen & Hcat & _ & Hne).
  assert (buf = take max_size (concat ppBuffers)
          /\ concat rest = drop max_size (concat ppBuffers)) as [Hb Hr].
  { destruct (decide (got < max_size)%nat) as [Hlt|Hge].
    - unfold ppInputToLex in Hcall.
      pose proof (ppInputToLex_loop_fills _ _ _ _ _ _ _ _ Hcall Hlt) as ->.
      cbn in Hcat. rewrite app_nil_r in Hcat. subst buf.
      by rewrite take_ge, drop_ge by lia.
    - assert (length buf = max_size) as Hl by lia.
      rewrite <- Hcat, <- Hl. by rewrite take_app_length, drop_app_length. }
  exists rest. split.
  - rewrite Hcall. repeat f_equal; [|done].
    rewrite <- Hlen, Hb, length_take. done.
  - split; [done|]. intros H. by apply Hne.
Qed.

(** X21.  A call of [ppInputToLex] withholds nothing: it delivers the
    first [max_size] bytes of the text queued, or all of it when there is
    less, and what stays queued is exactly the rest of the text. *)
Theorem ppInputToLex_fills ppBuffers max_size :
  exists ppBuffers',
    ppInputToLex ppBuffers max_size
    = Some (min max_size (length (concat ppBuffers)),
            take max_size (concat ppBuffers), ppBuffers')
    /\ concat ppBuffers' = drop max_size (concat ppBuffers).
Proof.
  destruct (ppInputToLex_exact ppBuffers max_size) as (rest & H1 & H2 & _).
  by exists rest.
Qed.

Lemma ppPushText_spec texts :
  forall ppBuffers,
    Forall (fun b => b <> []) ppBuffers ->
    Forall (fun b => b <> []) (foldl (fun q t => ppPushText t q) ppBuffers
                                     texts)
    /\ concat (foldl (fun q t => ppPushText t q) ppBuffers texts)
       = concat ppBuffers ++ concat texts.
Proof.
  induction texts as [|t texts IH]; intros q Hq; cbn [foldl].
  - by rewrite app_nil_r.
  - unfold ppPushText at 2 4, impp_ppPushText. case_bool_decide as Ht.
    + destruct (IH (q ++ [t])) as [H1 H2].
      { apply Forall_app. split; [done|]. by constructor. }
      split; [done|]. rewrite H2, concat_app. cbn.
      by rewrite app_nil_r, <- app_assoc.
    + subst t. by apply IH.
Qed.

(** X22.  Text pushed through [V3Parse::ppPushText] reaches the lexer
    whole and in order, and the lexer is told the end of input only at the
    end: whatever texts are pushed, empty ones included, a call of
    [ppInputToLex] with room for at least one byte delivers the next bytes
    of the texts joined, and returns 0 exactly when no text is left. *)
Theorem ppPushText_then_ppInputToLex texts max_size :
  (0 < max_size)%nat ->
  let ppBuffers := foldl (fun q t => ppPushText t q) [] texts in
  exists got buf ppBuffers',
    ppInputToLex ppBuffers max_size = Some (got, buf, ppBuffers')
    /\ buf = take max_size (concat texts)
    /\ got = length buf
    /\ concat ppBuffers' = drop max_size (concat texts)
    /\ Forall (fun b => b <> []) ppBuffers'
    /\ (got = 0%nat <-> concat texts = []).
Proof.
  intros Hmax ppBuffers.
  destruct (ppPushText_spec texts [] ltac:(constructor)) as [Hne Hcat].
  fold ppBuffers in Hne, Hcat. cbn in Hcat.
  destruct (ppInputToLex_exact ppBuffers max_size) as (rest & H1 & H2 & H3).
  rewrite Hcat in H1, H2.
  eexists _, _, rest. split; [exact H1|]. split; [done|].
  split; [by rewrite length_take|]. split; [done|]. split; [by apply H3|].
  destruct (concat texts) as [|b l]; cbn; [split; [done|lia]|].
  split; [lia|done].
Qed.

Lemma ppPushText_then_ppInputToLex_witness :
  exists got buf ppBuffers',
    ppInputToLex (foldl (fun q t => ppPushText t q) []
                    [[Byte.x61; Byte.x62]; []; [Byte.x63]]) 4
    = Some (got, buf, ppBuffers')
    /\ buf = [Byte.x61; Byte.x62; Byte.x63]
    /\ got = length buf
    /\ concat ppBuffers' = []
    /\ Forall (fun b => b <> []) ppBuffers'
    /\ (got = 0%nat <-> [Byte.x61; Byte.x62; Byte.x63] = []).
Proof.
  apply (ppPushText_then_ppInputToLex
           [[Byte.x61; Byte.x62]; []; [Byte.x63]] 4).
  lia.
Defined.

Lemma preprocDumps_loop_all ppBuffers :
  forall nolines os,
    preprocDumps_loop false nolines ppBuffers os = os ++ concat ppBuffers.
Proof.
  induction ppBuffers as [|buf bufs IH]; intros nolines os; cbn.
  - by rewrite app_nil_r.
  - by rewrite IH, app_assoc.
Qed.

Lemma filter_nonblank_blank buf :
  existsb nonblank buf = false -> filter (fun ch => nonblank ch) buf = [].
Proof.
  induction buf as [|ch buf IH]; [done|]. cbn [existsb].
  intros H. apply orb_false_iff in H as [Hc Hb].
  rewrite filter_cons. rewrite decide_False by (rewrite Hc; cbn; tauto).
  by apply IH.
Qed.

Lemma preprocDumps_loop_nonblank ppBuffers :
  forall noblanks os,
    filter (fun ch => nonblank ch)
           (preprocDumps_loop noblanks false ppBuffers os)
    = filter (fun ch => nonblank ch) (os ++ concat ppBuffers).
Proof.
  induction ppBuffers as [|buf bufs IH]; intros noblanks os;
    cbn [preprocDumps_loop concat].
  - by rewrite app_nil_r.
  - destruct noblanks; [|by rewrite IH, app_assoc].
    cbv zeta. cbn [andb].
    destruct (existsb nonblank buf) eqn:Hb; cbn [negb].
    + by rewrite IH, app_assoc.
    + rewrite IH, !filter_app, (filter_nonblank_blank buf Hb). done.
Qed.

(** X23.  What [preprocDumps] writes.  Without filtering (not for the
    inputs file, and not both of the options [preprocOnly] and
    [preprocNoLine]) it writes the buffers joined, byte for byte what
    [ppInputToLex] will hand to the lexer.  When only blank buffers are
    filtered (not for the inputs file) no character other than white space
    is lost.  For the inputs file the two options play no part. *)
Theorem preprocDumps_output preprocOnly preprocNoLine ppBuffers :
  (preprocOnly && preprocNoLine = false ->
   preprocDumps preprocOnly preprocNoLine ppBuffers false
   = concat ppBuffers
   /\ forall sizes,
        exists bufs ppBuffers',
          ppInputToLex_calls sizes ppBuffers = Some (bufs, ppBuffers')
          /\ bufs ++ concat ppBuffers'
             = preprocDumps preprocOnly preprocNoLine ppBuffers false)
  /\ filter (fun ch => nonblank ch)
            (preprocDumps preprocOnly preprocNoLine ppBuffers false)
     = filter (fun ch => nonblank ch) (concat ppBuffers)
  /\ preprocDumps preprocOnly preprocNoLine ppBuffers true
     = preprocDumps false false ppBuffers true.
Proof.
  unfold preprocDumps. cbv zeta. cbn [orb]. repeat split.
  - rewrite H. by rewrite preprocDumps_loop_all.
  - intros sizes. rewrite H, preprocDumps_loop_all. cbn [app].
    apply ppInputToLex_calls_spec.
  - by rewrite preprocDumps_loop_nonblank.
Qed.

Lemma preprocDumps_output_witness :
  preprocDumps true false [[Byte.x61]; [Byte.x20]; [Byte.x62]] false
  = [Byte.x61; Byte.x20; Byte.x62].
Proof.
  exact (proj1 (proj1 (preprocDumps_output true false
                         [[Byte.x61]; [Byte.x20]; [Byte.x62]]) eq_refl)).
Defined.
